(** * RoadMigrate: a shallow embedding of [src/roadmigrate/migrate.py]

    The development follows the source file top to bottom: the Python
    values the code relies on (strings, their ordering, [lower],
    [re.sub], [strip], [hashlib.md5], [strftime]), then [Migration],
    [MigrationResult], [MigrationStore], [MigrationBuilder],
    [MigrationRunner] and [Migrator], and then the properties.

    Modelling conventions.
    - A Python [str] whose code points are below 256 is a [string]; one
      [ascii] is one code point.  On such strings Python's comparison is
      [String.compare], and [str.lower] is [Py.lower]: the capitals of
      ASCII and of Latin-1 have their lowercase 32 above.  Names of any
      code points are in [Unicode]: lists of code points, with
      [str.lower] as a parameter.
    - Code that the migrator calls but does not define (migration bodies,
      the backend handler, hook callbacks) acts on an abstract [World],
      not on the migrator, and either returns or raises an [Exception]
      with a message.  Hook callbacks that raise [KeyboardInterrupt],
      [SystemExit] and the like, which no [except Exception] catches, are
      in [Signals].
    - Statements run in a state-and-exception monad over the world and the
      migrator object; [try ... except Exception] is [try_except].  A
      [Migration] object is mutable and lives in the catalog; it is
      referred to by the key it is filed under.
    - The clocks are read from the world; durations are exact rationals.
      The lock of the store and the logger are not modelled. *)

From Stdlib Require Import ZArith QArith String Ascii List Lia Bool.
From stdpp Require Import gmap strings list sorting.

Local Open Scope Z_scope.

Set Warnings "-clear-no-such-hyp".

(** ** Python strings *)

Module Py.

(** Code point of a character. *)
Definition ord (c : ascii) : Z := Z.of_N (N_of_ascii c).

Definition chr (z : Z) : ascii := ascii_of_N (Z.to_N z).

(** [a > b] and [a <= b] on [str]. *)
Definition str_gt (a b : string) : bool := String.ltb b a.
Definition str_le (a b : string) : bool := String.leb a b.

(** Truth value of a [str]: the empty string is falsy. *)
Definition truthy (s : string) : bool :=
  match s with EmptyString => false | String _ _ => true end.

Definition is_upper (c : ascii) : bool := (65 <=? ord c) && (ord c <=? 90).
Definition is_lower (c : ascii) : bool := (97 <=? ord c) && (ord c <=? 122).
Definition is_digit (c : ascii) : bool := (48 <=? ord c) && (ord c <=? 57).

(** Membership in the character class [a-z0-9]. *)
Definition in_class (c : ascii) : bool := is_lower c || is_digit c.

(** The capitals of Latin-1 outside ASCII: U+00C0 to U+00DE without the
    multiplication sign U+00D7. *)
Definition is_upper_latin1 (c : ascii) : bool :=
  (192 <=? ord c) && (ord c <=? 222) && negb (ord c =? 215).

(** [c.lower()] of one code point below 256: a capital has its lowercase
    32 above; every other character is left. *)
Definition lower_char (c : ascii) : ascii :=
  if is_upper c || is_upper_latin1 c then chr (ord c + 32) else c.

(** [c.isalnum()] of one code point below 256: the letters and the
    numeric characters of Latin-1. *)
Definition isalnum (c : ascii) : bool :=
  is_digit c || is_upper c || is_lower c ||
  (ord c =? 170) || (178 <=? ord c) && (ord c <=? 179) || (ord c =? 181) ||
  (185 <=? ord c) && (ord c <=? 186) || (188 <=? ord c) && (ord c <=? 190) ||
  (192 <=? ord c) && (ord c <=? 214) || (216 <=? ord c) && (ord c <=? 246) ||
  (248 <=? ord c) && (ord c <=? 255).

(** [s.lower()] *)
Fixpoint lower (s : string) : string :=
  match s with
  | EmptyString => EmptyString
  | String c s' => String (lower_char c) (lower s')
  end.

(** [re.sub(r'[^a-z0-9]+', '_', s)]: scanning left to right, every
    maximal run of characters outside the class is one match and is
    replaced by one underscore.  [in_match] tells that the previous
    character belongs to the match being consumed. *)
Fixpoint re_sub_from (in_match : bool) (s : string) : string :=
  match s with
  | EmptyString => EmptyString
  | String c s' =>
      if in_class c then String c (re_sub_from false s')
      else if in_match then re_sub_from true s'
      else String "_" (re_sub_from true s')
  end.

Definition re_sub (s : string) : string := re_sub_from false s.

(** [s.lstrip('_')] *)
Fixpoint lstrip (s : string) : string :=
  match s with
  | String "_" s' => lstrip s'
  | _ => s
  end.

(** [s.rstrip('_')] *)
Fixpoint rstrip (s : string) : string :=
  match s with
  | EmptyString => EmptyString
  | String c s' =>
      match rstrip s' with
      | EmptyString => if Ascii.eqb c "_" then EmptyString else String c EmptyString
      | r => String c r
      end
  end.

(** [s.strip('_')] *)
Definition strip (s : string) : string := rstrip (lstrip s).

(** [s[:n]] *)
Fixpoint take (n : nat) (s : string) : string :=
  match n, s with
  | S n', String c s' => String c (take n' s')
  | _, _ => EmptyString
  end.

(** [s.encode()]: UTF-8 of code points below 256. *)
Definition utf8 (c : ascii) : list Z :=
  if ord c <? 128 then [ord c]
  else [Z.lor 192 (Z.shiftr (ord c) 6); Z.lor 128 (Z.land (ord c) 63)].

Fixpoint encode (s : string) : list Z :=
  match s with
  | EmptyString => []
  | String c s' => utf8 c ++ encode s'
  end.

End Py.

(** ** [hashlib.md5] (RFC 1321), on bytes as [Z] in 0..255 *)

Module MD5.

Definition mask32 (x : Z) : Z := Z.land x 0xFFFFFFFF.
Definition add32 (x y : Z) : Z := mask32 (x + y).
Definition not32 (x : Z) : Z := Z.lxor (mask32 x) 0xFFFFFFFF.
Definition rotl32 (x c : Z) : Z :=
  mask32 (Z.lor (Z.shiftl x c) (Z.shiftr (mask32 x) (32 - c))).

Definition S_table : list Z :=
  [7; 12; 17; 22; 7; 12; 17; 22; 7; 12; 17; 22; 7; 12; 17; 22;
   5; 9; 14; 20; 5; 9; 14; 20; 5; 9; 14; 20; 5; 9; 14; 20;
   4; 11; 16; 23; 4; 11; 16; 23; 4; 11; 16; 23; 4; 11; 16; 23;
   6; 10; 15; 21; 6; 10; 15; 21; 6; 10; 15; 21; 6; 10; 15; 21].

Definition K_table : list Z :=
  [0xd76aa478; 0xe8c7b756; 0x242070db; 0xc1bdceee;
   0xf57c0faf; 0x4787c62a; 0xa8304613; 0xfd469501;
   0x698098d8; 0x8b44f7af; 0xffff5bb1; 0x895cd7be;
   0x6b901122; 0xfd987193; 0xa679438e; 0x49b40821;
   0xf61e2562; 0xc040b340; 0x265e5a51; 0xe9b6c7aa;
   0xd62f105d; 0x02441453; 0xd8a1e681; 0xe7d3fbc8;
   0x21e1cde6; 0xc33707d6; 0xf4d50d87; 0x455a14ed;
   0xa9e3e905; 0xfcefa3f8; 0x676f02d9; 0x8d2a4c8a;
   0xfffa3942; 0x8771f681; 0x6d9d6122; 0xfde5380c;
   0xa4beea44; 0x4bdecfa9; 0xf6bb4b60; 0xbebfbc70;
   0x289b7ec6; 0xeaa127fa; 0xd4ef3085; 0x04881d05;
   0xd9d4d039; 0xe6db99e5; 0x1fa27cf8; 0xc4ac5665;
   0xf4292244; 0x432aff97; 0xab9423a7; 0xfc93a039;
   0x655b59c3; 0x8f0ccc92; 0xffeff47d; 0x85845dd1;
   0x6fa87e4f; 0xfe2ce6e0; 0xa3014314; 0x4e0811a1;
   0xf7537e82; 0xbd3af235; 0x2ad7d2bb; 0xeb86d391].

(** The [n] low bytes of [x], least significant first. *)
Fixpoint le_bytes (n : nat) (x : Z) : list Z :=
  match n with
  | O => []
  | S n' => Z.land x 255 :: le_bytes n' (Z.shiftr x 8)
  end.

(** Little-endian value of a byte list. *)
Fixpoint le_word (bs : list Z) : Z :=
  match bs with
  | [] => 0
  | b :: bs' => b + 256 * le_word bs'
  end.

Definition pad (msg : list Z) : list Z :=
  let len := Z.of_nat (length msg) in
  msg ++ [128] ++ List.repeat 0 (Z.to_nat ((55 - len) mod 64))
      ++ le_bytes 8 (8 * len).

(** Split into groups of [n] items; [fuel] bounds the number of groups. *)
Fixpoint groups {A} (fuel n : nat) (l : list A) : list (list A) :=
  match fuel, l with
  | S fuel', _ :: _ => firstn n l :: groups fuel' n (skipn n l)
  | _, _ => []
  end.

Definition words_of_block (block : list Z) : list Z :=
  List.map le_word (groups 16 4 block).

Definition step (M : list Z) (st : Z * Z * Z * Z) (i : nat) : Z * Z * Z * Z :=
  let '(A, B, C, D) := st in
  let iz := Z.of_nat i in
  let '(F, g) :=
    if iz <? 16 then (Z.lor (Z.land B C) (Z.land (not32 B) D), iz)
    else if iz <? 32 then (Z.lor (Z.land D B) (Z.land (not32 D) C), (5 * iz + 1) mod 16)
    else if iz <? 48 then (Z.lxor (Z.lxor B C) D, (3 * iz + 5) mod 16)
    else (Z.lxor C (Z.lor B (not32 D)), (7 * iz) mod 16) in
  let F' := add32 (add32 (add32 F A) (nth i K_table 0)) (nth (Z.to_nat g) M 0) in
  (D, add32 B (rotl32 F' (nth i S_table 0)), B, C).

Definition process_block (st : Z * Z * Z * Z) (block : list Z) : Z * Z * Z * Z :=
  let '(a0, b0, c0, d0) := st in
  let '(A, B, C, D) := fold_left (step (words_of_block block)) (seq 0 64) st in
  (add32 a0 A, add32 b0 B, add32 c0 C, add32 d0 D).

Definition init_state : Z * Z * Z * Z :=
  (0x67452301, 0xefcdab89, 0x98badcfe, 0x10325476).

(** [hashlib.md5(bytes).digest()] *)
Definition digest (msg : list Z) : list Z :=
  let padded := pad msg in
  let '(a, b, c, d) :=
    fold_left process_block (groups (length padded) 64 padded) init_state in
  le_bytes 4 a ++ le_bytes 4 b ++ le_bytes 4 c ++ le_bytes 4 d.

Definition hex_digit (z : Z) : ascii :=
  if z <? 10 then Py.chr (48 + z) else Py.chr (87 + z).

Fixpoint hex (bs : list Z) : string :=
  match bs with
  | [] => EmptyString
  | b :: bs' => String (hex_digit (Z.shiftr b 4)) (String (hex_digit (Z.land b 15)) (hex bs'))
  end.

(** [hashlib.md5(bytes).hexdigest()] *)
Definition hexdigest (msg : list Z) : string := hex (digest msg).

End MD5.

(** ** Python values shared by the classes *)

(** Result of a call: it returns a value or raises an [Exception]; the
    message is what [str(e)] gives. *)
Inductive Outcome (A : Type) : Type :=
  | Returned (a : A)
  | Raised (msg : string).
Arguments Returned {A} a.
Arguments Raised {A} msg.

(** [datetime] *)
Record datetime : Type := {
  year : Z; month : Z; day : Z; hour : Z; minute : Z; second : Z;
  microsecond : Z
}.

(** The clocks the code reads: [time.time()] in seconds and
    [datetime.now()]. *)
Class Clock (World : Type) : Type := {
  time_time : World -> Q;
  datetime_now : World -> datetime
}.

(** [list.remove(x)] when [x] is in the list: the first occurrence goes. *)
Fixpoint list_remove (x : string) (l : list string) : list string :=
  match l with
  | [] => []
  | y :: l' => if decide (x = y) then l' else y :: list_remove x l'
  end.

(** [sorted(keys)] on strings. *)
Definition sorted (l : list string) : list string := merge_sort String.le l.

(** Decimal digits of a non-negative number, zero-padded to [width]
    digits, as [strftime] writes a field. *)
Fixpoint digits (width : nat) (n : Z) : string :=
  match width with
  | O => EmptyString
  | S w => digits w (n / 10) +:+ String (Py.chr (48 + n mod 10)) EmptyString
  end.

(** [d.strftime("%Y%m%d%H%M%S")], for a year of four digits (how a year
    below 1000 is written is left to the C library). *)
Definition strftime (d : datetime) : string :=
  digits 4 (year d) +:+ digits 2 (month d) +:+ digits 2 (day d) +:+
  digits 2 (hour d) +:+ digits 2 (minute d) +:+ digits 2 (second d).

(** A [datetime] as [datetime.now()] gives them, with a year of four
    digits. *)
Definition valid_datetime (d : datetime) : Prop :=
  1000 <= year d <= 9999 ∧ 1 <= month d <= 12 ∧ 1 <= day d <= 31 ∧
  0 <= hour d <= 23 ∧ 0 <= minute d <= 59 ∧ 0 <= second d <= 59.

(** [d1] is before [d2], to the second. *)
Definition earlier (d1 d2 : datetime) : Prop :=
  year d1 < year d2 ∨ year d1 = year d2 ∧
  (month d1 < month d2 ∨ month d1 = month d2 ∧
   (day d1 < day d2 ∨ day d1 = day d2 ∧
    (hour d1 < hour d2 ∨ hour d1 = hour d2 ∧
     (minute d1 < minute d2 ∨ minute d1 = minute d2 ∧ second d1 < second d2)))).

(** The fields of a timestamp read as one number. *)
Definition stamp_number (d : datetime) : Z :=
  ((((year d * 100 + month d) * 100 + day d) * 100 + hour d) * 100 + minute d) * 100
  + second d.

(** [slug] of [Migrator.generate]. *)
Definition slug (name : string) : string := Py.strip (Py.re_sub (Py.lower name)).

(** The slug by the runs of the name itself, on strings of code points
    below 256: the maximal runs of ASCII letters and digits of the name,
    lowercased, joined by single separators. *)
Definition is_alnum (c : ascii) : bool :=
  Py.is_upper c || Py.is_lower c || Py.is_digit c.

Definition starts_alnum (s : string) : bool :=
  match s with
  | String c _ => is_alnum c
  | EmptyString => false
  end.

Fixpoint alnum_words (s : string) : list string :=
  match s with
  | EmptyString => []
  | String c s' =>
      if is_alnum c then
        if starts_alnum s' then
          match alnum_words s' with
          | w :: ws => String c w :: ws
          | [] => [String c EmptyString]
          end
        else String c EmptyString :: alnum_words s'
      else alnum_words s'
  end.

Definition slug_spec (name : string) : string :=
  String.concat "_" (List.map Py.lower (alnum_words name)).

(** The shape of a normalized slug: runs of characters of the class
    [a-z0-9], one separator between two runs, none at either end.
    [after_class] tells that the previous character is of the class. *)
Fixpoint slug_shape (after_class : bool) (s : string) : bool :=
  match s with
  | EmptyString => after_class
  | String c s' =>
      if Py.in_class c then slug_shape true s'
      else Ascii.eqb c "_" && after_class && slug_shape false s'
  end.

Definition well_formed_slug (s : string) : bool :=
  match s with
  | EmptyString => true
  | _ => slug_shape false s
  end.

Fixpoint all_alnum (s : string) : bool :=
  match s with
  | EmptyString => true
  | String c s' => is_alnum c && all_alnum s'
  end.

Inductive MigrationStatus : Type := PENDING | APPLIED | FAILED | ROLLED_BACK.

Section Model.

Context {World : Type} `{Clock World}.

(** A callable without arguments, run for its effect on the world. *)
Definition Proc : Type := World -> Outcome unit * World.

(** *** class Migration *)

Record Migration : Type := {
  version : string;
  name : string;
  up_sql : string;
  down_sql : string;
  up_fn : option Proc;
  down_fn : option Proc;
  checksum : string;
  applied_at : option datetime;
  status : MigrationStatus
}.

Definition set_checksum (c : string) (m : Migration) : Migration :=
  {| version := version m; name := name m; up_sql := up_sql m;
     down_sql := down_sql m; up_fn := up_fn m; down_fn := down_fn m;
     checksum := c; applied_at := applied_at m; status := status m |}.

Definition set_status (s : MigrationStatus) (m : Migration) : Migration :=
  {| version := version m; name := name m; up_sql := up_sql m;
     down_sql := down_sql m; up_fn := up_fn m; down_fn := down_fn m;
     checksum := checksum m; applied_at := applied_at m; status := s |}.

Definition set_applied_at (d : option datetime) (m : Migration) : Migration :=
  {| version := version m; name := name m; up_sql := up_sql m;
     down_sql := down_sql m; up_fn := up_fn m; down_fn := down_fn m;
     checksum := checksum m; applied_at := d; status := status m |}.

Definition set_up_sql (sql : string) (m : Migration) : Migration :=
  {| version := version m; name := name m; up_sql := sql;
     down_sql := down_sql m; up_fn := up_fn m; down_fn := down_fn m;
     checksum := checksum m; applied_at := applied_at m; status := status m |}.

Definition set_down_sql (sql : string) (m : Migration) : Migration :=
  {| version := version m; name := name m; up_sql := up_sql m;
     down_sql := sql; up_fn := up_fn m; down_fn := down_fn m;
     checksum := checksum m; applied_at := applied_at m; status := status m |}.

Definition set_up_fn (fn : option Proc) (m : Migration) : Migration :=
  {| version := version m; name := name m; up_sql := up_sql m;
     down_sql := down_sql m; up_fn := fn; down_fn := down_fn m;
     checksum := checksum m; applied_at := applied_at m; status := status m |}.

Definition set_down_fn (fn : option Proc) (m : Migration) : Migration :=
  {| version := version m; name := name m; up_sql := up_sql m;
     down_sql := down_sql m; up_fn := up_fn m; down_fn := fn;
     checksum := checksum m; applied_at := applied_at m; status := status m |}.

(** [Migration.__post_init__] *)
Definition post_init (m : Migration) : Migration :=
  if negb (Py.truthy (checksum m)) then
    let content := up_sql m +:+ down_sql m in
    set_checksum (Py.take 8 (MD5.hexdigest (Py.encode content))) m
  else m.

(** [Migration(version, name, up_sql, down_sql, up_fn, down_fn, checksum,
    applied_at, status)]: the generated [__init__] stores the fields and
    calls [__post_init__]. *)
Definition new_Migration (version name up_sql down_sql : string)
    (up_fn down_fn : option Proc) (checksum : string)
    (applied_at : option datetime) (status : MigrationStatus) : Migration :=
  post_init
    {| version := version; name := name; up_sql := up_sql;
       down_sql := down_sql; up_fn := up_fn; down_fn := down_fn;
       checksum := checksum; applied_at := applied_at; status := status |}.

(** [Migration(version=version, name=name)], the other fields at their
    defaults. *)
Definition default_Migration (version name : string) : Migration :=
  new_Migration version name "" "" None None "" None PENDING.

(** *** class MigrationResult *)

Record MigrationResult : Type := {
  res_version : string;
  res_name : string;
  success : bool;
  direction : string;
  duration_ms : Q;
  error : option string
}.

(** *** class MigrationStore *)

Record MigrationStore : Type := {
  store_migrations : gmap string Migration;
  store_applied : list string
}.

Definition new_MigrationStore : MigrationStore :=
  {| store_migrations := ∅; store_applied := [] |}.

Definition get_applied (s : MigrationStore) : list string := store_applied s.

Definition mark_applied (version : string) (s : MigrationStore) : MigrationStore :=
  if decide (version ∈ store_applied s) then s
  else {| store_migrations := store_migrations s;
          store_applied := store_applied s ++ [version] |}.

Definition mark_rolled_back (version : string) (s : MigrationStore) : MigrationStore :=
  if decide (version ∈ store_applied s) then
    {| store_migrations := store_migrations s;
       store_applied := list_remove version (store_applied s) |}
  else s.

Definition is_applied (version : string) (s : MigrationStore) : bool :=
  bool_decide (version ∈ store_applied s).

(** A history of the store: the mutating calls made on a fresh store. *)
Inductive LedgerOp : Type :=
  | MarkApplied (version : string)
  | MarkRolledBack (version : string).

Definition ledger_step (s : MigrationStore) (op : LedgerOp) : MigrationStore :=
  match op with
  | MarkApplied v => mark_applied v s
  | MarkRolledBack v => mark_rolled_back v s
  end.

Definition ledger_run (ops : list LedgerOp) : MigrationStore :=
  fold_left ledger_step ops new_MigrationStore.

Definition marks_applied (v : string) (op : LedgerOp) : bool :=
  match op with
  | MarkApplied v' => bool_decide (v' = v)
  | MarkRolledBack _ => false
  end.

(** *** class MigrationBuilder *)

Record MigrationBuilder : Type := { migration : Migration }.

Definition new_MigrationBuilder (version name : string) : MigrationBuilder :=
  {| migration := default_Migration version name |}.

Definition up (sql : string) (b : MigrationBuilder) : MigrationBuilder :=
  {| migration := set_up_sql sql (migration b) |}.

Definition down (sql : string) (b : MigrationBuilder) : MigrationBuilder :=
  {| migration := set_down_sql sql (migration b) |}.

Definition builder_up_fn (fn : Proc) (b : MigrationBuilder) : MigrationBuilder :=
  {| migration := set_up_fn (Some fn) (migration b) |}.

Definition builder_down_fn (fn : Proc) (b : MigrationBuilder) : MigrationBuilder :=
  {| migration := set_down_fn (Some fn) (migration b) |}.

Definition build (b : MigrationBuilder) : Migration := migration b.

(** *** class MigrationRunner *)

Record MigrationRunner : Type := { executor : string -> Proc }.

(** [MigrationRunner._default_executor]: logs and returns [True]. *)
Definition _default_executor (sql : string) : Proc :=
  fun w => (Returned tt, w).

(** [MigrationRunner(executor)]: [executor or self._default_executor]. *)
Definition new_MigrationRunner (e : option (string -> Proc)) : MigrationRunner :=
  {| executor := default _default_executor e |}.

(** *** class Migrator: the object *)

(** A hook callback: it receives [None] or the result list. *)
Definition Handler : Type := option (list MigrationResult) -> Proc.

Record Migrator : Type := {
  store : MigrationStore;
  runner : MigrationRunner;
  migrations : gmap string Migration;
  hooks : gmap string (list Handler)
}.

Definition set_store (s : MigrationStore) (mg : Migrator) : Migrator :=
  {| store := s; runner := runner mg; migrations := migrations mg;
     hooks := hooks mg |}.

Definition set_migrations (ms : gmap string Migration) (mg : Migrator) : Migrator :=
  {| store := store mg; runner := runner mg; migrations := ms;
     hooks := hooks mg |}.

Definition set_hooks (hs : gmap string (list Handler)) (mg : Migrator) : Migrator :=
  {| store := store mg; runner := runner mg; migrations := migrations mg;
     hooks := hs |}.

(** [Migrator(store, runner)] *)
Definition new_Migrator (s : option MigrationStore) (r : option MigrationRunner)
    : Migrator :=
  {| store := default new_MigrationStore s;
     runner := default (new_MigrationRunner None) r;
     migrations := ∅;
     hooks := <["before_migrate" := []]> (<["after_migrate" := []]>
              (<["before_rollback" := []]> (<["after_rollback" := []]> ∅))) |}.

(** *** Statements: state and exceptions *)

Record State : Type := { world : World; self : Migrator }.

Definition set_world (w : World) (st : State) : State :=
  {| world := w; self := self st |}.

Definition set_self (mg : Migrator) (st : State) : State :=
  {| world := world st; self := mg |}.

Definition M (A : Type) : Type := State -> Outcome A * State.

Definition ret {A} (a : A) : M A := fun st => (Returned a, st).

Definition bind {A B} (c : M A) (k : A -> M B) : M B :=
  fun st =>
    match c st with
    | (Returned a, st') => k a st'
    | (Raised e, st') => (Raised e, st')
    end.

Definition raise {A} (e : string) : M A := fun st => (Raised e, st).

(** [try: body  except Exception as e: handler], for a body that returns
    or raises an [Exception]; [Signals.try_except_Exception] is the same
    statement for a body that may also raise a signal. *)
Definition try_except {A} (body : M A) (handler : string -> M A) : M A :=
  fun st =>
    match body st with
    | (Returned a, st') => (Returned a, st')
    | (Raised e, st') => handler e st'
    end.

(** Calling a body, the backend handler or a hook callback. *)
Definition call (p : Proc) : M unit :=
  fun st => let (o, w) := p (world st) in (o, set_world w st).

(** Reading a clock. *)
Definition read {A} (f : World -> A) : M A :=
  fun st => (Returned (f (world st)), st).

Definition get_self : M Migrator := fun st => (Returned (self st), st).

Definition modify_self (f : Migrator -> Migrator) : M unit :=
  fun st => (Returned tt, set_self (f (self st)) st).

Notation "'let*' x ':=' c 'in' k" := (bind c (fun x => k))
  (at level 10, x name, c at level 100, k at level 200).
Notation "'do' c 'then' k" := (bind c (fun _ => k))
  (at level 10, c at level 100, k at level 200).

(** *** MigrationRunner.run_up and run_down *)

Definition elapsed_ms (start stop : Q) : Q := Qmult (Qminus stop start) (inject_Z 1000).

Definition run_up (rn : MigrationRunner) (migration : Migration) : M MigrationResult :=
  let* start := read time_time in
  try_except
    (do (match up_fn migration with
         | Some fn => call fn
         | None =>
             if Py.truthy (up_sql migration)
             then call (executor rn (up_sql migration))
             else ret tt
         end) then
     let* now := read time_time in
     ret {| res_version := version migration; res_name := name migration;
            success := true; direction := "up";
            duration_ms := elapsed_ms start now; error := None |})
    (fun e =>
     let* now := read time_time in
     ret {| res_version := version migration; res_name := name migration;
            success := false; direction := "up";
            duration_ms := elapsed_ms start now; error := Some e |}).

Definition run_down (rn : MigrationRunner) (migration : Migration) : M MigrationResult :=
  let* start := read time_time in
  try_except
    (do (match down_fn migration with
         | Some fn => call fn
         | None =>
             if Py.truthy (down_sql migration)
             then call (executor rn (down_sql migration))
             else ret tt
         end) then
     let* now := read time_time in
     ret {| res_version := version migration; res_name := name migration;
            success := true; direction := "down";
            duration_ms := elapsed_ms start now; error := None |})
    (fun e =>
     let* now := read time_time in
     ret {| res_version := version migration; res_name := name migration;
            success := false; direction := "down";
            duration_ms := elapsed_ms start now; error := Some e |}).

(** *** class Migrator: the methods *)

(** [Migrator.add_hook] *)
Definition add_hook (event : string) (handler : Handler) : M unit :=
  modify_self (fun mg =>
    match hooks mg !! event with
    | Some hs => set_hooks (<[event := hs ++ [handler]]> (hooks mg)) mg
    | None => mg
    end).

(** The loop of [Migrator._emit] over the handlers of one event. *)
Fixpoint emit_handlers (hs : list Handler) (data : option (list MigrationResult))
    : M unit :=
  match hs with
  | [] => ret tt
  | handler :: hs' =>
      do try_except (call (handler data)) (fun e => ret tt) then
      emit_handlers hs' data
  end.

(** [Migrator._emit] *)
Definition _emit (event : string) (data : option (list MigrationResult)) : M unit :=
  let* mg := get_self in
  emit_handlers (default [] (hooks mg !! event)) data.

(** [Migrator.register] *)
Definition register (migration : Migration) : M unit :=
  modify_self (fun mg =>
    set_migrations (<[version migration := migration]> (migrations mg)) mg).

(** [Migrator.create] *)
Definition create (version name : string) : MigrationBuilder :=
  new_MigrationBuilder version name.

(** A [Migration] object of the catalog is referred to by the key it is
    filed under; [pending_versions] lists the references that
    [Migrator.pending] returns, [pending] the objects. *)
Definition pending_versions (mg : Migrator) : list string :=
  list_difference (sorted (map_to_list (migrations mg)).*1)
                  (get_applied (store mg)).

Definition pending (mg : Migrator) : list Migration :=
  omap (fun v => migrations mg !! v) (pending_versions mg).

(** [Migrator.applied] *)
Definition applied (mg : Migrator) : list Migration :=
  omap (fun v => migrations mg !! v) (get_applied (store mg)).

(** [self.migrations[version]] *)
Definition deref (v : string) : M Migration :=
  let* mg := get_self in
  match migrations mg !! v with
  | Some m => ret m
  | None => raise "KeyError"
  end.

(** Assignment to a field of the object filed under [v]. *)
Definition assign (v : string) (f : Migration -> Migration) : M unit :=
  modify_self (fun mg => set_migrations (alter f v (migrations mg)) mg).

Definition store_call (f : MigrationStore -> MigrationStore) : M unit :=
  modify_self (fun mg => set_store (f (store mg)) mg).

(** [target and migration.version > target]; [target] is [None] or a
    string. *)
Definition past_target (target : option string) (migration : Migration) : bool :=
  match target with
  | Some t => Py.truthy t && Py.str_gt (version migration) t
  | None => false
  end.

(** The loop of [Migrator.migrate]. *)
Fixpoint migrate_loop (target : option string) (pend : list string)
    (results : list MigrationResult) : M (list MigrationResult) :=
  match pend with
  | [] => ret results
  | ref :: pend' =>
      let* migration := deref ref in
      if past_target target migration then ret results
      else
        let* mg := get_self in
        let* result := run_up (runner mg) migration in
        let results := results ++ [result] in
        if success result then
          do store_call (mark_applied (version migration)) then
          do assign ref (set_status APPLIED) then
          let* now := read datetime_now in
          do assign ref (set_applied_at (Some now)) then
          migrate_loop target pend' results
        else
          do assign ref (set_status FAILED) then
          ret results
  end.

(** [Migrator.migrate] *)
Definition migrate (target : option string) : M (list MigrationResult) :=
  do _emit "before_migrate" None then
  let* mg := get_self in
  let* results := migrate_loop target (pending_versions mg) [] in
  do _emit "after_migrate" (Some results) then
  ret results.

(** The loop of [Migrator.rollback]; [i] is the index [enumerate] gives. *)
Fixpoint rollback_loop (steps i : Z) (walk : list string)
    (results : list MigrationResult) : M (list MigrationResult) :=
  match walk with
  | [] => ret results
  | version :: walk' =>
      if i >=? steps then ret results
      else
        let* mg := get_self in
        match migrations mg !! version with
        | None => rollback_loop steps (i + 1) walk' results
        | Some migration =>
            let* result := run_down (runner mg) migration in
            let results := results ++ [result] in
            if success result then
              do store_call (mark_rolled_back version) then
              do assign version (set_status ROLLED_BACK) then
              rollback_loop steps (i + 1) walk' results
            else
              do assign version (set_status FAILED) then
              ret results
        end
  end.

(** [Migrator.rollback] *)
Definition rollback (steps : Z) : M (list MigrationResult) :=
  do _emit "before_rollback" None then
  let* mg := get_self in
  let* results := rollback_loop steps 0 (rev (get_applied (store mg))) [] in
  do _emit "after_rollback" (Some results) then
  ret results.

(** The loop of [Migrator.rollback_to]. *)
Fixpoint rollback_to_loop (target : string) (walk : list string)
    (results : list MigrationResult) : M (list MigrationResult) :=
  match walk with
  | [] => ret results
  | version :: walk' =>
      if Py.str_le version target then ret results
      else
        let* mg := get_self in
        match migrations mg !! version with
        | Some migration =>
            let* result := run_down (runner mg) migration in
            let results := results ++ [result] in
            if success result then
              do store_call (mark_rolled_back version) then
              rollback_to_loop target walk' results
            else rollback_to_loop target walk' results
        | None => rollback_to_loop target walk' results
        end
  end.

(** [Migrator.rollback_to] *)
Definition rollback_to (target : string) : M (list MigrationResult) :=
  let* mg := get_self in
  rollback_to_loop target (rev (get_applied (store mg))) [].

(** [Migrator.generate] *)
Definition generate (name : string) : M string :=
  let* now := read datetime_now in
  let timestamp := strftime now in
  ret (timestamp +:+ "_" +:+ slug name).

(** *** Notions the properties are stated with *)

(** [register] files a Migration under its own version. *)
Definition catalog_wf (mg : Migrator) : Prop :=
  ∀ k m, migrations mg !! k = Some m → version m = k.

(** A result sequence of a fail-fast batch: successes, then at most one
    failure, which is last. *)
Definition fail_fast (rs : list MigrationResult) : Prop :=
  ∃ oks, Forall (λ r, success r = true) oks ∧
         (rs = oks ∨ ∃ rf, success rf = false ∧ rs = oks ++ [rf]).

(** The versions of the results that report success. *)
Definition succeeded (rs : list MigrationResult) : list string :=
  res_version <$> filter (λ r, success r = true) rs.

(** The store list after the versions [vs] have been rolled back, one
    after the other. *)
Definition rolled_back (vs : list string) (l : list string) : list string :=
  fold_left (λ l v, list_remove v l) vs l.

(** The versions [rollback_to] walks before it stops: the longest initial
    part of the walk whose versions are all greater than the target. *)
Fixpoint walked_to (target : string) (walk : list string) : list string :=
  match walk with
  | [] => []
  | v :: walk' => if Py.str_le v target then [] else v :: walked_to target walk'
  end.

(** The versions of a walk that are keys of the catalog. *)
Definition known (mg : Migrator) (walk : list string) : list string :=
  filter (λ v, v ∈ dom (migrations mg)) walk.

(** The same state with other hook callbacks registered. *)
Definition with_hooks (hs : gmap string (list Handler)) (st : State) : State :=
  set_self (set_hooks hs (self st)) st.

(** The migrator after a successful forward execution of the Migration
    [m] filed under [k], which left the world [w]. *)
Definition after_up_ok (k : string) (m : Migration) (w : World) (mg : Migrator)
    : Migrator :=
  set_migrations
    (alter (set_applied_at (Some (datetime_now w))) k
       (alter (set_status APPLIED) k (migrations mg)))
    (set_store (mark_applied (version m) (store mg)) mg).

(** The migrator after a backward execution under key [k]. *)
Definition after_down_ok (k : string) (mg : Migrator) : Migrator :=
  set_migrations (alter (set_status ROLLED_BACK) k (migrations mg))
    (set_store (mark_rolled_back k (store mg)) mg).

(** The migrator after a failed execution under key [k]. *)
Definition after_failed (k : string) (mg : Migrator) : Migrator :=
  set_migrations (alter (set_status FAILED) k (migrations mg)) mg.

(** What one run of the loop over [pend] does to the migrator [mg],
    giving the results [rs], leaving [rest] unvisited and the migrator
    [mg']. *)
Definition migrate_effect (target : option string) (pend : list string)
    (mg : Migrator) (rs : list MigrationResult) (rest : list string)
    (mg' : Migrator) : Prop :=
  pend = (res_version <$> rs) ++ rest ∧
  Forall (λ r, direction r = "up") rs ∧
  fail_fast rs ∧
  (∀ t, target = Some t → Py.truthy t = true →
        Forall (λ r, Py.str_gt (res_version r) t = false) rs) ∧
  (Forall (λ r, success r = true) rs →
     rest = [] ∨ ∃ k rest' t, rest = k :: rest' ∧ target = Some t ∧
                               Py.truthy t = true ∧ Py.str_gt k t = true) ∧
  store_applied (store mg') = store_applied (store mg) ++ succeeded rs ∧
  store_migrations (store mg') = store_migrations (store mg) ∧
  runner mg' = runner mg ∧
  hooks mg' = hooks mg ∧
  catalog_wf mg' ∧
  (∀ k, k ∉ res_version <$> rs → migrations mg' !! k = migrations mg !! k) ∧
  (∀ r, r ∈ rs → ∃ m', migrations mg' !! res_version r = Some m' ∧
                       status m' = if success r then APPLIED else FAILED) ∧
  (∀ k, is_Some (migrations mg' !! k) ↔ is_Some (migrations mg !! k)).

(** What one run of the loop of [rollback] does to the migrator [mg],
    with [slots] step slots left for the walk [walk]. *)
Definition rollback_effect (slots : nat) (walk : list string)
    (mg : Migrator) (rs : list MigrationResult) (mg' : Migrator) : Prop :=
  (res_version <$> rs) `prefix_of` known mg (take slots walk) ∧
  (Forall (λ r, success r = true) rs →
     res_version <$> rs = known mg (take slots walk)) ∧
  Forall (λ r, direction r = "down") rs ∧
  fail_fast rs ∧
  store_applied (store mg')
  = rolled_back (succeeded rs) (store_applied (store mg)) ∧
  store_migrations (store mg') = store_migrations (store mg) ∧
  runner mg' = runner mg ∧
  hooks mg' = hooks mg ∧
  catalog_wf mg' ∧
  dom (migrations mg') = dom (migrations mg) ∧
  (∀ k, k ∉ res_version <$> rs → migrations mg' !! k = migrations mg !! k) ∧
  (∀ r, r ∈ rs → ∃ m', migrations mg' !! res_version r = Some m' ∧
                       status m' = if success r then ROLLED_BACK else FAILED).

(** What one run of the loop of [rollback_to] does to the migrator. *)
Definition rollback_to_effect (target : string) (walk : list string)
    (mg : Migrator) (rs : list MigrationResult) (mg' : Migrator) : Prop :=
  Forall (λ r, direction r = "down") rs ∧
  migrations mg' = migrations mg ∧
  runner mg' = runner mg ∧
  hooks mg' = hooks mg ∧
  store_migrations (store mg') = store_migrations (store mg) ∧
  (catalog_wf mg →
   res_version <$> rs = known mg (walked_to target walk) ∧
   store_applied (store mg')
   = rolled_back (succeeded rs) (store_applied (store mg))).

End Model.

Arguments Proc World : clear implicits.
Arguments Migration World : clear implicits.
Arguments MigrationResult : clear implicits.
Arguments MigrationStore World : clear implicits.
Arguments MigrationBuilder World : clear implicits.

Arguments MigrationRunner World : clear implicits.
Arguments Handler World : clear implicits.
Arguments Migrator World : clear implicits.
Arguments State World : clear implicits.

(** ** Hook callbacks that raise a [BaseException]

    [except Exception] catches what derives from [Exception].  A
    [SystemExit], a [KeyboardInterrupt] or a [GeneratorExit] derives from
    [BaseException] only, and passes through it.  Above, a callback
    returns or raises an [Exception].  Here a hook callback may also
    raise such a signal, and [_emit] and [migrate] are read again with
    that in mind.  The registry of these callbacks is kept apart from the
    migrator, whose [hooks] field holds callbacks of the first kind;
    migration bodies and the backend handler are as above. *)

Module Signals.

Section Dispatch.

Context {World : Type} {clk : Clock World}.

(** How a call ends: as above, or with a signal that no
    [except Exception] catches; the name is that of its class. *)
Inductive Ending (A : Type) : Type :=
  | Ended (o : Outcome A)
  | Escaped (signal : string).

(** A hook callback. *)
Definition Hook : Type :=
  option (list MigrationResult) -> World -> Ending unit * World.

(** [self.hooks] *)
Definition Registry : Type := gmap string (list Hook).

(** The registry [Migrator.__init__] makes. *)
Definition new_registry : Registry :=
  <["before_migrate" := []]> (<["after_migrate" := []]>
  (<["before_rollback" := []]> (<["after_rollback" := []]> ∅))).

(** [Migrator.add_hook] *)
Definition add_hook (event : string) (handler : Hook) (hk : Registry) : Registry :=
  match hk !! event with
  | Some hs => <[event := hs ++ [handler]]> hk
  | None => hk
  end.

(** A callback of the first kind as a callback of this kind. *)
Definition lift_hook (h : Handler World) : Hook :=
  fun data w => let (o, w') := h data w in (Ended unit o, w').

Definition lift_registry (hs : gmap string (list (Handler World)))
    : gmap string (list Hook) :=
  (λ l : list (Handler World), lift_hook <$> l) <$> hs.

(** Statements that may end with a signal. *)
Definition S (A : Type) : Type := State World -> Ending A * State World.

Definition pure {A} (a : A) : S A := fun st => (Ended _ (Returned a), st).

Definition seq {A B} (c : S A) (k : A -> S B) : S B :=
  fun st =>
    match c st with
    | (Ended _ (Returned a), st') => k a st'
    | (Ended _ (Raised e), st') => (Ended _ (Raised e), st')
    | (Escaped _ s, st') => (Escaped _ s, st')
    end.

(** [try: body  except Exception as e: handler]: a signal is not
    caught. *)
Definition try_except_Exception {A} (body : S A) (handler : string -> S A) : S A :=
  fun st =>
    match body st with
    | (Ended _ (Returned a), st') => (Ended _ (Returned a), st')
    | (Ended _ (Raised e), st') => handler e st'
    | (Escaped _ s, st') => (Escaped _ s, st')
    end.

(** Calling a hook callback. *)
Definition call_hook (p : World -> Ending unit * World) : S unit :=
  fun st => let (o, w) := p (world st) in (o, set_world w st).

(** A statement of the model above. *)
Definition lift {A} (c : M A) : S A :=
  fun st => let (o, st') := c st in (Ended _ o, st').

(** The loop of [Migrator._emit]. *)
Fixpoint emit_handlers (hs : list Hook) (data : option (list MigrationResult))
    : S unit :=
  match hs with
  | [] => pure tt
  | handler :: hs' =>
      seq (try_except_Exception (call_hook (handler data)) (fun e => pure tt))
          (fun _ => emit_handlers hs' data)
  end.

(** [Migrator._emit] *)
Definition _emit (hk : Registry) (event : string)
    (data : option (list MigrationResult)) : S unit :=
  emit_handlers (default [] (hk !! event)) data.

(** [Migrator.migrate] *)
Definition migrate (hk : Registry) (target : option string)
    : S (list MigrationResult) :=
  seq (_emit hk "before_migrate" None) (fun _ =>
  seq (lift (bind get_self (fun mg =>
               migrate_loop target (pending_versions mg) []))) (fun results =>
  seq (_emit hk "after_migrate" (Some results)) (fun _ =>
  pure results))).


End Dispatch.

Arguments Ended {A} o.
Arguments Escaped {A} signal.
Arguments Hook World : clear implicits.
Arguments Registry World : clear implicits.

End Signals.

(** ** Names over all of Unicode

    [generate] once more, on names with any code points: a [str] is the
    list of its code points.  [str.lower] is defined by the Unicode
    character database, which is no part of the repository: it is a
    parameter here, and nothing is assumed of it.  [re.sub] and [strip]
    are as in [Py]. *)

Module Unicode.

Definition str : Type := list N.

(** A string of code points below 256. *)
Definition of_string (s : string) : str := N_of_ascii <$> list_ascii_of_string s.

(** The separator, [_]. *)
Definition sep : N := 95%N.

(** Membership in the character class [a-z0-9]. *)
Definition in_class (c : N) : bool :=
  ((97 <=? c) && (c <=? 122) || (48 <=? c) && (c <=? 57))%N.

(** [re.sub(r'[^a-z0-9]+', '_', s)]; [in_match] tells that the previous
    character belongs to the match being consumed. *)
Fixpoint re_sub_from (in_match : bool) (s : str) : str :=
  match s with
  | [] => []
  | c :: s' =>
      if in_class c then c :: re_sub_from false s'
      else if in_match then re_sub_from true s'
      else sep :: re_sub_from true s'
  end.

Definition re_sub (s : str) : str := re_sub_from false s.

(** [s.lstrip('_')] *)
Fixpoint lstrip (s : str) : str :=
  match s with
  | [] => []
  | c :: s' => if (c =? sep)%N then lstrip s' else s
  end.

(** [s.rstrip('_')] *)
Fixpoint rstrip (s : str) : str :=
  match s with
  | [] => []
  | c :: s' =>
      match rstrip s' with
      | [] => if (c =? sep)%N then [] else [c]
      | r => c :: r
      end
  end.

(** [s.strip('_')] *)
Definition strip (s : str) : str := rstrip (lstrip s).

(** Comparison of [str]: by code points, the first difference
    decides. *)
Fixpoint compare (a b : str) : comparison :=
  match a, b with
  | [], [] => Eq
  | [], _ :: _ => Lt
  | _ :: _, [] => Gt
  | x :: a', y :: b' =>
      match (x ?= y)%N with
      | Eq => compare a' b'
      | c => c
      end
  end.

(** [a < b] *)
Definition ltb (a b : str) : bool :=
  match compare a b with Lt => true | _ => false end.

(** The slug in words: the maximal runs of characters of [a-z0-9] of a
    string, and their concatenation with one separator between two
    runs. *)
Definition starts_class (s : str) : bool :=
  match s with
  | c :: _ => in_class c
  | [] => false
  end.

Fixpoint class_words (s : str) : list str :=
  match s with
  | [] => []
  | c :: s' =>
      if in_class c then
        if starts_class s' then
          match class_words s' with
          | w :: ws => (c :: w) :: ws
          | [] => [[c]]
          end
        else [c] :: class_words s'
      else class_words s'
  end.

Fixpoint join (ws : list str) : str :=
  match ws with
  | [] => []
  | w :: ws' =>
      match ws' with
      | [] => w
      | _ :: _ => w ++ sep :: join ws'
      end
  end.

(** The shape of a normalized slug, as [slug_shape]. *)
Fixpoint shape (after_class : bool) (s : str) : bool :=
  match s with
  | [] => after_class
  | c :: s' =>
      if in_class c then shape true s'
      else (c =? sep)%N && after_class && shape false s'
  end.

Section Names.

Context {World : Type} {clk : Clock World}.

(** [str.lower] *)
Variable lower : str -> str.

(** [slug] of [Migrator.generate] *)
Definition slug (name : str) : str := strip (re_sub (lower name)).

(** [Migrator.generate] *)
Definition generate (name : str) : M str :=
  bind (read datetime_now) (fun now =>
    let timestamp := of_string (strftime now) in
    ret (timestamp ++ [sep] ++ slug name)).

End Names.

(** The lowering of [Py.lower], which is that of [str.lower] on code
    points below 256; other code points are left. *)
Definition lower_below_256 (s : str) : str :=
  (λ c, if (c <? 256)%N then N_of_ascii (Py.lower_char (ascii_of_N c)) else c) <$> s.

End Unicode.

(** ** A concrete backend for the examples

    The world is the journal of the SQL statements the backend has
    executed; a statement starting with [!] makes the backend raise.  The
    clock advances with the journal. *)

Module Journal.

Definition World : Type := list string.

#[global] Instance clock : Clock World := {|
  time_time := fun w => inject_Z (Z.of_nat (length w));
  datetime_now := fun w =>
    {| year := 2024; month := 1; day := 2; hour := 3; minute := 4;
       second := Z.of_nat (length w); microsecond := 0 |}
|}.

Definition backend (sql : string) : Proc World :=
  fun w =>
    match sql with
    | String "!" _ => (Raised ("cannot execute " +:+ sql), w)
    | _ => (Returned tt, w ++ [sql])
    end.

(** A hook callback that always raises. *)
Definition raising_hook : Handler World :=
  fun data w => (Raised "hook failed", w ++ ["hook"]).

(** The state a statement leaves, whatever it returns. *)
Definition exec {A} (c : M A) (st : State World) : State World := snd (c st).


(** The registry of a new migrator with [raising_hook], and with
    [exiting_hook], registered for [before_migrate]. *)
Definition raising_registry : Signals.Registry World :=
  Signals.add_hook "before_migrate" (Signals.lift_hook raising_hook)
    Signals.new_registry.


Definition fresh : State World :=
  {| world := [];
     self := new_Migrator None (Some (new_MigrationRunner (Some backend))) |}.

(** The catalog of [example_usage], built as it is there. *)
Definition m1 : Migration World :=
  build (down "DROP TABLE users" (up "CREATE TABLE users" (create "001" "create_users_table"))).
Definition m2 : Migration World :=
  build (down "ALTER TABLE users DROP COLUMN age"
           (up "ALTER TABLE users ADD COLUMN age INTEGER" (create "002" "add_age_to_users"))).
Definition m3 : Migration World :=
  build (down "DROP TABLE posts" (up "CREATE TABLE posts" (create "003" "create_posts_table"))).

Definition registered (ms : list (Migration World)) : State World :=
  fold_left (fun st m => exec (register m) st) ms fresh.

Definition usage : State World := registered [m3; m1; m2].

(** The same catalog with a forward body of 002 that raises. *)
Definition m2_bad_up : Migration World :=
  build (down "ALTER TABLE users DROP COLUMN age" (up "!ALTER" (create "002" "add_age_to_users"))).

(** The same catalog with a backward body of 003 that raises. *)
Definition m3_bad_down : Migration World :=
  build (down "!DROP" (up "CREATE TABLE posts" (create "003" "create_posts_table"))).

(** The catalog of [example_usage] after [migrate()]. *)
Definition migrated : State World := exec (migrate None) usage.

(** The catalog with a failing backward body of 003, after [migrate()]. *)
Definition migrated_bad_down : State World :=
  exec (migrate None) (registered [m1; m2; m3_bad_down]).

(** A migrator started on a store that lists 001 and 009 as applied, with
    a catalog that has 001 only: 009 is applied and unknown. *)
Definition orphaned : State World :=
  exec (register m1)
    {| world := [];
       self := new_Migrator
                 (Some (ledger_run [MarkApplied "001"; MarkApplied "009"]))
                 (Some (new_MigrationRunner (Some backend))) |}.

End Journal.

(** * Properties *)

(** ** The library functions on test vectors *)

Example md5_empty : MD5.hexdigest (Py.encode "") = "d41d8cd98f00b204e9800998ecf8427e".
Proof. vm_compute. reflexivity. Qed.

Example md5_abc : MD5.hexdigest (Py.encode "abc") = "900150983cd24fb0d6963f7d28e17f72".
Proof. vm_compute. reflexivity. Qed.

Example md5_long :
  MD5.hexdigest (Py.encode "The quick brown fox jumps over the lazy dog, and then some more text to pass 64 bytes.")
  = "f1391c695a460995208533b27401e53c".
Proof. vm_compute. reflexivity. Qed.

Example md5_e_acute : MD5.hexdigest (Py.encode (String (Py.chr 233) EmptyString))
  = "66ddcd97cfdeabb2f6fb8a999b4bc76f".
Proof. vm_compute. reflexivity. Qed.

Example slug_ex : Py.strip (Py.re_sub (Py.lower "  Add Age--Column! ")) = "add_age_column".
Proof. vm_compute. reflexivity. Qed.

(** [str.lower] on Latin-1: U+00C9 has the lowercase U+00E9; the
    multiplication sign U+00D7 and the sharp s U+00DF have none. *)
Example lower_latin1 :
  Py.lower (String (Py.chr 201) "COLE") = String (Py.chr 233) "cole" ∧
  Py.lower_char (Py.chr 215) = Py.chr 215 ∧
  Py.lower_char (Py.chr 223) = Py.chr 223.
Proof. vm_compute. done. Qed.

(** ** The store (Ledger) *)

Section Ledger.

Context {World : Type}.
Implicit Types (s : MigrationStore World) (v : string).

Lemma list_remove_subseteq v (l : list string) x :
  x ∈ list_remove v l → x ∈ l.
Proof.
  induction l as [|y l IH]; simpl; [done|].
  destruct (decide (v = y)); set_solver.
Qed.

Lemma list_remove_absent v (l : list string) : v ∉ l → list_remove v l = l.
Proof.
  induction l as [|y l IH]; simpl; [done|].
  intros Hv. destruct (decide (v = y)) as [->|]; [set_solver|].
  f_equal. apply IH. set_solver.
Qed.

Lemma list_remove_other v (l : list string) x :
  x ≠ v → x ∈ l → x ∈ list_remove v l.
Proof.
  intros Hx. induction l as [|y l IH]; simpl; [done|].
  destruct (decide (v = y)) as [->|]; set_solver.
Qed.

Lemma list_remove_NoDup v (l : list string) : NoDup l → NoDup (list_remove v l).
Proof.
  induction 1 as [|y l Hy Hl IH]; simpl; [constructor|].
  destruct (decide (v = y)); [done|].
  constructor; [|done]. intros Hin. by apply Hy, (list_remove_subseteq v).
Qed.

Lemma list_remove_NoDup_gone v (l : list string) : NoDup l → v ∉ list_remove v l.
Proof.
  induction 1 as [|y l Hy Hl IH]; simpl; [set_solver|].
  destruct (decide (v = y)) as [->|]; [done|]. set_solver.
Qed.

Lemma is_applied_true v s : is_applied v s = true ↔ v ∈ store_applied s.
Proof. unfold is_applied. apply bool_decide_eq_true. Qed.

Lemma is_applied_false v s : is_applied v s = false ↔ v ∉ store_applied s.
Proof. unfold is_applied. apply bool_decide_eq_false. Qed.

Lemma mark_applied_applied v s x :
  x ∈ store_applied (mark_applied v s) ↔ x ∈ store_applied s ∨ x = v.
Proof.
  unfold mark_applied. destruct (decide (v ∈ store_applied s)); simpl; set_solver.
Qed.

Lemma mark_applied_present v s : v ∈ store_applied s → mark_applied v s = s.
Proof. intros Hv. unfold mark_applied. by rewrite decide_True. Qed.

Lemma mark_applied_fresh v s :
  v ∉ store_applied s →
  store_applied (mark_applied v s) = store_applied s ++ [v].
Proof. intros Hv. unfold mark_applied. by rewrite decide_False. Qed.

Lemma mark_rolled_back_absent v s : v ∉ store_applied s → mark_rolled_back v s = s.
Proof. intros Hv. unfold mark_rolled_back. by rewrite decide_False. Qed.

Lemma mark_rolled_back_applied v s :
  store_applied (mark_rolled_back v s) = list_remove v (store_applied s).
Proof.
  unfold mark_rolled_back. destruct (decide (v ∈ store_applied s)); simpl; [done|].
  by rewrite list_remove_absent.
Qed.

Lemma mark_applied_store_migrations v s :
  store_migrations (mark_applied v s) = store_migrations s.
Proof. unfold mark_applied. by destruct (decide _). Qed.

Lemma mark_rolled_back_store_migrations v s :
  store_migrations (mark_rolled_back v s) = store_migrations s.
Proof. unfold mark_rolled_back. by destruct (decide _). Qed.

Lemma mark_applied_NoDup v s :
  NoDup (store_applied s) → NoDup (store_applied (mark_applied v s)).
Proof.
  intros Hs. unfold mark_applied. destruct (decide (v ∈ store_applied s)); simpl; [done|].
  apply NoDup_app. split_and!; [done| |apply NoDup_singleton]. set_solver.
Qed.

Lemma ledger_run_snoc ops op :
  ledger_run (World:=World) (ops ++ [op]) = ledger_step (ledger_run ops) op.
Proof. unfold ledger_run. by rewrite fold_left_app. Qed.

(** A store reached through its own methods never lists a version twice. *)
Lemma ledger_run_NoDup ops : NoDup (store_applied (ledger_run (World:=World) ops)).
Proof.
  induction ops as [|op ops IH] using rev_ind; [constructor|].
  rewrite ledger_run_snoc. destruct op as [v|v]; simpl.
  - by apply mark_applied_NoDup.
  - rewrite mark_rolled_back_applied. by apply list_remove_NoDup.
Qed.

Lemma ledger_run_never_marked v ops :
  forallb (fun op => negb (marks_applied v op)) ops = true →
  v ∉ store_applied (ledger_run (World:=World) ops).
Proof.
  induction ops as [|op ops IH] using rev_ind; [set_solver|].
  rewrite forallb_app, andb_true_iff. simpl. rewrite andb_true_r.
  intros [Hops Hop]. rewrite ledger_run_snoc. destruct op as [v'|v']; simpl in *.
  - rewrite mark_applied_applied. apply negb_true_iff, bool_decide_eq_false in Hop.
    intros [?|?]; [by apply IH | congruence].
  - rewrite mark_rolled_back_applied. intros Hin.
    by apply IH, (list_remove_subseteq v').
Qed.

(** C6.  On a store on which [mark_applied v] was never called (a fresh
    store, or any history of calls that does not mark [v]),
    [is_applied v] is false; right after [mark_applied v] it is true,
    whatever the store was.  [mark_applied v] twice leaves the store
    calling it once leaves, and on a store that already lists [v] it
    changes nothing; [mark_rolled_back v] on a store that does not list
    [v] changes nothing.  Both calls are total functions: no error. *)
Theorem ledger_mark_applied_contract v :
  (∀ ops, forallb (fun op => negb (marks_applied v op)) ops = true →
          is_applied v (ledger_run (World:=World) ops) = false) ∧
  (∀ s, is_applied v (mark_applied v s) = true) ∧
  (∀ s, mark_applied v (mark_applied v s) = mark_applied v s) ∧
  (∀ s, is_applied v s = true → mark_applied v s = s) ∧
  (∀ s, is_applied v s = false → mark_rolled_back v s = s).
Proof.
  split_and!.
  - intros ops Hops. apply is_applied_false. by apply ledger_run_never_marked.
  - intros s. apply is_applied_true, mark_applied_applied. by right.
  - intros s. apply mark_applied_present, mark_applied_applied. by right.
  - intros s Hs. by apply mark_applied_present, is_applied_true.
  - intros s Hs. by apply mark_rolled_back_absent, is_applied_false.
Qed.

End Ledger.

(** C6 at a concrete history: 001 applied, 002 rolled back without ever
    having been applied. *)
Lemma ledger_mark_applied_contract_witness :
  let s := ledger_run (World:=Journal.World)
             [MarkApplied "001"; MarkRolledBack "002"] in
  is_applied "002" s = false ∧
  is_applied "002" (mark_applied "002" s) = true ∧
  mark_applied "001" (mark_applied "001" s) = mark_applied "001" s ∧
  mark_applied "001" s = s ∧
  mark_rolled_back "002" s = s.
Proof.
  intros s.
  destruct (ledger_mark_applied_contract (World:=Journal.World) "002")
    as (Hbefore & Hafter & _ & _ & Hback).
  destruct (ledger_mark_applied_contract (World:=Journal.World) "001")
    as (_ & _ & Hidem & Hpresent & _).
  split_and!.
  - apply (Hbefore [MarkApplied "001"; MarkRolledBack "002"]). reflexivity.
  - apply Hafter.
  - apply Hidem.
  - apply Hpresent. reflexivity.
  - apply Hback. reflexivity.
Defined.

(** ** The checksum of a Migration *)

Section Checksum.

Context {World : Type}.

Lemma hex_length bs : String.length (MD5.hex bs) = (2 * length bs)%nat.
Proof. induction bs as [|b bs IH]; simpl; [done|]. rewrite IH. lia. Qed.

Lemma digest_length msg : length (MD5.digest msg) = 16%nat.
Proof.
  unfold MD5.digest.
  destruct (fold_left MD5.process_block _ _) as [[[a b] c] d].
  reflexivity.
Qed.

Lemma hexdigest_length msg : String.length (MD5.hexdigest msg) = 32%nat.
Proof. unfold MD5.hexdigest. by rewrite hex_length, digest_length. Qed.

Lemma take_length n s : String.length (Py.take n s) = Nat.min n (String.length s).
Proof.
  revert s. induction n as [|n IH]; intros [|c s]; simpl; try done.
  by rewrite IH.
Qed.

Lemma new_Migration_checksum v n u d (uf df : option (Proc World)) at_ st :
  checksum (new_Migration v n u d uf df "" at_ st)
  = Py.take 8 (MD5.hexdigest (Py.encode (u +:+ d))).
Proof. reflexivity. Qed.

(** C7, amended.  The checksum of a Migration constructed directly (by
    [Migration(...)], not through the Builder) without a checksum is the
    first 8 hexadecimal digits of the MD5 of the forward payload
    followed by the backward payload, as they are at creation: it has 8
    characters, and two such constructions whose concatenated payload
    content is the same have the same checksum. *)
Theorem checksum_of_concatenated_payloads
    v1 n1 u1 d1 (uf1 df1 : option (Proc World)) at1 st1
    v2 n2 u2 d2 (uf2 df2 : option (Proc World)) at2 st2 :
  let m1 := new_Migration v1 n1 u1 d1 uf1 df1 "" at1 st1 in
  let m2 := new_Migration v2 n2 u2 d2 uf2 df2 "" at2 st2 in
  checksum m1 = Py.take 8 (MD5.hexdigest (Py.encode (u1 +:+ d1))) ∧
  String.length (checksum m1) = 8%nat ∧
  (u1 +:+ d1 = u2 +:+ d2 → checksum m1 = checksum m2).
Proof.
  intros m1 m2. subst m1 m2. rewrite !new_Migration_checksum. split_and!.
  - reflexivity.
  - rewrite take_length, hexdigest_length. reflexivity.
  - by intros ->.
Qed.

End Checksum.

(** C7 at two direct constructions that split the same content
    differently. *)
Lemma checksum_of_concatenated_payloads_witness :
  let m1 := new_Migration (World:=Journal.World)
              "001" "users" "CREATE TABLE users;" "DROP TABLE users;"
              None None "" None PENDING in
  let m2 := new_Migration (World:=Journal.World)
              "002" "users again" "CREATE TABLE users;DROP" " TABLE users;"
              None None "" None APPLIED in
  String.length (checksum m1) = 8%nat ∧ checksum m1 = checksum m2.
Proof.
  intros m1 m2.
  destruct (checksum_of_concatenated_payloads (World:=Journal.World)
              "001" "users" "CREATE TABLE users;" "DROP TABLE users;"
              None None None PENDING
              "002" "users again" "CREATE TABLE users;DROP" " TABLE users;"
              None None None APPLIED) as (_ & Hlen & Heq).
  split; [exact Hlen | apply Heq; reflexivity].
Defined.

(** C7 as stated fails: two constructions that differ in both payloads
    have the same checksum, because only the concatenation is hashed. *)
Lemma checksum_payloads_differ_counterexample :
  let m1 := new_Migration (World:=Journal.World)
              "001" "n" "a" "b" None None "" None PENDING in
  let m2 := new_Migration (World:=Journal.World)
              "001" "n" "ab" "" None None "" None PENDING in
  up_sql m1 ≠ up_sql m2 ∧ down_sql m1 ≠ down_sql m2 ∧
  checksum m1 = "187ef443" ∧ checksum m2 = "187ef443".
Proof. vm_compute. split_and!; (discriminate || reflexivity). Qed.

(** The Builder computes the checksum when it creates the Migration, with
    both payloads still empty, and setting a payload does not recompute
    it: a built Migration carries the checksum of the empty content, a
    directly constructed one that of its payloads. *)
Example builder_checksum :
  checksum (build (up "a" (create (World:=Journal.World) "001" "n"))) = "d41d8cd9" ∧
  checksum (build (down "b" (up "ab" (create (World:=Journal.World) "002" "n")))) = "d41d8cd9" ∧
  checksum (new_Migration (World:=Journal.World) "001" "n" "a" "" None None "" None PENDING)
  = "0cc175b9".
Proof. vm_compute. done. Qed.

(** ** The slug of [generate] *)

Section Slug.

Lemma in_class_lower_char c : Py.in_class (Py.lower_char c) = is_alnum c.
Proof. by destruct c as [[] [] [] [] [] [] [] []]. Qed.

Lemma in_class_not_sep c : Py.in_class c = true → c ≠ "_"%char.
Proof. by intros Hc ->. Qed.

Lemma lower_char_not_sep c : is_alnum c = true → Py.lower_char c ≠ "_"%char.
Proof. rewrite <-in_class_lower_char. apply in_class_not_sep. Qed.

Lemma rstrip_cons c s :
  c ≠ "_"%char → Py.rstrip (String c s) = String c (Py.rstrip s).
Proof.
  intros Hc. simpl. destruct (Py.rstrip s); [|done].
  by apply Ascii.eqb_neq in Hc as ->.
Qed.

Lemma rstrip_sep s :
  Py.rstrip (String "_" s)
  = match Py.rstrip s with EmptyString => EmptyString | r => String "_" r end.
Proof. reflexivity. Qed.

(** Inside a match the substitution never starts with a separator. *)
Lemma re_sub_in_match_head s :
  Py.lstrip (Py.re_sub_from true s) = Py.re_sub_from true s.
Proof.
  induction s as [|c s IH]; simpl; [done|].
  destruct (Py.in_class c) eqn:Hc; [|done].
  apply in_class_not_sep in Hc.
  by destruct c as [[] [] [] [] [] [] [] []].
Qed.

Lemma lstrip_re_sub s : Py.lstrip (Py.re_sub s) = Py.re_sub_from true s.
Proof.
  unfold Py.re_sub. destruct s as [|c s]; simpl; [done|].
  destruct (Py.in_class c) eqn:Hc.
  - apply in_class_not_sep in Hc. by destruct c as [[] [] [] [] [] [] [] []].
  - apply re_sub_in_match_head.
Qed.

Lemma starts_alnum_words s : starts_alnum s = true → alnum_words s ≠ [].
Proof.
  destruct s as [|c s]; simpl; [done|]. intros ->.
  destruct (starts_alnum s); [by destruct (alnum_words s)|done].
Qed.

Lemma alnum_words_nonempty s : Forall (λ w, w ≠ EmptyString) (alnum_words s).
Proof.
  induction s as [|c s IH]; simpl; [constructor|].
  destruct (is_alnum c); [|done].
  destruct (starts_alnum s).
  - destruct (alnum_words s) as [|w ws]; [by repeat constructor|].
    apply Forall_cons in IH as [_ IH]. by constructor.
  - by constructor.
Qed.

Lemma lower_nonempty s : s ≠ EmptyString → Py.lower s ≠ EmptyString.
Proof. by destruct s. Qed.

Lemma concat_cons_cons sep x y l :
  String.concat sep (x :: y :: l) = x +:+ sep +:+ String.concat sep (y :: l).
Proof. reflexivity. Qed.

Lemma concat_nonempty sep (l : list string) :
  l ≠ [] → Forall (λ w, w ≠ EmptyString) l → String.concat sep l ≠ EmptyString.
Proof.
  destruct l as [|x l]; [done|]. intros _ Hl.
  apply Forall_cons in Hl as [Hx _].
  destruct l; simpl; by destruct x.
Qed.

Lemma slug_spec_empty_iff s : slug_spec s = EmptyString ↔ alnum_words s = [].
Proof.
  unfold slug_spec. split; [|by intros ->].
  intros Hs. destruct (alnum_words s) as [|w ws] eqn:Hw; [done|].
  exfalso. revert Hs. apply concat_nonempty; [done|].
  rewrite <-Hw. apply List.Forall_map.
  eapply Forall_impl; [apply alnum_words_nonempty|].
  intros w' Hw'. by apply lower_nonempty.
Qed.

(** What is left of the substitution once the trailing separator is
    stripped, from inside a match and from outside one. *)
Lemma rstrip_re_sub s :
  Py.rstrip (Py.re_sub_from true (Py.lower s)) = slug_spec s ∧
  Py.rstrip (Py.re_sub_from false (Py.lower s))
  = match alnum_words s with
    | [] => EmptyString
    | _ => if starts_alnum s then slug_spec s else String "_" (slug_spec s)
    end.
Proof.
  induction s as [|c s [IHt IHf]]; [done|].
  cbn [Py.lower Py.re_sub_from starts_alnum alnum_words].
  rewrite in_class_lower_char.
  destruct (is_alnum c) eqn:Hc.
  - assert (Py.rstrip (String (Py.lower_char c) (Py.re_sub_from false (Py.lower s)))
            = slug_spec (String c s)) as Hgoal.
    { rewrite rstrip_cons by by apply lower_char_not_sep.
      rewrite IHf. unfold slug_spec. cbn [alnum_words]. rewrite Hc.
      destruct (starts_alnum s) eqn:Hs.
      - destruct (alnum_words s) as [|w ws] eqn:Hw.
        + by apply starts_alnum_words in Hs.
        + destruct ws; reflexivity.
      - destruct (alnum_words s) as [|w ws] eqn:Hw; reflexivity. }
    split; [done|]. rewrite Hgoal.
    destruct (starts_alnum s); [by destruct (alnum_words s)|done].
  - split.
    + rewrite IHt. unfold slug_spec. cbn [alnum_words]. by rewrite Hc.
    + rewrite rstrip_sep, IHt.
      assert (slug_spec (String c s) = slug_spec s) as ->.
      { unfold slug_spec. cbn [alnum_words]. by rewrite Hc. }
      destruct (alnum_words s) as [|w ws] eqn:Hw.
      * by rewrite (proj2 (slug_spec_empty_iff s) Hw).
      * destruct (slug_spec s) eqn:Hss; [|done].
        apply slug_spec_empty_iff in Hss. congruence.
Qed.

(** The slug of the code is the slug of the specification. *)
Lemma slug_refines name : slug name = slug_spec name.
Proof.
  unfold slug, Py.strip. rewrite lstrip_re_sub. apply rstrip_re_sub.
Qed.

Lemma alnum_words_alnum s :
  Forall (λ w, w ≠ EmptyString ∧ all_alnum w = true) (alnum_words s).
Proof.
  induction s as [|c s IH]; simpl; [constructor|].
  destruct (is_alnum c) eqn:Hc; [|done].
  destruct (starts_alnum s).
  - destruct (alnum_words s) as [|w ws].
    + repeat constructor; [done|]. simpl. by rewrite Hc.
    + apply Forall_cons in IH as [[_ Hw] IH]. constructor; [|done].
      split; [done|]. simpl. by rewrite Hc, Hw.
  - constructor; [|done]. split; [done|]. simpl. by rewrite Hc.
Qed.

Lemma append_cons c s t : String c s +:+ t = String c (s +:+ t).
Proof. reflexivity. Qed.

Lemma append_empty_r s : s +:+ EmptyString = s.
Proof. induction s as [|c s IH]; [done|]. by rewrite append_cons, IH. Qed.

Lemma slug_shape_word w rest b :
  w ≠ EmptyString → all_alnum w = true →
  slug_shape b (Py.lower w +:+ rest) = slug_shape true rest.
Proof.
  revert b. induction w as [|c w IH]; intros b Hne Hw; [done|].
  simpl in *. apply andb_true_iff in Hw as [Hc Hw].
  rewrite in_class_lower_char, Hc.
  destruct w as [|c' w']; [done|]. by apply IH.
Qed.

Lemma slug_shape_concat b (ws : list string) :
  ws ≠ [] → Forall (λ w, w ≠ EmptyString ∧ all_alnum w = true) ws →
  slug_shape b (String.concat "_" (List.map Py.lower ws)) = true.
Proof.
  intros Hne Hws. revert b. induction Hws as [|w ws [Hw1 Hw2] Hws IH]; [done|].
  intros b. destruct ws as [|w' ws].
  - simpl. rewrite <-(append_empty_r (Py.lower w)). by rewrite slug_shape_word.
  - cbn [List.map]. rewrite concat_cons_cons, slug_shape_word by done.
    cbn [String.append slug_shape]. simpl Py.in_class. cbv iota.
    simpl Ascii.eqb. apply IH. done.
Qed.

Lemma slug_well_formed name : well_formed_slug (slug name) = true.
Proof.
  rewrite slug_refines. unfold well_formed_slug.
  destruct (slug_spec name) eqn:Hs; [done|]. rewrite <-Hs.
  apply slug_shape_concat; [|apply alnum_words_alnum].
  intros Hw. apply slug_spec_empty_iff in Hw. congruence.
Qed.

Lemma slug_shape_trailing_sep b t : slug_shape b (t +:+ "_") = false.
Proof.
  revert b. induction t as [|c t IH]; intros b; simpl.
  - by destruct b.
  - destruct (Py.in_class c); [done|]. by rewrite IH, andb_false_r.
Qed.

Lemma slug_shape_double_sep b a t : slug_shape b (a +:+ "__" +:+ t) = false.
Proof.
  revert b. induction a as [|c a IH]; intros b; simpl.
  - by destruct b.
  - destruct (Py.in_class c); [done|]. by rewrite IH, andb_false_r.
Qed.

Lemma slug_shape_chars b s :
  slug_shape b s = true →
  Forall (λ c, Py.in_class c = true ∨ c = "_"%char) (list_ascii_of_string s).
Proof.
  revert b. induction s as [|c s IH]; intros b; simpl; [constructor|].
  destruct (Py.in_class c) eqn:Hc.
  - intros Hs. constructor; [by left | by eapply IH].
  - rewrite !andb_true_iff. intros [[Hsep _] Hs].
    constructor; [right; by apply Ascii.eqb_eq | by eapply IH].
Qed.

(** What [well_formed_slug] says, in words of strings. *)
Lemma well_formed_slug_spec s :
  well_formed_slug s = true →
  Forall (λ c, Py.in_class c = true ∨ c = "_"%char) (list_ascii_of_string s) ∧
  (∀ t, s ≠ String "_" t) ∧
  (∀ t, s ≠ t +:+ "_") ∧
  (∀ a t, s ≠ a +:+ "__" +:+ t).
Proof.
  intros Hs. split_and!.
  - destruct s; [constructor|]. by eapply slug_shape_chars.
  - intros t ->. simpl in Hs. discriminate.
  - intros t ->.
    assert (slug_shape false (t +:+ "_") = true) as Hs'
      by (destruct (t +:+ "_") eqn:Ht; [by destruct t | exact Hs]).
    by rewrite slug_shape_trailing_sep in Hs'.
  - intros a t ->.
    assert (slug_shape false (a +:+ "__" +:+ t) = true) as Hs'
      by (destruct (a +:+ "__" +:+ t) eqn:Ht; [by destruct a | exact Hs]).
    by rewrite slug_shape_double_sep in Hs'.
Qed.

End Slug.

(** ** The timestamp of [generate] *)

Section Timestamp.

Lemma append_length s t :
  String.length (s +:+ t) = (String.length s + String.length t)%nat.
Proof. induction s as [|c s IH]; [done|]. rewrite append_cons. simpl. by rewrite IH. Qed.

Lemma append_assoc s t u : (s +:+ t) +:+ u = s +:+ (t +:+ u).
Proof. induction s as [|c s IH]; [done|]. rewrite !append_cons. by rewrite IH. Qed.

Lemma list_ascii_of_string_app s t :
  list_ascii_of_string (s +:+ t) = list_ascii_of_string s ++ list_ascii_of_string t.
Proof. induction s as [|c s IH]; [done|]. rewrite append_cons. simpl. by rewrite IH. Qed.

Lemma digits_length w n : String.length (digits w n) = w.
Proof.
  revert n. induction w as [|w IH]; intros n; [done|].
  cbn [digits]. rewrite append_length, IH. simpl. lia.
Qed.

Lemma digit_char n : 0 <= n < 10 → Py.is_digit (Py.chr (48 + n)) = true.
Proof.
  intros Hn.
  assert (n = 0 ∨ n = 1 ∨ n = 2 ∨ n = 3 ∨ n = 4 ∨ n = 5 ∨ n = 6 ∨ n = 7 ∨ n = 8 ∨ n = 9)
    as Hcases by lia.
  by repeat destruct Hcases as [->|Hcases]; [..|subst n].
Qed.

Lemma digits_are_digits w n :
  Forall (λ c, Py.is_digit c = true) (list_ascii_of_string (digits w n)).
Proof.
  revert n. induction w as [|w IH]; intros n; [constructor|].
  cbn [digits]. rewrite list_ascii_of_string_app. apply Forall_app. split; [apply IH|].
  repeat constructor. apply digit_char. by apply Z.mod_pos_bound.
Qed.

Lemma strftime_length d : String.length (strftime d) = 14%nat.
Proof. unfold strftime. by rewrite !append_length, !digits_length. Qed.

Lemma strftime_digits d :
  Forall (λ c, Py.is_digit c = true) (list_ascii_of_string (strftime d)).
Proof.
  unfold strftime. rewrite !list_ascii_of_string_app, !Forall_app.
  split_and!; apply digits_are_digits.
Qed.

(** Strings of one length compare as their first difference says,
    whatever follows them. *)
Lemma compare_app_same_length x y s t :
  String.length x = String.length y →
  String.compare (x +:+ s) (y +:+ t)
  = match String.compare x y with
    | Eq => String.compare s t
    | c => c
    end.
Proof.
  revert y. induction x as [|a x IH]; intros [|b y] Hlen; try done.
  rewrite !append_cons. simpl. destruct (Ascii.compare a b); [|done..].
  apply IH. simpl in Hlen. lia.
Qed.

Lemma digit_compare m n :
  0 <= m < 10 → 0 <= n < 10 →
  Ascii.compare (Py.chr (48 + m)) (Py.chr (48 + n)) = (m ?= n).
Proof.
  intros Hm Hn. unfold Ascii.compare, Py.chr.
  rewrite !N_ascii_embedding by lia.
  rewrite Z2N.inj_compare by lia. apply Z.add_compare_mono_l.
Qed.

Lemma compare_by_last_digit a b :
  (a ?= b) = match a / 10 ?= b / 10 with
             | Eq => a mod 10 ?= b mod 10
             | c => c
             end.
Proof.
  destruct (Z.compare_spec (a / 10) (b / 10)) as [Hq|Hq|Hq].
  - destruct (Z.compare_spec (a mod 10) (b mod 10)) as [Hr|Hr|Hr].
    + apply Z.compare_eq_iff. Z.div_mod_to_equations. lia.
    + apply Z.compare_lt_iff. Z.div_mod_to_equations. lia.
    + apply Z.compare_gt_iff. Z.div_mod_to_equations. lia.
  - apply Z.compare_lt_iff. Z.div_mod_to_equations. lia.
  - apply Z.compare_gt_iff. Z.div_mod_to_equations. lia.
Qed.

(** Zero-padded numbers of one width compare as strings the way they
    compare as numbers. *)
Lemma digits_compare w a b :
  String.compare (digits w a) (digits w b) = (a mod 10 ^ Z.of_nat w ?= b mod 10 ^ Z.of_nat w).
Proof.
  revert a b. induction w as [|w IH]; intros a b.
  - simpl. by rewrite !Z.mod_1_r.
  - cbn [digits]. rewrite compare_app_same_length by by rewrite !digits_length.
    rewrite IH. simpl String.compare.
    rewrite digit_compare by by apply Z.mod_pos_bound.
    rewrite (compare_by_last_digit (a mod 10 ^ Z.of_nat (S w))).
    assert (∀ x, (x mod 10 ^ Z.of_nat (S w)) / 10 = (x / 10) mod 10 ^ Z.of_nat w ∧
                 (x mod 10 ^ Z.of_nat (S w)) mod 10 = x mod 10) as Hsplit.
    { intros x. rewrite Nat2Z.inj_succ, Z.pow_succ_r by lia.
      assert (0 < 10 ^ Z.of_nat w) by (apply Z.pow_pos_nonneg; lia).
      split.
      - rewrite Z.rem_mul_r by lia.
        rewrite Z.mul_comm, Z.div_add by lia.
        rewrite (Z.div_small (x mod 10)) by by apply Z.mod_pos_bound. lia.
      - rewrite Z.rem_mul_r by lia.
        rewrite Z.mul_comm, Z.mod_add by lia. apply Z.mod_mod. lia. }
    destruct (Hsplit a) as [-> ->]. destruct (Hsplit b) as [-> ->].
    by destruct (_ ?= _) eqn:Hc; [destruct (a mod 10 ?= b mod 10)|..].
Qed.

Lemma digits_app w1 w2 a b :
  0 <= b < 10 ^ Z.of_nat w2 →
  digits (w1 + w2) (a * 10 ^ Z.of_nat w2 + b) = digits w1 a +:+ digits w2 b.
Proof.
  revert b. induction w2 as [|w2 IH]; intros b Hb.
  - simpl in Hb. assert (b = 0) as -> by lia.
    rewrite Nat.add_0_r. simpl. rewrite append_empty_r. f_equal. lia.
  - rewrite Nat.add_succ_r. cbn [digits]. rewrite <-append_assoc. f_equal.
    + rewrite Nat2Z.inj_succ, Z.pow_succ_r in * by lia.
      rewrite <-IH by (Z.div_mod_to_equations; lia). f_equal.
      Z.div_mod_to_equations. lia.
    + do 3 f_equal. rewrite Nat2Z.inj_succ, Z.pow_succ_r by lia.
      Z.div_mod_to_equations. lia.
Qed.

(** The timestamp is the 14 digits of its fields read as one number. *)
Lemma strftime_number d :
  valid_datetime d → strftime d = digits 14 (stamp_number d).
Proof.
  intros (Hy & Hmo & Hd & Hh & Hmi & Hs). unfold strftime, stamp_number.
  change 14%nat with (4 + 2 + 2 + 2 + 2 + 2)%nat.
  change 100 with (10 ^ Z.of_nat 2).
  rewrite !digits_app by (simpl; lia).
  by rewrite !append_assoc.
Qed.

(** The timestamp is sortable: an earlier time gives a smaller string. *)
Lemma strftime_sortable d1 d2 :
  valid_datetime d1 → valid_datetime d2 → earlier d1 d2 →
  String.compare (strftime d1) (strftime d2) = Lt.
Proof.
  intros Hv1 Hv2 He. rewrite !strftime_number, digits_compare by done.
  apply Z.compare_lt_iff.
  destruct Hv1 as (? & ? & ? & ? & ? & ?), Hv2 as (? & ? & ? & ? & ? & ?).
  rewrite !Z.mod_small; unfold stamp_number, earlier in *; simpl; lia.
Qed.

End Timestamp.

(** ** The runner and the hook dispatch never raise *)

Section Runner.

Context {World : Type} {clk : Clock World}.
Implicit Types (st : State World) (m : Migration World) (w : World).


Lemma set_world_id st : set_world (world st) st = st.
Proof. by destruct st. Qed.

Lemma run_up_returns rn m st :
  ∃ r w, run_up rn m st = (Returned r, set_world w st) ∧
         res_version r = version m ∧ res_name r = name m ∧ direction r = "up".
Proof.
  unfold run_up, bind, try_except, read, call, ret.
  destruct (up_fn m) as [fn|].
  - destruct (fn (world st)) as [[[]|e] w]; simpl;
      eexists _, w; by split_and!.
  - destruct (Py.truthy (up_sql m)).
    + destruct (executor rn (up_sql m) (world st)) as [[[]|e] w]; simpl;
        eexists _, w; by split_and!.
    + simpl. eexists _, (world st). rewrite set_world_id. by split_and!.
Qed.

Lemma run_down_returns rn m st :
  ∃ r w, run_down rn m st = (Returned r, set_world w st) ∧
         res_version r = version m ∧ res_name r = name m ∧ direction r = "down".
Proof.
  unfold run_down, bind, try_except, read, call, ret.
  destruct (down_fn m) as [fn|].
  - destruct (fn (world st)) as [[[]|e] w]; simpl;
      eexists _, w; by split_and!.
  - destruct (Py.truthy (down_sql m)).
    + destruct (executor rn (down_sql m) (world st)) as [[[]|e] w]; simpl;
        eexists _, w; by split_and!.
    + simpl. eexists _, (world st). rewrite set_world_id. by split_and!.
Qed.

(** Dispatch returns normally whatever the callbacks do, and touches
    the world only. *)
Lemma emit_handlers_returns hs data st :
  ∃ w, emit_handlers hs data st = (Returned tt, set_world w st).
Proof.
  revert st. induction hs as [|h hs IH]; intros st; simpl.
  - exists (world st). by rewrite set_world_id.
  - unfold bind, try_except, call, ret.
    destruct (h data (world st)) as [[[]|e] w]; simpl;
      destruct (IH (set_world w st)) as [w' ->]; by exists w'.
Qed.

Lemma emit_returns event data st :
  ∃ w, _emit event data st = (Returned tt, set_world w st).
Proof. unfold _emit, bind, get_self. apply emit_handlers_returns. Qed.

End Runner.

(** ** The loop of [migrate] *)

Section Migrate.

Context {World : Type} {clk : Clock World}.
Implicit Types (st : State World) (m : Migration World) (w : World).
Implicit Types (rs acc : list MigrationResult) (pend : list string).

Lemma migrate_loop_past target k pend acc st m :
  migrations (self st) !! k = Some m →
  past_target target m = true →
  migrate_loop target (k :: pend) acc st = (Returned acc, st).
Proof.
  intros Hk Hpast. cbn [migrate_loop].
  unfold bind at 1. unfold deref. unfold bind at 1. unfold get_self at 1.
  rewrite Hk. unfold ret at 1. by rewrite Hpast.
Qed.

(** One iteration that executes the Migration filed under [k]. *)
Lemma migrate_loop_step target k pend acc st m :
  migrations (self st) !! k = Some m →
  past_target target m = false →
  ∃ r w,
    res_version r = version m ∧ direction r = "up" ∧
    migrate_loop target (k :: pend) acc st
    = if success r
      then migrate_loop target pend (acc ++ [r])
             {| world := w; self := after_up_ok k m w (self st) |}
      else (Returned (acc ++ [r]),
            {| world := w; self := after_failed k (self st) |}).
Proof.
  intros Hk Hpast.
  destruct (run_up_returns (runner (self st)) m st) as (r & w & Hrun & Hv & _ & Hd).
  exists r, w. split_and!; [done..|].
  cbn [migrate_loop].
  unfold bind at 1. unfold deref. unfold bind at 1. unfold get_self at 1.
  rewrite Hk. unfold ret at 1. rewrite Hpast.
  unfold bind at 1. unfold get_self at 1. unfold bind at 1. rewrite Hrun.
  by destruct (success r).
Qed.

Lemma past_target_false target m t :
  past_target target m = false → target = Some t → Py.truthy t = true →
  Py.str_gt (version m) t = false.
Proof. intros Hp -> Ht. simpl in Hp. by rewrite Ht in Hp. Qed.

Lemma past_target_true target m :
  past_target target m = true →
  ∃ t, target = Some t ∧ Py.truthy t = true ∧ Py.str_gt (version m) t = true.
Proof.
  destruct target as [t|]; simpl; [|done].
  intros [??]%andb_true_iff. by exists t.
Qed.

Lemma after_up_ok_lookup k m w (mg : Migrator World) j :
  migrations (after_up_ok k m w mg) !! j
  = if decide (k = j)
    then set_applied_at (Some (datetime_now w)) <$> (set_status APPLIED <$> migrations mg !! k)
    else migrations mg !! j.
Proof.
  unfold after_up_ok. simpl. destruct (decide (k = j)) as [->|].
  - by rewrite !lookup_alter_eq.
  - by rewrite !lookup_alter_ne.
Qed.

Lemma after_failed_lookup k (mg : Migrator World) j :
  migrations (after_failed k mg) !! j
  = if decide (k = j) then set_status FAILED <$> migrations mg !! k
    else migrations mg !! j.
Proof. unfold after_failed. simpl. by rewrite lookup_alter. Qed.

Lemma after_up_ok_wf k m w (mg : Migrator World) :
  catalog_wf mg → catalog_wf (after_up_ok k m w mg).
Proof.
  intros Hwf j m'. rewrite after_up_ok_lookup.
  destruct (decide (k = j)) as [->|]; [|apply Hwf].
  destruct (migrations mg !! j) as [m0|] eqn:Hj; [|done].
  intros [= <-]. simpl. by apply Hwf.
Qed.

Lemma after_failed_wf k (mg : Migrator World) :
  catalog_wf mg → catalog_wf (after_failed k mg).
Proof.
  intros Hwf j m'. rewrite after_failed_lookup.
  destruct (decide (k = j)) as [->|]; [|apply Hwf].
  destruct (migrations mg !! j) as [m0|] eqn:Hj; [|done].
  intros [= <-]. simpl. by apply Hwf.
Qed.

Lemma fail_fast_cons r rs : success r = true → fail_fast rs → fail_fast (r :: rs).
Proof.
  intros Hr (oks & Hoks & [->|(rf & Hrf & ->)]); exists (r :: oks).
  - split; [by constructor | by left].
  - split; [by constructor | right; by exists rf].
Qed.

Lemma succeeded_cons r rs :
  succeeded (r :: rs)
  = if success r then res_version r :: succeeded rs else succeeded rs.
Proof.
  unfold succeeded. rewrite filter_cons.
  destruct (success r); by rewrite ?decide_True, ?decide_False by done.
Qed.

(** The loop returns, and does that, for a pending list as [pending]
    computes it: distinct keys of the catalog that the store does not
    list. *)
Lemma migrate_loop_spec target pend : ∀ acc st,
  catalog_wf (self st) → NoDup pend →
  (∀ k, k ∈ pend → is_Some (migrations (self st) !! k) ∧
                   k ∉ store_applied (store (self st))) →
  ∃ rs st' rest,
    migrate_loop target pend acc st = (Returned (acc ++ rs), st') ∧
    migrate_effect target pend (self st) rs rest (self st').
Proof.
  induction pend as [|k pend IH]; intros acc st Hwf Hnd Hpend.
  { exists [], st, []. rewrite app_nil_r. unfold migrate_effect; split_and!; try done.
    - exists []. split; [constructor | by left].
    - by left.
    - unfold succeeded. simpl. by rewrite app_nil_r.
    - intros r Hr. by apply elem_of_nil in Hr. }
  destruct (Hpend k) as [[m Hk] Hna]; [by left|].
  assert (version m = k) as Hvm by by apply Hwf.
  apply NoDup_cons in Hnd as [Hkp Hnd].
  destruct (past_target target m) eqn:Hpast.
  { exists [], st, (k :: pend).
    rewrite (migrate_loop_past _ _ _ _ _ _ Hk Hpast), app_nil_r.
    unfold migrate_effect; split_and!; try done.
    - exists []. split; [constructor | by left].
    - intros _. right. apply past_target_true in Hpast as (t & ? & ? & Hgt).
      rewrite Hvm in Hgt. by exists k, pend, t.
    - unfold succeeded. simpl. by rewrite app_nil_r.
    - intros r Hr. by apply elem_of_nil in Hr. }
  destruct (migrate_loop_step target k pend acc st m Hk Hpast)
    as (r & w & Hv & Hd & ->).
  rewrite Hvm in Hv.
  destruct (success r) eqn:Hs.
  - destruct (IH (acc ++ [r]) {| world := w; self := after_up_ok k m w (self st) |})
      as (rs & st' & rest & -> & Hsplit & Hdir & Hff & Htgt & Hstop & Happ & Hsm
          & Hrn & Hhk & Hwf' & Hframe & Hstat & Hdom).
    { by apply after_up_ok_wf. }
    { done. }
    { intros k' Hk'. destruct (Hpend k') as [Hin Hnot]; [by right|].
      assert (k ≠ k') by (intros ->; done). split.
      - cbn [self]. rewrite after_up_ok_lookup. by rewrite decide_False.
      - cbn [self after_up_ok store set_migrations set_store].
        rewrite Hvm, mark_applied_fresh by done.
        rewrite elem_of_app, list_elem_of_singleton. naive_solver. }
    exists (r :: rs), st', rest. rewrite <-app_assoc.
  unfold migrate_effect; split_and!; try done.
    + rewrite fmap_cons, Hv. simpl. by f_equal.
    + by constructor.
    + by apply fail_fast_cons.
    + intros t Ht1 Ht2. constructor; [|by apply Htgt].
      rewrite Hv, <-Hvm. by eapply past_target_false.
    + intros Hall. apply Hstop. by apply Forall_cons in Hall as [_ ?].
    + rewrite Happ, succeeded_cons, Hs, Hv.
      cbn [self after_up_ok store set_migrations set_store].
      rewrite Hvm, mark_applied_fresh by done. by rewrite <-app_assoc.
    + rewrite Hsm. apply mark_applied_store_migrations.
    + intros j Hj. rewrite fmap_cons, Hv in Hj.
      apply not_elem_of_cons in Hj as [Hjk Hj].
      rewrite Hframe by done. cbn [self]. rewrite after_up_ok_lookup.
      by rewrite decide_False.
    + intros r' [->|Hr']%elem_of_cons; [|by apply Hstat].
      rewrite Hv, Hs, Hframe.
      * cbn [self]. rewrite after_up_ok_lookup, decide_True, Hk by done.
        by eexists.
      * intros Hin. apply Hkp. rewrite Hsplit. apply elem_of_app. by left.
    + intros j. rewrite Hdom. cbn [self]. rewrite after_up_ok_lookup.
      destruct (decide (k = j)) as [<-|]; [|done].
      rewrite Hk. simpl. split; intros _; by eexists.
  - exists [r], {| world := w; self := after_failed k (self st) |}, pend.
    unfold migrate_effect; split_and!; try done.
    + simpl. by rewrite Hv.
    + by repeat constructor.
    + exists []. split; [constructor|]. right. by exists r.
    + intros t Ht1 Ht2. repeat constructor.
      rewrite Hv, <-Hvm. by eapply past_target_false.
    + intros Hall. apply Forall_cons in Hall as [Hr _]. congruence.
    + rewrite succeeded_cons, Hs. unfold succeeded. simpl. by rewrite app_nil_r.
    + by apply after_failed_wf.
    + intros j Hj. simpl in Hj. rewrite Hv in Hj.
      apply not_elem_of_cons in Hj as [Hjk _].
      cbn [self]. rewrite after_failed_lookup. by rewrite decide_False.
    + intros r' ->%list_elem_of_singleton. rewrite Hv, Hs. cbn [self].
      rewrite after_failed_lookup, decide_True, Hk by done. by eexists.
    + intros j. cbn [self]. rewrite after_failed_lookup.
      destruct (decide (k = j)) as [<-|]; [|done].
      rewrite Hk. simpl. split; intros _; by eexists.
Qed.

(** *** [pending] *)

Lemma elem_of_keys (ms : gmap string (Migration World)) k :
  k ∈ (map_to_list ms).*1 ↔ is_Some (ms !! k).
Proof.
  rewrite list_elem_of_fmap. split.
  - intros ([k' m] & -> & Hin). apply elem_of_map_to_list in Hin. by eexists.
  - intros [m Hm]. exists (k, m). split; [done|]. by apply elem_of_map_to_list.
Qed.

Lemma elem_of_sorted l k : k ∈ sorted l ↔ k ∈ l.
Proof. unfold sorted. by rewrite merge_sort_Permutation. Qed.

Lemma sorted_StronglySorted l : StronglySorted String.le (sorted l).
Proof. apply StronglySorted_merge_sort; apply _. Qed.

Lemma sorted_NoDup l : NoDup l → NoDup (sorted l).
Proof. unfold sorted. by rewrite merge_sort_Permutation. Qed.

Lemma list_difference_StronglySorted (l k : list string) :
  StronglySorted String.le l → StronglySorted String.le (list_difference l k).
Proof.
  induction 1 as [|x l Hl IH Hx]; simpl; [constructor|].
  destruct (decide_rel _ _ _); [done|].
  constructor; [done|]. by apply Forall_list_difference.
Qed.

Lemma list_difference_app_r (l k1 k2 : list string) :
  list_difference l (k1 ++ k2) = list_difference (list_difference l k1) k2.
Proof.
  induction l as [|x l IH]; simpl; [done|].
  destruct (decide_rel _ x (k1 ++ k2)) as [Hin|Hnin];
    destruct (decide_rel _ x k1) as [Hin1|Hnin1]; simpl;
    try destruct (decide_rel _ x k2) as [Hin2|Hnin2];
    try done; try (by f_equal); set_solver.
Qed.

Lemma list_difference_all (l k : list string) :
  (∀ x, x ∈ l → x ∈ k) → list_difference l k = [].
Proof.
  induction l as [|x l IH]; simpl; [done|]. intros Hl.
  destruct (decide_rel _ x k) as [Hin|Hnin].
  - apply IH. intros y Hy. apply Hl. by right.
  - exfalso. apply Hnin, Hl. by left.
Qed.

Lemma list_difference_none (l k : list string) :
  (∀ x, x ∈ l → x ∉ k) → list_difference l k = l.
Proof.
  induction l as [|x l IH]; simpl; [done|]. intros Hl.
  destruct (decide_rel _ x k) as [Hin|Hnin].
  - exfalso. by apply (Hl x); [left|].
  - f_equal. apply IH. intros y Hy. apply Hl. by right.
Qed.

Lemma list_difference_app_l (l1 l2 : list string) :
  NoDup (l1 ++ l2) → list_difference (l1 ++ l2) l1 = l2.
Proof.
  intros (_ & Hdisj & _)%NoDup_app.
  assert (∀ l k1 k2 : list string,
            list_difference (k1 ++ k2) l
            = list_difference k1 l ++ list_difference k2 l) as Happ.
  { intros l k1 k2. induction k1 as [|x k1 IH]; simpl; [done|].
    destruct (decide_rel _ x l); [done|]. simpl. by f_equal. }
  rewrite Happ, list_difference_all, list_difference_none; [done| |done].
  intros x Hx2 Hx1. by apply (Hdisj x).
Qed.

Lemma elem_of_pending_versions (mg : Migrator World) k :
  k ∈ pending_versions mg ↔
  is_Some (migrations mg !! k) ∧ k ∉ store_applied (store mg).
Proof.
  unfold pending_versions, get_applied.
  by rewrite list_elem_of_difference, elem_of_sorted, elem_of_keys.
Qed.

Lemma pending_versions_NoDup (mg : Migrator World) : NoDup (pending_versions mg).
Proof.
  unfold pending_versions. apply NoDup_list_difference, sorted_NoDup.
  apply NoDup_fst_map_to_list.
Qed.

(** [pending] is in ascending order of version. *)
Lemma pending_versions_sorted (mg : Migrator World) :
  StronglySorted String.le (pending_versions mg).
Proof.
  unfold pending_versions. apply list_difference_StronglySorted, sorted_StronglySorted.
Qed.

Lemma sorted_keys_same_dom (ms ms' : gmap string (Migration World)) :
  (∀ k, is_Some (ms' !! k) ↔ is_Some (ms !! k)) →
  sorted (map_to_list ms').*1 = sorted (map_to_list ms).*1.
Proof.
  intros Hdom. apply (StronglySorted_unique String.le); try apply sorted_StronglySorted.
  unfold sorted. rewrite !merge_sort_Permutation.
  apply NoDup_Permutation; try apply NoDup_fst_map_to_list.
  intros k. by rewrite !elem_of_keys.
Qed.

(** The pending list after versions [done] of it have been applied. *)
Lemma pending_versions_after (mg mg' : Migrator World) done rest :
  (∀ k, is_Some (migrations mg' !! k) ↔ is_Some (migrations mg !! k)) →
  store_applied (store mg') = store_applied (store mg) ++ done →
  pending_versions mg = done ++ rest →
  pending_versions mg' = rest.
Proof.
  intros Hdom Happ Hsplit. unfold pending_versions, get_applied in *.
  rewrite (sorted_keys_same_dom _ _ Hdom), Happ, list_difference_app_r, Hsplit.
  apply list_difference_app_l. rewrite <-Hsplit.
  apply (pending_versions_NoDup mg).
Qed.

(** *** [register] keeps the catalog well formed *)

Lemma new_Migrator_wf s r : catalog_wf (new_Migrator (World:=World) s r).
Proof. intros k m Hk. cbn [new_Migrator migrations] in Hk. by rewrite lookup_empty in Hk. Qed.

Lemma register_wf m st :
  catalog_wf (self st) → catalog_wf (self (snd (register m st))).
Proof.
  intros Hwf k m'. cbn [register modify_self snd self set_self set_migrations migrations].
  rewrite lookup_insert. destruct (decide (version m = k)) as [<-|].
  - by intros [= <-].
  - apply Hwf.
Qed.

(** *** [migrate] *)

(** [migrate] always returns: it is the loop over [pending], run in the
    world the [before_migrate] callbacks leave, followed by the
    [after_migrate] callbacks, which see the results and touch the world
    only. *)
Lemma migrate_runs target st :
  catalog_wf (self st) →
  ∃ w1 rs st2 w3 rest,
    _emit "before_migrate" None st = (Returned tt, set_world w1 st) ∧
    migrate_loop target (pending_versions (self st)) [] (set_world w1 st)
    = (Returned rs, st2) ∧
    _emit "after_migrate" (Some rs) st2 = (Returned tt, set_world w3 st2) ∧
    migrate target st = (Returned rs, set_world w3 st2) ∧
    migrate_effect target (pending_versions (self st)) (self st) rs rest (self st2).
Proof.
  intros Hwf.
  destruct (emit_returns "before_migrate" None st) as [w1 Hbefore].
  destruct (migrate_loop_spec target (pending_versions (self st)) [] (set_world w1 st))
    as (rs & st2 & rest & Hloop & Heff).
  { done. }
  { apply pending_versions_NoDup. }
  { intros k Hk. by apply elem_of_pending_versions in Hk. }
  rewrite app_nil_l in Hloop.
  destruct (emit_returns "after_migrate" (Some rs) st2) as [w3 Hafter].
  exists w1, rs, st2, w3, rest. split_and!; try done.
  unfold migrate. unfold bind at 1. rewrite Hbefore.
  unfold bind at 1. unfold get_self at 1. unfold bind at 1.
  cbn [self set_world]. rewrite Hloop.
  unfold bind at 1. by rewrite Hafter.
Qed.

Lemma fail_fast_failure rs :
  fail_fast rs → (∃ r, r ∈ rs ∧ success r = false) →
  ∃ oks rf, rs = oks ++ [rf] ∧ Forall (λ r, success r = true) oks ∧
            success rf = false.
Proof.
  intros (oks & Hoks & [->|(rf & Hrf & ->)]) (r & Hr & Hs).
  - exfalso. eapply Forall_forall in Hoks; [|done]. congruence.
  - by exists oks, rf.
Qed.

Lemma succeeded_all rs :
  Forall (λ r, success r = true) rs → succeeded rs = res_version <$> rs.
Proof.
  induction 1 as [|r rs Hr Hrs IH]; [done|].
  rewrite succeeded_cons, Hr, IH. done.
Qed.

Lemma succeeded_snoc_failure rs rf :
  success rf = false → succeeded (rs ++ [rf]) = succeeded rs.
Proof.
  intros Hrf. induction rs as [|r rs IH]; simpl.
  - by rewrite succeeded_cons, Hrf.
  - rewrite !succeeded_cons, IH. done.
Qed.

(** C1.  [migrate] returns.  If one of its forward executions fails, the
    returned sequence is the results of the pending migrations attempted
    up to and including the failing one, in pending order: successes,
    then the failure.  The versions that succeeded are appended to the
    store and are applied; the failing version and every pending version
    after it are the pending list afterwards; the versions after the
    failing one have no result (they were not attempted) and their
    catalog entries, status included, are unchanged.  The failing one has
    status [failed]. *)
Theorem migrate_stops_at_first_failure target st :
  catalog_wf (self st) →
  ∃ rs st',
    migrate target st = (Returned rs, st') ∧
    ((∃ r, r ∈ rs ∧ success r = false) →
     ∃ oks rf rest,
       rs = oks ++ [rf] ∧
       Forall (λ r, success r = true) oks ∧ success rf = false ∧
       pending_versions (self st)
       = (res_version <$> oks) ++ (res_version rf :: rest) ∧
       store_applied (store (self st'))
       = store_applied (store (self st)) ++ (res_version <$> oks) ∧
       (∀ v, v ∈ res_version <$> oks → is_applied v (store (self st')) = true) ∧
       pending_versions (self st') = res_version rf :: rest ∧
       (∃ mf, migrations (self st') !! res_version rf = Some mf ∧
              status mf = FAILED) ∧
       (∀ v, v ∈ rest →
             (v ∉ res_version <$> rs) ∧
             is_applied v (store (self st')) = false ∧
             migrations (self st') !! v = migrations (self st) !! v)).
Proof.
  intros Hwf.
  destruct (migrate_runs target st Hwf)
    as (w1 & rs & st2 & w3 & rest & _ & _ & _ & Hmig & Heff).
  exists rs, (set_world w3 st2). split; [done|]. intros Hfail.
  destruct Heff as (Hsplit & _ & Hff & _ & _ & Happ & _ & _ & _ & _ & Hframe
                    & Hstat & Hdom).
  destruct (fail_fast_failure rs Hff Hfail) as (oks & rf & -> & Hoks & Hrf).
  rewrite succeeded_snoc_failure, succeeded_all in Happ by done.
  rewrite fmap_app in Hsplit. simpl in Hsplit. rewrite <-app_assoc in Hsplit.
  simpl in Hsplit.
  pose proof (pending_versions_NoDup (self st)) as Hnd. rewrite Hsplit in Hnd.
  apply NoDup_app in Hnd as (_ & Hdisj & [Hrfrest _]%NoDup_cons).
  exists oks, rf, rest. cbn [self set_world]. split_and!; try done.
  - intros v Hv. apply is_applied_true. rewrite Happ. apply elem_of_app. by right.
  - by eapply pending_versions_after.
  - destruct (Hstat rf) as (mf & Hmf & Hst); [apply elem_of_app; right; by left|].
    rewrite Hrf in Hst. by exists mf.
  - intros v Hv.
    assert (v ∉ res_version <$> oks ++ [rf]) as Hnot.
    { rewrite fmap_app. simpl. intros [Hin|Hin]%elem_of_app.
      - apply (Hdisj v Hin). by right.
      - apply list_elem_of_singleton in Hin as ->. done. }
    split_and!; [done| |by apply Hframe].
    apply is_applied_false. rewrite Happ. intros [Hin|Hin]%elem_of_app.
    + assert (v ∈ pending_versions (self st)) as Hp
        by (rewrite Hsplit; apply elem_of_app; right; by right).
      apply elem_of_pending_versions in Hp as [_ Hp]. done.
    + apply (Hdisj v Hin). by right.
Qed.

(** *** [migrate] with a target *)

Lemma str_gt_false v t : Py.str_gt v t = false ↔ String.le v t.
Proof.
  unfold Py.str_gt, String.ltb, String.le, String.leb.
  rewrite (String.compare_antisym t v).
  destruct (String.compare v t); simpl; naive_solver.
Qed.

Lemma str_gt_true v t : Py.str_gt v t = true ↔ ¬ String.le v t.
Proof. rewrite <-str_gt_false. by destruct (Py.str_gt v t). Qed.

Lemma filter_all {A} (P : A → Prop) `{!∀ x, Decision (P x)} (l : list A) :
  Forall P l → filter P l = l.
Proof.
  induction 1 as [|x l Hx Hl IH]; [done|].
  rewrite filter_cons, decide_True by done. by f_equal.
Qed.

Lemma filter_none {A} (P : A → Prop) `{!∀ x, Decision (P x)} (l : list A) :
  Forall (λ x, ¬ P x) l → filter P l = [].
Proof.
  induction 1 as [|x l Hx Hl IH]; [done|].
  by rewrite filter_cons, decide_False by done.
Qed.

Lemma succeeded_subseteq rs v : v ∈ succeeded rs → v ∈ res_version <$> rs.
Proof.
  unfold succeeded. rewrite !list_elem_of_fmap.
  intros (r & -> & Hr). apply list_elem_of_filter in Hr as [_ Hr]. by exists r.
Qed.

(** Past the first pending version that exceeds the target, every
    pending version exceeds it. *)
Lemma sorted_past_target k rest t :
  StronglySorted String.le (k :: rest) → Py.str_gt k t = true →
  Forall (λ v, Py.str_gt v t = true) (k :: rest).
Proof.
  intros [Hk _]%StronglySorted_cons Hgt. constructor; [done|].
  eapply Forall_impl; [exact Hk|]. intros v Hkv. simpl in Hkv.
  apply str_gt_true. intros Hvt. apply str_gt_true in Hgt. apply Hgt.
  by trans v.
Qed.

Lemma bind_ext {A B} (c : M (World:=World) A) (k1 k2 : A → M B) st :
  (∀ a st', k1 a st' = k2 a st') → bind c k1 st = bind c k2 st.
Proof. intros Hk. unfold bind. by destruct (c st) as [[a|e] st']. Qed.

(** The empty string is a target that counts as no target. *)
Lemma migrate_empty_target st : migrate (Some "") st = migrate None st.
Proof.
  assert (∀ pend acc st0, migrate_loop (Some "") pend acc st0
                          = migrate_loop None pend acc st0) as Hloop.
  { induction pend as [|k pend IH]; intros acc st0; [done|].
    cbn [migrate_loop]. apply bind_ext. intros m st1.
    change (past_target (Some "") m) with false.
    change (past_target None m) with false. cbv iota.
    apply bind_ext. intros mg st2. apply bind_ext. intros r st3.
    destruct (success r); [|done].
    do 4 (apply bind_ext; intros ? ?). apply IH. }
  unfold migrate. do 2 (apply bind_ext; intros ? ?).
  unfold bind at 1 3. by rewrite Hloop.
Qed.

(** C4, amended.  For a non-empty target, [migrate(target)] returns; it
    attempts, in ascending order (the pending list is sorted), an initial
    part of the pending versions that do not exceed the target, and stops
    at the first failure.
    When every attempt succeeds these are exactly the pending versions
    that do not exceed the target: they are appended to the store and the
    pending list becomes the versions that exceed it.  In every case a
    pending version that exceeds the target is not attempted, stays
    pending, and its catalog entry is unchanged. *)
Theorem migrate_up_to_target t st :
  catalog_wf (self st) → Py.truthy t = true →
  ∃ rs st',
    migrate (Some t) st = (Returned rs, st') ∧
    (res_version <$> rs)
      `prefix_of` filter (λ v, Py.str_gt v t = false) (pending_versions (self st)) ∧
    fail_fast rs ∧
    (Forall (λ r, success r = true) rs →
       res_version <$> rs
       = filter (λ v, Py.str_gt v t = false) (pending_versions (self st)) ∧
       store_applied (store (self st'))
       = store_applied (store (self st)) ++ (res_version <$> rs) ∧
       pending_versions (self st')
       = filter (λ v, Py.str_gt v t = true) (pending_versions (self st))) ∧
    (∀ v, v ∈ pending_versions (self st) → Py.str_gt v t = true →
          (v ∉ res_version <$> rs) ∧
          v ∈ pending_versions (self st') ∧
          migrations (self st') !! v = migrations (self st) !! v) ∧
    StronglySorted String.le (pending_versions (self st)).
Proof.
  intros Hwf Ht.
  destruct (migrate_runs (Some t) st Hwf)
    as (w1 & rs & st2 & w3 & rest & _ & _ & _ & Hmig & Heff).
  exists rs, (set_world w3 st2). split; [done|].
  destruct Heff as (Hsplit & _ & Hff & Htgt & Hstop & Happ & _ & _ & _ & _ & Hframe
                    & _ & Hdom).
  specialize (Htgt t eq_refl Ht).
  assert (Forall (λ v, Py.str_gt v t = false) (res_version <$> rs)) as Hdone
    by by apply Forall_fmap.
  cbn [self set_world]. split_and!.
  - rewrite Hsplit, filter_app, filter_all by done. by apply prefix_app_r.
  - done.
  - intros Hall.
    assert (Forall (λ v, Py.str_gt v t = true) rest) as Hrest.
    { destruct (Hstop Hall) as [->|(k & rest' & t' & -> & [= <-] & _ & Hgt)];
        [constructor|].
      apply sorted_past_target; [|done].
      pose proof (pending_versions_sorted (self st)) as Hs.
      rewrite Hsplit in Hs. by apply StronglySorted_app_1_r in Hs. }
    rewrite succeeded_all in Happ by done.
    rewrite Hsplit at 1 2. rewrite !filter_app, filter_all by done.
    rewrite (filter_none _ rest), (filter_none _ (res_version <$> rs)), (filter_all _ rest).
    + rewrite app_nil_r. split_and!; [done..|]. by eapply pending_versions_after.
    + done.
    + eapply Forall_impl; [exact Hdone|]. simpl. congruence.
    + eapply Forall_impl; [exact Hrest|]. simpl. congruence.
  - intros v Hv Hgt.
    assert (v ∉ res_version <$> rs) as Hnot.
    { intros Hin. eapply Forall_forall in Hdone; [|done]. congruence. }
    split_and!; [done| |by apply Hframe].
    apply elem_of_pending_versions in Hv as [Hin Hna].
    apply elem_of_pending_versions. split; [by apply Hdom|].
    rewrite Happ. intros [?|?%succeeded_subseteq]%elem_of_app; done.
  - apply pending_versions_sorted.
Qed.

(** *** Hooks *)

Lemma add_hook_wf event h st :
  catalog_wf (self st) → catalog_wf (self (snd (add_hook event h st))).
Proof.
  intros Hwf. cbn [add_hook modify_self snd self set_self].
  by destruct (hooks (self st) !! event).
Qed.




(** On a registry of callbacks of the first kind the dispatch is the one
    above. *)
Lemma signals_emit_handlers_lifted (hs : list (Handler World)) data st :
  Signals.emit_handlers (Signals.lift_hook <$> hs) data st
  = Signals.lift (emit_handlers hs data) st.
Proof.
  revert st. induction hs as [|h hs IH]; intros st; [done|].
  cbn [fmap list_fmap Signals.emit_handlers emit_handlers].
  unfold Signals.seq at 1, Signals.try_except_Exception, Signals.call_hook,
    Signals.lift_hook, Signals.lift.
  unfold bind at 1, try_except, call.
  destruct (h data (world st)) as [[[]|e] w1]; cbn; apply IH.
Qed.

Lemma signals_emit_lifted hs event data st :
  Signals._emit (Signals.lift_registry hs) event data st
  = Signals.lift (emit_handlers (default [] (hs !! event)) data) st.
Proof.
  unfold Signals._emit, Signals.lift_registry, Signals.Registry.
  rewrite lookup_fmap.
  rewrite <-signals_emit_handlers_lifted. by destruct (hs !! event).
Qed.


(** On a registry of callbacks of the first kind, [Signals.migrate] is
    the [migrate] above. *)
Lemma signals_migrate_lifted target st :
  catalog_wf (self st) →
  Signals.migrate (Signals.lift_registry (hooks (self st))) target st
  = Signals.lift (migrate target) st.
Proof.
  intros Hwf.
  destruct (migrate_runs target st Hwf)
    as (w1 & rs & st2 & w3 & rest & He1 & Hloop & He3 & Hmig & Heff).
  destruct Heff as (_ & _ & _ & _ & _ & _ & _ & _ & Hhooks & _).
  unfold Signals.lift at 1. rewrite Hmig.
  unfold Signals.migrate. unfold Signals.seq at 1.
  rewrite signals_emit_lifted. unfold Signals.lift at 1.
  change (emit_handlers (default [] (hooks (self st) !! "before_migrate")) None st)
    with (_emit "before_migrate" None st).
  rewrite He1. unfold Signals.seq at 1, Signals.lift at 1.
  unfold bind at 1, get_self. cbn [self set_world]. rewrite Hloop.
  unfold Signals.seq at 1. rewrite <-Hhooks, signals_emit_lifted.
  unfold Signals.lift at 1.
  change (emit_handlers (default [] (hooks (self st2) !! "after_migrate")) (Some rs) st2)
    with (_emit "after_migrate" (Some rs) st2).
  by rewrite He3.
Qed.

End Migrate.

(** ** The loops of [rollback] and [rollback_to] *)

Section Rollback.

Context {World : Type} {clk : Clock World}.
Implicit Types (st : State World) (m : Migration World) (w : World).
Implicit Types (rs acc : list MigrationResult) (walk : list string).

Lemma rollback_loop_limit steps i v walk acc st :
  (i >=? steps) = true →
  rollback_loop steps i (v :: walk) acc st = (Returned acc, st).
Proof. intros Hi. cbn [rollback_loop]. by rewrite Hi. Qed.

Lemma rollback_loop_skip steps i v walk acc st :
  (i >=? steps) = false → migrations (self st) !! v = None →
  rollback_loop steps i (v :: walk) acc st
  = rollback_loop steps (i + 1) walk acc st.
Proof.
  intros Hi Hv. cbn [rollback_loop]. rewrite Hi.
  unfold bind at 1. unfold get_self at 1. by rewrite Hv.
Qed.

(** One iteration that executes the Migration filed under [v]. *)
Lemma rollback_loop_step steps i v walk acc st m :
  (i >=? steps) = false → migrations (self st) !! v = Some m →
  ∃ r w,
    res_version r = version m ∧ direction r = "down" ∧
    rollback_loop steps i (v :: walk) acc st
    = if success r
      then rollback_loop steps (i + 1) walk (acc ++ [r])
             {| world := w; self := after_down_ok v (self st) |}
      else (Returned (acc ++ [r]),
            {| world := w; self := after_failed v (self st) |}).
Proof.
  intros Hi Hv.
  destruct (run_down_returns (runner (self st)) m st) as (r & w & Hrun & Hr & _ & Hd).
  exists r, w. split_and!; [done..|].
  cbn [rollback_loop]. rewrite Hi.
  unfold bind at 1. unfold get_self at 1. rewrite Hv.
  unfold bind at 1. rewrite Hrun.
  by destruct (success r).
Qed.

Lemma after_down_ok_lookup k (mg : Migrator World) j :
  migrations (after_down_ok k mg) !! j
  = if decide (k = j) then set_status ROLLED_BACK <$> migrations mg !! k
    else migrations mg !! j.
Proof. unfold after_down_ok. cbn [migrations set_migrations]. by rewrite lookup_alter. Qed.

Lemma after_down_ok_wf k (mg : Migrator World) :
  catalog_wf mg → catalog_wf (after_down_ok k mg).
Proof.
  intros Hwf j m'. rewrite after_down_ok_lookup.
  destruct (decide (k = j)) as [->|]; [|apply Hwf].
  destruct (migrations mg !! j) as [m0|] eqn:Hj; [|done].
  intros [= <-]. simpl. by apply Hwf.
Qed.

Lemma after_down_ok_dom k (mg : Migrator World) :
  dom (migrations (after_down_ok k mg)) = dom (migrations mg).
Proof. unfold after_down_ok. cbn [migrations set_migrations]. apply dom_alter_L. Qed.

Lemma after_failed_dom k (mg : Migrator World) :
  dom (migrations (after_failed k mg)) = dom (migrations mg).
Proof. unfold after_failed. cbn [migrations set_migrations]. apply dom_alter_L. Qed.

Lemma known_cons_in (mg : Migrator World) v walk :
  is_Some (migrations mg !! v) → known mg (v :: walk) = v :: known mg walk.
Proof.
  intros Hv. unfold known. rewrite filter_cons, decide_True; [done|].
  by apply elem_of_dom.
Qed.

Lemma known_cons_out (mg : Migrator World) v walk :
  migrations mg !! v = None → known mg (v :: walk) = known mg walk.
Proof.
  intros Hv. unfold known. rewrite filter_cons, decide_False; [done|].
  by apply not_elem_of_dom.
Qed.

Lemma known_subseteq (mg : Migrator World) walk v : v ∈ known mg walk → v ∈ walk.
Proof. unfold known. rewrite list_elem_of_filter. naive_solver. Qed.

Lemma known_all (mg : Migrator World) walk :
  (∀ v, v ∈ walk → is_Some (migrations mg !! v)) → known mg walk = walk.
Proof.
  intros Hall. unfold known. apply filter_all, Forall_forall.
  intros v Hv. by apply elem_of_dom, Hall.
Qed.

Lemma elem_of_take_subseteq {A} (l : list A) n x : x ∈ take n l → x ∈ l.
Proof. intros Hx. rewrite <-(take_drop n l). apply elem_of_app. by left. Qed.

Lemma rollback_loop_spec steps walk : ∀ i acc st,
  catalog_wf (self st) → NoDup walk →
  ∃ rs st',
    rollback_loop steps i walk acc st = (Returned (acc ++ rs), st') ∧
    rollback_effect (Z.to_nat (steps - i)) walk (self st) rs (self st').
Proof.
  unfold rollback_effect.
  induction walk as [|v walk IH]; intros i acc st Hwf Hnd.
  { exists [], st. rewrite app_nil_r, take_nil.
    split_and!; try done.
    - exists []. split; [constructor | by left].
    - intros r Hr. by apply elem_of_nil in Hr. }
  apply NoDup_cons in Hnd as [Hvw Hnd].
  destruct (i >=? steps) eqn:Hi.
  { exists [], st. rewrite rollback_loop_limit, app_nil_r by done.
    assert (Z.to_nat (steps - i) = 0%nat) as -> by lia.
    split_and!; try done.
    - exists []. split; [constructor | by left].
    - intros r Hr. by apply elem_of_nil in Hr. }
  assert (Z.to_nat (steps - i) = S (Z.to_nat (steps - (i + 1)))) as -> by lia.
  rewrite firstn_cons.
  destruct (migrations (self st) !! v) as [m|] eqn:Hv.
  2:{ rewrite rollback_loop_skip by done.
      destruct (IH (i + 1) acc st Hwf Hnd) as (rs & st' & -> & Heff).
      exists rs, st'. split; [done|].
      by rewrite known_cons_out. }
  assert (version m = v) as Hvm by by apply Hwf.
  destruct (rollback_loop_step steps i v walk acc st m Hi Hv)
    as (r & w & Hr & Hd & ->).
  rewrite Hvm in Hr. rewrite known_cons_in by by eexists.
  destruct (success r) eqn:Hs.
  - destruct (IH (i + 1) (acc ++ [r])
                {| world := w; self := after_down_ok v (self st) |})
      as (rs & st' & -> & Hpre & Hall & Hdir & Hff & Happ & Hsm & Hrn & Hhk
          & Hwf' & Hdom & Hframe & Hstat).
    { by apply after_down_ok_wf. }
    { done. }
    cbn [self] in *. unfold known in Hpre, Hall. rewrite after_down_ok_dom in Hpre, Hall.
    fold (known (self st) (take (Z.to_nat (steps - (i + 1))) walk)) in Hpre, Hall.
    assert (v ∉ res_version <$> rs) as Hvrs.
    { intros Hin. apply Hvw.
      eapply elem_of_take_subseteq, known_subseteq, elem_of_prefix; done. }
    exists (r :: rs), st'. rewrite <-app_assoc.
    split_and!; try done.
    + rewrite fmap_cons, Hr. by apply prefix_cons.
    + intros [_ Hrs]%Forall_cons. rewrite fmap_cons, Hr. f_equal. by apply Hall.
    + by constructor.
    + by apply fail_fast_cons.
    + rewrite Happ, succeeded_cons, Hs, Hr.
      unfold after_down_ok. cbn [store set_migrations set_store].
      by rewrite mark_rolled_back_applied.
    + rewrite Hsm. unfold after_down_ok. cbn [store set_migrations set_store].
      apply mark_rolled_back_store_migrations.
    + by rewrite Hdom, after_down_ok_dom.
    + intros j Hj. rewrite fmap_cons, Hr in Hj.
      apply not_elem_of_cons in Hj as [Hjk Hj].
      rewrite Hframe by done. rewrite after_down_ok_lookup.
      by rewrite decide_False.
    + intros r' [->|Hr']%elem_of_cons; [|by apply Hstat].
      rewrite Hr, Hs, Hframe by done.
      rewrite after_down_ok_lookup, decide_True, Hv by done. by eexists.
  - exists [r], {| world := w; self := after_failed v (self st) |}.
    cbn [self]. split_and!; try done.
    + simpl. rewrite Hr. apply prefix_cons, prefix_nil.
    + intros [Hr' _]%Forall_cons. congruence.
    + by repeat constructor.
    + exists []. split; [constructor|]. right. by exists r.
    + by rewrite succeeded_cons, Hs.
    + by apply after_failed_wf.
    + apply after_failed_dom.
    + intros j Hj. simpl in Hj. rewrite Hr in Hj.
      apply not_elem_of_cons in Hj as [Hjk _].
      rewrite after_failed_lookup. by rewrite decide_False.
    + intros r' ->%list_elem_of_singleton. rewrite Hr, Hs.
      rewrite after_failed_lookup, decide_True, Hv by done. by eexists.
Qed.

(** *** [rollback] *)

Lemma NoDup_rev (l : list string) : NoDup l → NoDup (rev l).
Proof. rewrite !NoDup_ListNoDup. apply List.NoDup_rev. Qed.

Lemma elem_of_rev (l : list string) x : x ∈ rev l ↔ x ∈ l.
Proof. rewrite !list_elem_of_In. symmetry. apply in_rev. Qed.

Lemma rollback_runs steps st :
  catalog_wf (self st) → NoDup (store_applied (store (self st))) →
  ∃ w1 rs st2 w3,
    _emit "before_rollback" None st = (Returned tt, set_world w1 st) ∧
    rollback_loop steps 0 (rev (store_applied (store (self st)))) [] (set_world w1 st)
    = (Returned rs, st2) ∧
    _emit "after_rollback" (Some rs) st2 = (Returned tt, set_world w3 st2) ∧
    rollback steps st = (Returned rs, set_world w3 st2) ∧
    rollback_effect (Z.to_nat steps) (rev (store_applied (store (self st))))
      (self st) rs (self st2).
Proof.
  intros Hwf Hnd.
  destruct (emit_returns "before_rollback" None st) as [w1 Hbefore].
  destruct (rollback_loop_spec steps (rev (store_applied (store (self st)))) 0 []
              (set_world w1 st))
    as (rs & st2 & Hloop & Heff); [done|by apply NoDup_rev|].
  rewrite app_nil_l in Hloop. rewrite Z.sub_0_r in Heff.
  destruct (emit_returns "after_rollback" (Some rs) st2) as [w3 Hafter].
  exists w1, rs, st2, w3. split_and!; try done.
  unfold rollback. unfold bind at 1. rewrite Hbefore.
  unfold bind at 1. unfold get_self at 1. unfold bind at 1.
  cbn [self set_world]. unfold get_applied. rewrite Hloop.
  unfold bind at 1. by rewrite Hafter.
Qed.

Lemma list_remove_elem_of_NoDup v (l : list string) x :
  NoDup l → x ∈ list_remove v l ↔ x ∈ l ∧ x ≠ v.
Proof.
  intros Hnd. split.
  - intros Hx. split; [by eapply list_remove_subseteq|].
    intros ->. by apply (list_remove_NoDup_gone v l).
  - intros [Hx Hne]. by apply list_remove_other.
Qed.

Lemma rolled_back_NoDup vs (l : list string) : NoDup l → NoDup (rolled_back vs l).
Proof.
  revert l. induction vs as [|v vs IH]; intros l Hl; simpl; [done|].
  by apply IH, list_remove_NoDup.
Qed.

Lemma elem_of_rolled_back_NoDup vs (l : list string) x :
  NoDup l → x ∈ rolled_back vs l ↔ x ∈ l ∧ x ∉ vs.
Proof.
  revert l. induction vs as [|v vs IH]; intros l Hl; simpl.
  - split; [|naive_solver]. intros Hx. split; [done|]. apply not_elem_of_nil.
  - rewrite IH by by apply list_remove_NoDup.
    rewrite list_remove_elem_of_NoDup, not_elem_of_cons by done. naive_solver.
Qed.

Lemma elem_of_rolled_back_other vs (l : list string) x :
  x ∈ l → x ∉ vs → x ∈ rolled_back vs l.
Proof.
  revert l. induction vs as [|v vs IH]; intros l Hl Hx; simpl; [done|].
  apply not_elem_of_cons in Hx as [Hxv Hx]. apply IH; [|done].
  by apply list_remove_other.
Qed.

(** C3, amended.  [rollback(steps)] returns.  It walks the first [steps]
    entries of the applied list taken in reverse application order, and
    attempts backward execution, in that order and until the first
    failure, for those of them that are keys of the catalog.  An entry
    absent from the catalog is passed over and does use up one of the
    [steps] slots: the walk is cut to [steps] entries before the known
    ones are selected.  Every result has direction down; the versions
    that succeeded, and only they, leave the store. *)
Theorem rollback_walks_steps steps st :
  catalog_wf (self st) → NoDup (store_applied (store (self st))) →
  ∃ rs st',
    rollback steps st = (Returned rs, st') ∧
    (res_version <$> rs)
      `prefix_of` known (self st)
                    (take (Z.to_nat steps) (rev (store_applied (store (self st))))) ∧
    fail_fast rs ∧
    Forall (λ r, direction r = "down") rs ∧
    (Forall (λ r, success r = true) rs →
       res_version <$> rs
       = known (self st)
           (take (Z.to_nat steps) (rev (store_applied (store (self st)))))) ∧
    (∀ v, v ∈ store_applied (store (self st')) ↔
          v ∈ store_applied (store (self st)) ∧ v ∉ succeeded rs).
Proof.
  intros Hwf Hnd.
  destruct (rollback_runs steps st Hwf Hnd)
    as (w1 & rs & st2 & w3 & _ & _ & _ & Hrb & Heff).
  exists rs, (set_world w3 st2). split; [done|].
  destruct Heff as (Hpre & Hall & Hdir & Hff & Happ & _).
  cbn [self set_world]. split_and!; try done.
  intros v. rewrite Happ. by apply elem_of_rolled_back_NoDup.
Qed.

(** *** [rollback_to] *)

Lemma rollback_to_loop_stop target v walk acc st :
  Py.str_le v target = true →
  rollback_to_loop target (v :: walk) acc st = (Returned acc, st).
Proof. intros Hv. cbn [rollback_to_loop]. by rewrite Hv. Qed.

Lemma rollback_to_loop_skip target v walk acc st :
  Py.str_le v target = false → migrations (self st) !! v = None →
  rollback_to_loop target (v :: walk) acc st = rollback_to_loop target walk acc st.
Proof.
  intros Hle Hv. cbn [rollback_to_loop]. rewrite Hle.
  unfold bind at 1. unfold get_self at 1. by rewrite Hv.
Qed.

(** One iteration that executes the Migration filed under [v]: the loop
    goes on whether the execution succeeds or fails, and only a success
    changes the migrator, in its store. *)
Lemma rollback_to_loop_step target v walk acc st m :
  Py.str_le v target = false → migrations (self st) !! v = Some m →
  ∃ r w,
    res_version r = version m ∧ direction r = "down" ∧
    rollback_to_loop target (v :: walk) acc st
    = rollback_to_loop target walk (acc ++ [r])
        {| world := w;
           self := if success r
                   then set_store (mark_rolled_back v (store (self st))) (self st)
                   else self st |}.
Proof.
  intros Hle Hv.
  destruct (run_down_returns (runner (self st)) m st) as (r & w & Hrun & Hr & _ & Hd).
  exists r, w. split_and!; [done..|].
  cbn [rollback_to_loop]. rewrite Hle.
  unfold bind at 1. unfold get_self at 1. rewrite Hv.
  unfold bind at 1. rewrite Hrun.
  by destruct (success r).
Qed.

Lemma rollback_to_loop_spec target walk : ∀ acc st,
  ∃ rs st',
    rollback_to_loop target walk acc st = (Returned (acc ++ rs), st') ∧
    rollback_to_effect target walk (self st) rs (self st').
Proof.
  unfold rollback_to_effect.
  induction walk as [|v walk IH]; intros acc st.
  { exists [], st. rewrite app_nil_r. by split_and!. }
  cbn [walked_to]. destruct (Py.str_le v target) eqn:Hle.
  { exists [], st. rewrite rollback_to_loop_stop, app_nil_r by done. by split_and!. }
  destruct (migrations (self st) !! v) as [m|] eqn:Hv.
  2:{ rewrite rollback_to_loop_skip by done.
      destruct (IH acc st) as (rs & st' & -> & Heff).
      exists rs, st'. split; [done|]. by rewrite known_cons_out. }
  destruct (rollback_to_loop_step target v walk acc st m Hle Hv)
    as (r & w & Hr & Hd & ->).
  rewrite known_cons_in by by eexists.
  match goal with
  | |- context [rollback_to_loop target walk (acc ++ [r]) ?st1] =>
      destruct (IH (acc ++ [r]) st1)
        as (rs & st' & -> & Hdir & Hmig & Hrn & Hhk & Hsm & Hwf')
  end.
  cbn [self] in *.
  assert (migrations
            (if success r
             then set_store (mark_rolled_back v (store (self st))) (self st)
             else self st) = migrations (self st)) as Hsame
    by by destruct (success r).
  exists (r :: rs), st'. rewrite <-app_assoc. split_and!.
  - done.
  - by constructor.
  - by rewrite Hmig.
  - rewrite Hrn. by destruct (success r).
  - rewrite Hhk. by destruct (success r).
  - rewrite Hsm. destruct (success r); [|done].
    cbn [store set_store]. apply mark_rolled_back_store_migrations.
  - intros Hwf. destruct Hwf' as [Hvs Happ].
    { intros k m'. rewrite Hsame. apply Hwf. }
    unfold known in Hvs. rewrite Hsame in Hvs. fold (known (self st) (walked_to target walk)) in Hvs.
    assert (res_version r = v) as Hrv by (rewrite Hr; by apply Hwf).
    split.
    + by rewrite fmap_cons, Hrv, Hvs.
    + rewrite Happ, succeeded_cons, Hrv. destruct (success r); [|done].
      cbn [store set_store]. by rewrite mark_rolled_back_applied.
Qed.

(** [rollback_to] returns, and this is what it does. *)
Lemma rollback_to_runs target st :
  ∃ rs st',
    rollback_to target st = (Returned rs, st') ∧
    rollback_to_effect target (rev (store_applied (store (self st))))
      (self st) rs (self st').
Proof.
  destruct (rollback_to_loop_spec target (rev (store_applied (store (self st)))) [] st)
    as (rs & st' & Hloop & Heff).
  exists rs, st'. split; [|done].
  unfold rollback_to. unfold bind at 1. unfold get_self at 1. by unfold get_applied.
Qed.

Lemma walked_to_above target walk :
  Forall (λ v, Py.str_le v target = false) (walked_to target walk).
Proof.
  induction walk as [|v walk IH]; simpl; [constructor|].
  destruct (Py.str_le v target) eqn:Hle; by constructor.
Qed.

Lemma walked_to_split target walk :
  ∃ rest, walk = walked_to target walk ++ rest ∧
          (rest = [] ∨ ∃ v rest', rest = v :: rest' ∧ Py.str_le v target = true).
Proof.
  induction walk as [|v walk (rest & IH1 & IH2)]; simpl.
  - exists []. split; [done | by left].
  - destruct (Py.str_le v target) eqn:Hle.
    + exists (v :: walk). split; [done|]. right. by exists v, walk.
    + exists rest. split; [|done]. simpl. by f_equal.
Qed.

Lemma run_down_with_hooks rn m hs st :
  run_down rn m (with_hooks hs st)
  = let '(o, st') := run_down rn m st in (o, with_hooks hs st').
Proof.
  unfold run_down, bind, try_except, read, call, ret, with_hooks, set_self.
  destruct (down_fn m) as [fn|]; simpl.
  - by destruct (fn (world st)) as [[[]|e] w].
  - destruct (Py.truthy (down_sql m)); simpl; [|done].
    by destruct (executor rn (down_sql m) (world st)) as [[[]|e] w].
Qed.

Lemma rollback_to_loop_cons target v walk acc st :
  rollback_to_loop target (v :: walk) acc st
  = if Py.str_le v target then (Returned acc, st)
    else match migrations (self st) !! v with
         | None => rollback_to_loop target walk acc st
         | Some m =>
             match run_down (runner (self st)) m st with
             | (Returned r, st1) =>
                 if success r
                 then rollback_to_loop target walk (acc ++ [r])
                        (set_self (set_store (mark_rolled_back v (store (self st1)))
                                     (self st1)) st1)
                 else rollback_to_loop target walk (acc ++ [r]) st1
             | (Raised e, st1) => (Raised e, st1)
             end
         end.
Proof.
  cbn [rollback_to_loop]. destruct (Py.str_le v target); [done|].
  unfold bind at 1. unfold get_self at 1.
  destruct (migrations (self st) !! v) as [m|]; [|done].
  unfold bind at 1.
  destruct (run_down (runner (self st)) m st) as [[r|e] st1]; [|done].
  by destruct (success r).
Qed.

(** The loop of [rollback_to] does the same whatever callbacks are
    registered: it calls none. *)
Lemma rollback_to_loop_with_hooks target walk : ∀ acc hs st,
  rollback_to_loop target walk acc (with_hooks hs st)
  = let '(o, st') := rollback_to_loop target walk acc st in (o, with_hooks hs st').
Proof.
  induction walk as [|v walk IH]; intros acc hs st; [done|].
  rewrite !rollback_to_loop_cons. destruct (Py.str_le v target); [done|].
  change (migrations (self (with_hooks hs st))) with (migrations (self st)).
  destruct (migrations (self st) !! v) as [m|]; [|apply IH].
  change (runner (self (with_hooks hs st))) with (runner (self st)).
  rewrite run_down_with_hooks.
  destruct (run_down (runner (self st)) m st) as [[r|e] st1]; [|done].
  destruct (success r); [|apply IH].
  apply (IH _ hs (set_self (set_store (mark_rolled_back v (store (self st1))) (self st1)) st1)).
Qed.

(** C5.  On a Ledger state, that is an applied list without repetition
    (the store's methods keep it so, see [ledger_run_NoDup]), whose
    versions are all keys of the catalog, [rollback_to(target)] returns;
    the versions it walks are the longest initial part of the applied
    list, taken in reverse application order, whose versions are all
    greater than the target; it attempts a backward execution for each of
    them, in that order, and for no other; the walk stops at the first
    version not greater than the target.  Every version whose backward
    execution succeeded is removed from the store: afterwards a version
    is applied exactly when it was applied before and is not one of the
    successes, so a success is not applied any more and every applied
    version not greater than the target stays applied.  No callback is
    called: the call does the same whatever hooks are registered. *)
Theorem rollback_to_walks_above_target target st :
  catalog_wf (self st) →
  NoDup (store_applied (store (self st))) →
  (∀ v, v ∈ store_applied (store (self st)) → is_Some (migrations (self st) !! v)) →
  ∃ rs st' rest,
    rollback_to target st = (Returned rs, st') ∧
    rev (store_applied (store (self st))) = (res_version <$> rs) ++ rest ∧
    res_version <$> rs = walked_to target (rev (store_applied (store (self st)))) ∧
    Forall (λ r, direction r = "down" ∧ Py.str_le (res_version r) target = false) rs ∧
    (rest = [] ∨ ∃ v rest', rest = v :: rest' ∧ Py.str_le v target = true) ∧
    store_applied (store (self st'))
    = rolled_back (succeeded rs) (store_applied (store (self st))) ∧
    NoDup (store_applied (store (self st'))) ∧
    (∀ v, v ∈ store_applied (store (self st')) ↔
          v ∈ store_applied (store (self st)) ∧ v ∉ succeeded rs) ∧
    (∀ r, r ∈ rs → success r = true →
          is_applied (res_version r) (store (self st)) = true ∧
          is_applied (res_version r) (store (self st')) = false) ∧
    (∀ v, Py.str_le v target = true → v ∈ store_applied (store (self st)) →
          v ∈ store_applied (store (self st'))) ∧
    (∀ hs, rollback_to target (with_hooks hs st) = (Returned rs, with_hooks hs st')).
Proof.
  intros Hwf Hnd Hcat.
  destruct (rollback_to_runs target st) as (rs & st' & Hrun & Hdir & _ & _ & _ & _ & Heff).
  destruct (Heff Hwf) as [Hvs Happ]. clear Heff.
  rewrite known_all in Hvs.
  2:{ intros v Hv. apply Hcat, elem_of_rev.
      destruct (walked_to_split target (rev (store_applied (store (self st)))))
        as (rest & Hsplit & _).
      rewrite Hsplit. apply elem_of_app. by left. }
  destruct (walked_to_split target (rev (store_applied (store (self st)))))
    as (rest & Hsplit & Hrest).
  pose proof (walked_to_above target (rev (store_applied (store (self st))))) as Habove.
  rewrite <-Hvs in Habove, Hsplit.
  assert (∀ v, v ∈ store_applied (store (self st')) ↔
               v ∈ store_applied (store (self st)) ∧ v ∉ succeeded rs) as Hiff.
  { intros v. rewrite Happ. by apply elem_of_rolled_back_NoDup. }
  exists rs, st', rest. split_and!; try done.
  - apply Forall_fmap in Habove. apply Forall_forall. intros r Hr. split.
    + by eapply Forall_forall in Hdir.
    + by eapply Forall_forall in Habove.
  - rewrite Happ. by apply rolled_back_NoDup.
  - intros r Hr Hs.
    assert (res_version r ∈ succeeded rs) as Hin.
    { unfold succeeded. apply list_elem_of_fmap. exists r. split; [done|].
      by apply list_elem_of_filter. }
    split.
    + apply is_applied_true, elem_of_rev. rewrite Hsplit.
      apply elem_of_app. left. apply list_elem_of_fmap. by exists r.
    + apply is_applied_false. rewrite Hiff. by intros [_ ?].
  - intros v Hle Hv. rewrite Happ. apply elem_of_rolled_back_other; [done|].
    intros Hin%succeeded_subseteq.
    eapply Forall_forall in Habove; [|done]. congruence.
  - intros hs. unfold rollback_to in *.
    unfold bind at 1. unfold get_self at 1.
    unfold bind at 1 in Hrun. unfold get_self at 1 in Hrun.
    change (self (with_hooks hs st)) with (set_hooks hs (self st)).
    change (get_applied (store (set_hooks hs (self st))))
      with (get_applied (store (self st))).
    rewrite rollback_to_loop_with_hooks. by rewrite Hrun.
Qed.

(** C10.  [rollback_to] returns and changes nothing of the migrator but
    the applied list of its store: the catalog afterwards is the catalog
    before, so the status and [applied_at] of every Migration are
    unchanged, for the results that report success as for those that
    report failure.  [rollback] does set the status of each Migration it
    attempts: [rolled_back] after a success, [failed] after a failure. *)
Theorem rollback_to_leaves_status target steps st :
  (∃ rs st',
     rollback_to target st = (Returned rs, st') ∧
     migrations (self st') = migrations (self st) ∧
     (∀ r, r ∈ rs →
           status <$> migrations (self st') !! res_version r
           = status <$> migrations (self st) !! res_version r ∧
           applied_at <$> migrations (self st') !! res_version r
           = applied_at <$> migrations (self st) !! res_version r) ∧
     self st'
     = set_store {| store_migrations := store_migrations (store (self st));
                    store_applied := store_applied (store (self st')) |}
         (self st)) ∧
  (catalog_wf (self st) → NoDup (store_applied (store (self st))) →
   ∃ rs st',
     rollback steps st = (Returned rs, st') ∧
     ∀ r, r ∈ rs →
          ∃ m', migrations (self st') !! res_version r = Some m' ∧
                status m' = if success r then ROLLED_BACK else FAILED).
Proof.
  split.
  - destruct (rollback_to_runs target st)
      as (rs & st' & Hrun & _ & Hmig & Hrn & Hhk & Hsm & _).
    exists rs, st'. split_and!; [done|done| |].
    + intros r _. by rewrite Hmig.
    + destruct (self st') as [[sm' sa'] rn' ms' hk'], (self st) as [[sm sa] rn ms hk].
      simpl in *. by subst.
  - intros Hwf Hnd.
    destruct (rollback_runs steps st Hwf Hnd)
      as (w1 & rs & st2 & w3 & _ & _ & _ & Hrb & Heff).
    exists rs, (set_world w3 st2). split; [done|]. apply Heff.
Qed.

End Rollback.

(** ** [generate] *)

(** ** Names over all of Unicode: the slug *)

Section UnicodeNames.

Implicit Types (s l w : Unicode.str) (c : N) (ws : list Unicode.str).

Lemma codes_in_class_not_sep c :
  Unicode.in_class c = true → (c =? Unicode.sep)%N = false.
Proof.
  unfold Unicode.in_class, Unicode.sep.
  rewrite orb_true_iff, !andb_true_iff, !N.leb_le, N.eqb_neq. lia.
Qed.

Lemma codes_rstrip_cons c s :
  (c =? Unicode.sep)%N = false →
  Unicode.rstrip (c :: s) = c :: Unicode.rstrip s.
Proof.
  intros Hc. cbn [Unicode.rstrip]. rewrite Hc. by destruct (Unicode.rstrip s).
Qed.

Lemma codes_rstrip_sep s :
  Unicode.rstrip (Unicode.sep :: s)
  = match Unicode.rstrip s with [] => [] | r => Unicode.sep :: r end.
Proof. reflexivity. Qed.

Lemma codes_re_sub_in_match_head s :
  Unicode.lstrip (Unicode.re_sub_from true s) = Unicode.re_sub_from true s.
Proof.
  induction s as [|c s IH]; [done|]. cbn [Unicode.re_sub_from].
  destruct (Unicode.in_class c) eqn:Hc; [|done].
  cbn [Unicode.lstrip]. by rewrite (codes_in_class_not_sep _ Hc).
Qed.

Lemma codes_lstrip_re_sub s :
  Unicode.lstrip (Unicode.re_sub s) = Unicode.re_sub_from true s.
Proof.
  unfold Unicode.re_sub. destruct s as [|c s]; [done|].
  cbn [Unicode.re_sub_from]. destruct (Unicode.in_class c) eqn:Hc.
  - cbn [Unicode.lstrip]. by rewrite (codes_in_class_not_sep _ Hc).
  - apply codes_re_sub_in_match_head.
Qed.

Lemma codes_starts_class_words s :
  Unicode.starts_class s = true → Unicode.class_words s ≠ [].
Proof.
  destruct s as [|c s]; [done|]. cbn [Unicode.starts_class Unicode.class_words].
  intros ->. destruct (Unicode.starts_class s); [|done].
  by destruct (Unicode.class_words s).
Qed.

(** Every run is not empty and made of characters of the class. *)
Lemma codes_class_words_runs s :
  Forall (λ w, w ≠ [] ∧ Forall (λ c, Unicode.in_class c = true) w)
    (Unicode.class_words s).
Proof.
  induction s as [|c s IH]; [constructor|]. cbn [Unicode.class_words].
  destruct (Unicode.in_class c) eqn:Hc; [|done].
  destruct (Unicode.starts_class s).
  - destruct (Unicode.class_words s) as [|w ws].
    + repeat constructor; done.
    + apply Forall_cons in IH as [[_ Hw] IH]. constructor; [|done].
      split; [done|]. by constructor.
  - constructor; [|done]. split; [done|]. by repeat constructor.
Qed.

Lemma codes_join_nonempty ws :
  ws ≠ [] → Forall (λ w, w ≠ []) ws → Unicode.join ws ≠ [].
Proof.
  destruct ws as [|w ws]; [done|]. intros _ Hws.
  apply Forall_cons in Hws as [Hw _]. cbn [Unicode.join].
  destruct ws; by destruct w.
Qed.

Lemma codes_join_empty_iff s :
  Unicode.join (Unicode.class_words s) = [] ↔ Unicode.class_words s = [].
Proof.
  split; [|by intros ->]. intros Hj.
  destruct (Unicode.class_words s) as [|w ws] eqn:Hw; [done|].
  exfalso. revert Hj. apply codes_join_nonempty; [done|].
  rewrite <-Hw. eapply Forall_impl; [apply codes_class_words_runs|].
  by intros w' [? _].
Qed.

Lemma codes_join_cons_cons w w' ws :
  Unicode.join (w :: w' :: ws) = w ++ Unicode.sep :: Unicode.join (w' :: ws).
Proof. reflexivity. Qed.

(** What is left of the substitution once the trailing separator is
    stripped, from inside a match and from outside one. *)
Lemma codes_rstrip_re_sub s :
  Unicode.rstrip (Unicode.re_sub_from true s)
  = Unicode.join (Unicode.class_words s) ∧
  Unicode.rstrip (Unicode.re_sub_from false s)
  = match Unicode.class_words s with
    | [] => []
    | _ => if Unicode.starts_class s
           then Unicode.join (Unicode.class_words s)
           else Unicode.sep :: Unicode.join (Unicode.class_words s)
    end.
Proof.
  induction s as [|c s [IHt IHf]]; [done|].
  cbn [Unicode.re_sub_from Unicode.starts_class Unicode.class_words].
  destruct (Unicode.in_class c) eqn:Hc.
  - assert (Unicode.rstrip (c :: Unicode.re_sub_from false s)
            = Unicode.join (Unicode.class_words (c :: s))) as Hgoal.
    { rewrite codes_rstrip_cons by by apply codes_in_class_not_sep.
      rewrite IHf. cbn [Unicode.class_words]. rewrite Hc.
      destruct (Unicode.starts_class s) eqn:Hs.
      - destruct (Unicode.class_words s) as [|w ws] eqn:Hw.
        + by apply codes_starts_class_words in Hs.
        + destruct ws; reflexivity.
      - destruct (Unicode.class_words s) as [|w ws] eqn:Hw; reflexivity. }
    cbn [Unicode.class_words] in Hgoal. rewrite Hc in Hgoal.
    split; [done|]. rewrite Hgoal.
    destruct (Unicode.starts_class s); [by destruct (Unicode.class_words s)|done].
  - split; [done|].
    rewrite codes_rstrip_sep, IHt.
    destruct (Unicode.class_words s) as [|w ws] eqn:Hw; [done|].
    destruct (Unicode.join (w :: ws)) eqn:Hj; [|done].
    rewrite <-Hw in Hj. apply codes_join_empty_iff in Hj. congruence.
Qed.

(** The slug of the code is the slug in words, whatever [lower] is. *)
Lemma codes_slug_worded (lower : Unicode.str → Unicode.str) name :
  Unicode.slug lower name = Unicode.join (Unicode.class_words (lower name)).
Proof.
  unfold Unicode.slug, Unicode.strip. rewrite codes_lstrip_re_sub.
  apply codes_rstrip_re_sub.
Qed.

Lemma codes_shape_word w rest b :
  w ≠ [] → Forall (λ c, Unicode.in_class c = true) w →
  Unicode.shape b (w ++ rest) = Unicode.shape true rest.
Proof.
  revert b. induction w as [|c w IH]; intros b Hne Hw; [done|].
  apply Forall_cons in Hw as [Hc Hw]. cbn [app Unicode.shape]. rewrite Hc.
  destruct w as [|c' w']; [done|]. by apply IH.
Qed.

Lemma codes_shape_join b ws :
  ws ≠ [] →
  Forall (λ w, w ≠ [] ∧ Forall (λ c, Unicode.in_class c = true) w) ws →
  Unicode.shape b (Unicode.join ws) = true.
Proof.
  intros Hne Hws. revert b. induction Hws as [|w ws [Hw1 Hw2] Hws IH]; [done|].
  intros b. destruct ws as [|w' ws].
  - cbn [Unicode.join]. rewrite <-(app_nil_r w). by rewrite codes_shape_word.
  - rewrite codes_join_cons_cons, codes_shape_word by done.
    cbn [Unicode.shape]. change (Unicode.in_class Unicode.sep) with false.
    change (Unicode.sep =? Unicode.sep)%N with true. cbn [andb]. by apply IH.
Qed.

Lemma codes_shape_chars b s :
  Unicode.shape b s = true →
  Forall (λ c, Unicode.in_class c = true ∨ c = Unicode.sep) s.
Proof.
  revert b. induction s as [|c s IH]; intros b; [constructor|].
  cbn [Unicode.shape]. destruct (Unicode.in_class c) eqn:Hc.
  - intros Hs. constructor; [by left|by eapply IH].
  - rewrite !andb_true_iff. intros [[Hsep _] Hs].
    constructor; [right; by apply N.eqb_eq|by eapply IH].
Qed.

Lemma codes_shape_trailing_sep b t :
  Unicode.shape b (t ++ [Unicode.sep]) = false.
Proof.
  revert b. induction t as [|c t IH]; intros b.
  - by destruct b.
  - cbn [app Unicode.shape]. destruct (Unicode.in_class c); [done|].
    by rewrite IH, andb_false_r.
Qed.

Lemma codes_shape_double_sep b a t :
  Unicode.shape b (a ++ [Unicode.sep; Unicode.sep] ++ t) = false.
Proof.
  revert b. induction a as [|c a IH]; intros b.
  - by destruct b.
  - cbn [app Unicode.shape]. destruct (Unicode.in_class c); [done|].
    cbn [app] in IH. by rewrite IH, andb_false_r.
Qed.

(** The runs, one after the other, are the characters of the class, in
    the order of the string. *)
Lemma codes_class_words_concat (s : list N) :
  List.concat (Unicode.class_words s) = filter (λ c, Unicode.in_class c = true) s.
Proof.
  induction s as [|c s IH]; [done|]. cbn [Unicode.class_words].
  rewrite filter_cons. destruct (Unicode.in_class c) eqn:Hc.
  - rewrite decide_True by done. rewrite <-IH.
    destruct (Unicode.starts_class s) eqn:Hs; [|done].
    destruct (Unicode.class_words s) as [|w ws] eqn:Hw; [|done].
    by apply codes_starts_class_words in Hs.
  - by rewrite decide_False by congruence.
Qed.

(** The slug is empty or has the shape of a slug. *)
Lemma codes_slug_shape (lower : Unicode.str → Unicode.str) name :
  Unicode.slug lower name = [] ∨
  Unicode.shape false (Unicode.slug lower name) = true.
Proof.
  rewrite codes_slug_worded.
  destruct (Unicode.class_words (lower name)) as [|w ws] eqn:Hw; [by left|].
  right. rewrite <-Hw. apply codes_shape_join; [congruence|].
  apply codes_class_words_runs.
Qed.

(** *** Strings of code points below 256 *)

Lemma of_string_cons a (s : string) :
  Unicode.of_string (String a s) = N_of_ascii a :: Unicode.of_string s.
Proof. reflexivity. Qed.

Lemma of_string_app (s t : string) :
  Unicode.of_string (s +:+ t) = Unicode.of_string s ++ Unicode.of_string t.
Proof.
  unfold Unicode.of_string. by rewrite list_ascii_of_string_app, fmap_app.
Qed.

Lemma of_string_length (s : string) : length (Unicode.of_string s) = String.length s.
Proof.
  induction s as [|a s IH]; [done|]. rewrite of_string_cons. simpl. by rewrite IH.
Qed.

Lemma of_string_in_class a : Unicode.in_class (N_of_ascii a) = Py.in_class a.
Proof. by destruct a as [[] [] [] [] [] [] [] []]. Qed.

Lemma of_string_is_sep a : (N_of_ascii a =? Unicode.sep)%N = Ascii.eqb a "_".
Proof. by destruct a as [[] [] [] [] [] [] [] []]. Qed.

Lemma of_string_re_sub_from b (s : string) :
  Unicode.re_sub_from b (Unicode.of_string s)
  = Unicode.of_string (Py.re_sub_from b s).
Proof.
  revert b. induction s as [|a s IH]; intros b; [done|].
  rewrite of_string_cons. cbn [Unicode.re_sub_from Py.re_sub_from].
  rewrite of_string_in_class. destruct (Py.in_class a).
  - by rewrite of_string_cons, IH.
  - destruct b; [apply IH|]. rewrite of_string_cons, IH. done.
Qed.

Lemma lstrip_cons a (s : string) :
  Py.lstrip (String a s) = if Ascii.eqb a "_" then Py.lstrip s else String a s.
Proof. by destruct a as [[] [] [] [] [] [] [] []]. Qed.

Lemma of_string_lstrip (s : string) :
  Unicode.lstrip (Unicode.of_string s) = Unicode.of_string (Py.lstrip s).
Proof.
  induction s as [|a s IH]; [done|].
  rewrite lstrip_cons, of_string_cons. cbn [Unicode.lstrip].
  rewrite of_string_is_sep. by destruct (Ascii.eqb a "_").
Qed.

Lemma of_string_rstrip (s : string) :
  Unicode.rstrip (Unicode.of_string s) = Unicode.of_string (Py.rstrip s).
Proof.
  induction s as [|a s IH]; [done|].
  rewrite of_string_cons. cbn [Unicode.rstrip Py.rstrip].
  rewrite IH, of_string_is_sep.
  destruct (Py.rstrip s); [by destruct (Ascii.eqb a "_")|done].
Qed.

Lemma of_string_slug (lower : Unicode.str → Unicode.str) (s : string) :
  lower (Unicode.of_string s) = Unicode.of_string (Py.lower s) →
  Unicode.slug lower (Unicode.of_string s) = Unicode.of_string (slug s).
Proof.
  intros Hl. unfold Unicode.slug, slug, Unicode.strip, Py.strip,
    Unicode.re_sub, Py.re_sub.
  by rewrite Hl, of_string_re_sub_from, of_string_lstrip, of_string_rstrip.
Qed.

Lemma lower_below_256_of_string (s : string) :
  Unicode.lower_below_256 (Unicode.of_string s) = Unicode.of_string (Py.lower s).
Proof.
  induction s as [|a s IH]; [done|].
  rewrite of_string_cons. cbn [Py.lower]. rewrite of_string_cons, <-IH.
  unfold Unicode.lower_below_256. cbn [fmap list_fmap]. f_equal.
  by destruct a as [[] [] [] [] [] [] [] []].
Qed.

Lemma of_string_compare (s t : string) :
  Unicode.compare (Unicode.of_string s) (Unicode.of_string t) = String.compare s t.
Proof.
  revert t. induction s as [|a s IH]; intros [|b t]; try done.
  rewrite !of_string_cons. cbn [Unicode.compare String.compare].
  unfold Ascii.compare. by rewrite IH.
Qed.

Lemma codes_compare_app x y s t :
  length x = length y → Unicode.compare x y = Lt →
  Unicode.compare (x ++ s) (y ++ t) = Lt.
Proof.
  revert y. induction x as [|a x IH]; intros [|b y]; try done.
  cbn [length app Unicode.compare]. intros [= Hl].
  destruct (a ?= b)%N; [by apply IH|done|done].
Qed.

End UnicodeNames.

Section Generate.

Context {World : Type} {clk : Clock World}.

(** C9.  For every name, of any code points, and whatever [str.lower]
    gives for it, [generate(name)] returns the timestamp of the current
    time, a separator and the slug of the name, and changes nothing.  At
    a valid time, one with a year of four digits, the timestamp is 14
    decimal digits, and it is sortable: of two valid times the earlier
    one gives the smaller timestamp, and the smaller generated name, as
    strings.  The slug is made from the lowercased
    name: it is the maximal runs of characters of [a-z0-9] of the
    lowercased name, which together are its characters of that class in
    their order, joined by one separator each; every other character,
    letter or not, belongs to a run that is collapsed.  So the slug is
    made of characters of [a-z0-9] and separators, it neither starts nor
    ends with a separator, and it has no two separators in a row.  On a
    name of code points below 256 this is the [generate] and the [slug]
    above. *)
Theorem generate_stamp_and_lowered_slug
    (lower : Unicode.str → Unicode.str) (name : Unicode.str) st :
  Unicode.generate lower name st
  = (Returned (Unicode.of_string (strftime (datetime_now (world st)))
               ++ [Unicode.sep] ++ Unicode.slug lower name), st) ∧
  (valid_datetime (datetime_now (world st)) →
   String.length (strftime (datetime_now (world st))) = 14%nat ∧
   Forall (λ c, Py.is_digit c = true)
     (list_ascii_of_string (strftime (datetime_now (world st))))) ∧
  (∀ name' st',
     valid_datetime (datetime_now (world st)) →
     valid_datetime (datetime_now (world st')) →
     earlier (datetime_now (world st)) (datetime_now (world st')) →
     String.ltb (strftime (datetime_now (world st)))
                (strftime (datetime_now (world st'))) = true ∧
     ∃ s s', Unicode.generate lower name st = (Returned s, st) ∧
             Unicode.generate lower name' st' = (Returned s', st') ∧
             Unicode.ltb s s' = true) ∧
  Unicode.slug lower name = Unicode.join (Unicode.class_words (lower name)) ∧
  Forall (λ w, w ≠ [] ∧ Forall (λ c, Unicode.in_class c = true) w)
    (Unicode.class_words (lower name)) ∧
  List.concat (Unicode.class_words (lower name))
  = filter (λ c, Unicode.in_class c = true) (lower name) ∧
  Forall (λ c, Unicode.in_class c = true ∨ c = Unicode.sep)
    (Unicode.slug lower name) ∧
  (∀ t, Unicode.slug lower name ≠ Unicode.sep :: t) ∧
  (∀ t, Unicode.slug lower name ≠ t ++ [Unicode.sep]) ∧
  (∀ a t, Unicode.slug lower name ≠ a ++ [Unicode.sep; Unicode.sep] ++ t) ∧
  (∀ s : string,
     name = Unicode.of_string s →
     lower name = Unicode.of_string (Py.lower s) →
     Unicode.slug lower name = Unicode.of_string (slug s) ∧
     ∃ r, generate s st = (Returned r, st) ∧
          Unicode.generate lower name st = (Returned (Unicode.of_string r), st)).
Proof.
  assert (∀ t, Unicode.slug lower name ≠ Unicode.sep :: t) as Hhead.
  { intros t Heq. destruct (codes_slug_shape lower name) as [Hs|Hs];
      rewrite Heq in Hs; discriminate Hs. }
  assert (∀ t, Unicode.slug lower name ≠ t ++ [Unicode.sep]) as Htail.
  { intros t Heq. destruct (codes_slug_shape lower name) as [Hs|Hs];
      rewrite Heq in Hs; [by destruct t|].
    by rewrite codes_shape_trailing_sep in Hs. }
  assert (∀ a t, Unicode.slug lower name ≠ a ++ [Unicode.sep; Unicode.sep] ++ t)
    as Hdouble.
  { intros a t Heq. destruct (codes_slug_shape lower name) as [Hs|Hs];
      rewrite Heq in Hs; [by destruct a|].
    by rewrite codes_shape_double_sep in Hs. }
  split_and!; [reflexivity| | | | | | |assumption..|].
  - intros _. split; [apply strftime_length|apply strftime_digits].
  - intros name' st' Hv Hv' He.
    pose proof (strftime_sortable _ _ Hv Hv' He) as Hlt.
    split; [unfold String.ltb; by rewrite Hlt|].
    eexists _, _. split_and!; [done..|].
    unfold Unicode.ltb. rewrite codes_compare_app; [done| |].
    + by rewrite !of_string_length, !strftime_length.
    + by rewrite of_string_compare.
  - apply codes_slug_worded.
  - apply codes_class_words_runs.
  - apply codes_class_words_concat.
  - destruct (codes_slug_shape lower name) as [->|Hs]; [constructor|].
    by eapply codes_shape_chars.
  - intros s -> Hl. split; [by apply of_string_slug|].
    eexists. split; [reflexivity|].
    unfold Unicode.generate, bind, read, ret.
    rewrite (of_string_slug lower s Hl), !of_string_app. reflexivity.
Qed.

End Generate.

(** ** Concrete runs on the journal backend *)

Lemma journal_times :
  datetime_now (world Journal.fresh)
  = {| year := 2024; month := 1; day := 2; hour := 3; minute := 4; second := 0;
       microsecond := 0 |} ∧
  datetime_now (world Journal.migrated)
  = {| year := 2024; month := 1; day := 2; hour := 3; minute := 4; second := 3;
       microsecond := 0 |}.
Proof. vm_compute. done. Qed.

(** C9 on the name of the specification's example, at two times three
    seconds apart. *)
Lemma generate_stamp_and_lowered_slug_witness :
  Unicode.generate Unicode.lower_below_256
    (Unicode.of_string "Add Age Column") Journal.fresh
  = (Returned (Unicode.of_string (strftime (datetime_now (world Journal.fresh)))
               ++ [Unicode.sep]
               ++ Unicode.slug Unicode.lower_below_256
                    (Unicode.of_string "Add Age Column")), Journal.fresh) ∧
  Unicode.slug Unicode.lower_below_256 (Unicode.of_string "Add Age Column")
  = Unicode.of_string (slug "Add Age Column") ∧
  String.length (strftime (datetime_now (world Journal.fresh))) = 14%nat ∧
  String.ltb (strftime (datetime_now (world Journal.fresh)))
             (strftime (datetime_now (world Journal.migrated))) = true.
Proof.
  destruct (generate_stamp_and_lowered_slug Unicode.lower_below_256
              (Unicode.of_string "Add Age Column") Journal.fresh)
    as (Hgen & Hshape & Hsort & _ & _ & _ & _ & _ & _ & _ & Hlatin).
  destruct journal_times as [Hfresh Hmigrated].
  assert (valid_datetime (datetime_now (world Journal.fresh))) as Hv
    by (rewrite Hfresh; unfold valid_datetime; simpl; lia).
  split; [exact Hgen|]. split; [|split].
  - apply (Hlatin "Add Age Column" eq_refl).
    apply lower_below_256_of_string.
  - apply (Hshape Hv).
  - apply (Hsort (Unicode.of_string "Drop Age Column") Journal.migrated).
    + exact Hv.
    + rewrite Hmigrated. unfold valid_datetime. simpl. lia.
    + rewrite Hfresh, Hmigrated. unfold earlier. simpl. lia.
Defined.

Example generate_codes_add_age_column :
  fst (Unicode.generate Unicode.lower_below_256
         (Unicode.of_string "Add Age Column") Journal.fresh)
  = Returned (Unicode.of_string "20240102030400_add_age_column").
Proof. vm_compute. reflexivity. Qed.

(** Names with code points from 256 on.  [str.lower] maps the Kelvin
    sign U+212A to [k], and the capital I with dot U+0130 to [i] followed
    by the combining dot U+0307. *)
Example slug_kelvin_sign (lower : Unicode.str → Unicode.str) :
  lower [8490%N] = [107%N] →
  Unicode.slug lower [8490%N] = Unicode.of_string "k".
Proof. intros Hl. unfold Unicode.slug. rewrite Hl. reflexivity. Qed.

Example slug_capital_i_with_dot (lower : Unicode.str → Unicode.str) :
  lower (304%N :: Unicode.of_string "stanbul")
  = 105%N :: 775%N :: Unicode.of_string "stanbul" →
  Unicode.slug lower (304%N :: Unicode.of_string "stanbul")
  = Unicode.of_string "i_stanbul".
Proof. intros Hl. unfold Unicode.slug. rewrite Hl. reflexivity. Qed.

(** The name [Café], with U+00E9 as its last character. *)
Definition cafe : string := "Caf" +:+ String (Py.chr 233) EmptyString.

(** C9 as stated fails.  Every character of [Café] is alphanumeric, so
    the name has no run of other characters to collapse and its slug
    would be its lowercase form; the slug of the code is [caf]: the
    letter U+00E9 is outside [a-z0-9] and goes with the separators. *)
Lemma slug_drops_accented_letter_counterexample :
  forallb Py.isalnum (list_ascii_of_string cafe) = true ∧
  Py.lower cafe = "caf" +:+ String (Py.chr 233) EmptyString ∧
  slug cafe = "caf" ∧
  fst (generate (World:=Journal.World) cafe Journal.fresh)
  = Returned "20240102030400_caf" ∧
  Unicode.slug Unicode.lower_below_256 (Unicode.of_string cafe)
  = Unicode.of_string "caf".
Proof. vm_compute. done. Qed.

Example generate_add_age_column :
  fst (generate "Add Age Column" Journal.fresh)
  = Returned "20240102030400_add_age_column" ∧
  fst (generate "  --Add  Age__Column!! " Journal.migrated)
  = Returned "20240102030403_add_age_column" ∧
  slug "___" = "" ∧ slug "2nd Try" = "2nd_try".
Proof. vm_compute. done. Qed.


Lemma registered_wf ms : catalog_wf (self (Journal.registered ms)).
Proof.
  unfold Journal.registered.
  assert (∀ st : State Journal.World, catalog_wf (self st) →
            catalog_wf (self (fold_left (λ st m, Journal.exec (register m) st) ms st)))
    as Hfold.
  { induction ms as [|m ms IH]; intros st Hst; simpl; [done|].
    apply IH. by apply register_wf. }
  apply Hfold, new_Migrator_wf.
Qed.

Lemma exec_migrate_wf target (st : State Journal.World) :
  catalog_wf (self st) → catalog_wf (self (Journal.exec (migrate target) st)).
Proof.
  intros Hwf. unfold Journal.exec.
  destruct (migrate_runs target st Hwf)
    as (w1 & rs & st2 & w3 & rest & _ & _ & _ & -> & Heff).
  apply Heff.
Qed.

Lemma bad_up_run_successes :
  match fst (migrate None (Journal.registered
                             [Journal.m1; Journal.m2_bad_up; Journal.m3])) with
  | Returned rs => success <$> rs
  | Raised _ => []
  end = [true; false].
Proof. vm_compute. reflexivity. Qed.

(** C1 on the catalog {001, 002, 003} whose 002 has a forward body that
    raises. *)
Lemma migrate_stops_at_first_failure_witness :
  ∃ rs st' oks rf rest,
    migrate None (Journal.registered [Journal.m1; Journal.m2_bad_up; Journal.m3])
    = (Returned rs, st') ∧
    rs = oks ++ [rf] ∧
    Forall (λ r, success r = true) oks ∧ success rf = false ∧
    pending_versions
      (self (Journal.registered [Journal.m1; Journal.m2_bad_up; Journal.m3]))
    = (res_version <$> oks) ++ (res_version rf :: rest) ∧
    pending_versions (self st') = res_version rf :: rest.
Proof.
  destruct (migrate_stops_at_first_failure None
              (Journal.registered [Journal.m1; Journal.m2_bad_up; Journal.m3])
              (registered_wf _))
    as (rs & st' & Hmig & Hfail).
  destruct Hfail as (oks & rf & rest & H1 & H2 & H3 & H4 & _ & _ & H6 & _).
  { pose proof bad_up_run_successes as Hs. rewrite Hmig in Hs. cbn [fst] in Hs.
    destruct rs as [|r1 [|r2 [|r3 rs]]]; try discriminate Hs.
    exists r2. split; [right; left|].
    injection Hs as _ Hs. exact Hs. }
  exists rs, st', oks, rf, rest.
  repeat (split; [assumption|]). assumption.
Defined.

Example migrate_failure_run :
  let st := Journal.registered [Journal.m1; Journal.m2_bad_up; Journal.m3] in
  let '(out, st') := migrate None st in
  (match out with
   | Returned rs => (λ r, (res_version r, success r)) <$> rs
   | Raised _ => []
   end) = [("001", true); ("002", false)] ∧
  store_applied (store (self st')) = ["001"] ∧
  pending_versions (self st') = ["002"; "003"] ∧
  world st' = ["CREATE TABLE users"].
Proof. vm_compute. done. Qed.




Example migrate_with_raising_hook :
  let '(out, st') := Signals.migrate Journal.raising_registry None Journal.usage in
  (match out with
   | Signals.Ended (Returned rs) => (λ r, (res_version r, success r)) <$> rs
   | _ => []
   end) = [("001", true); ("002", true); ("003", true)] ∧
  store_applied (store (self st')) = ["001"; "002"; "003"] ∧
  pending_versions (self st') = [] ∧
  world st' = ["hook"; "CREATE TABLE users";
               "ALTER TABLE users ADD COLUMN age INTEGER"; "CREATE TABLE posts"] ∧
  migrate None (Journal.exec (add_hook "before_migrate" Journal.raising_hook)
                  Journal.usage)
  = (match out with
     | Signals.Ended o => o
     | Signals.Escaped _ => Raised ""
     end,
     Journal.exec (add_hook "before_migrate" Journal.raising_hook) st').
Proof. vm_compute. done. Qed.


(** C4 on the catalog {001, 002, 003} with target 002. *)
Lemma migrate_up_to_target_witness :
  ∃ rs st',
    migrate (Some "002") Journal.usage = (Returned rs, st') ∧
    (res_version <$> rs)
      `prefix_of` filter (λ v, Py.str_gt v "002" = false)
                    (pending_versions (self Journal.usage)) ∧
    fail_fast rs.
Proof.
  destruct (migrate_up_to_target "002" Journal.usage (registered_wf _) eq_refl)
    as (rs & st' & H1 & H2 & H3 & _).
  exists rs, st'. repeat (split; [assumption|]). assumption.
Defined.

Example migrate_target_002 :
  let '(out, st') := migrate (Some "002") Journal.usage in
  (match out with
   | Returned rs => (λ r, (res_version r, success r)) <$> rs
   | Raised _ => []
   end) = [("001", true); ("002", true)] ∧
  store_applied (store (self st')) = ["001"; "002"] ∧
  pending_versions (self st') = ["003"].
Proof. vm_compute. done. Qed.

(** C4 as stated fails twice.  The empty string is a target that is
    given, and no version is executed only if it does not exceed it: all
    three are executed, though 001 exceeds the empty string.  And with
    target 003 and a failing 002, version 003 does not exceed the target
    and is not executed. *)
Lemma migrate_target_counterexample :
  (match fst (migrate (Some "") Journal.usage) with
   | Returned rs => res_version <$> rs
   | Raised _ => []
   end = ["001"; "002"; "003"] ∧
   Py.str_gt "001" "" = true) ∧
  (match fst (migrate (Some "003")
                (Journal.registered [Journal.m1; Journal.m2_bad_up; Journal.m3])) with
   | Returned rs => res_version <$> rs
   | Raised _ => []
   end = ["001"; "002"] ∧
   Py.str_gt "003" "003" = false).
Proof. vm_compute. done. Qed.

Lemma migrated_wf : catalog_wf (self Journal.migrated).
Proof. apply exec_migrate_wf, registered_wf. Qed.

Lemma migrated_NoDup : NoDup (store_applied (store (self Journal.migrated))).
Proof. apply (bool_decide_unpack _). vm_compute. exact I. Qed.

Lemma migrated_known v :
  v ∈ store_applied (store (self Journal.migrated)) →
  is_Some (migrations (self Journal.migrated) !! v).
Proof.
  revert v. apply Forall_forall. apply (bool_decide_unpack _). vm_compute. exact I.
Qed.

(** C3 on the catalog {001, 002, 003}, all applied, with two steps. *)
Lemma rollback_walks_steps_witness :
  ∃ rs st',
    rollback 2 Journal.migrated = (Returned rs, st') ∧
    (res_version <$> rs)
      `prefix_of` known (self Journal.migrated)
                    (take 2 (rev (store_applied (store (self Journal.migrated))))) ∧
    fail_fast rs.
Proof.
  destruct (rollback_walks_steps 2 Journal.migrated migrated_wf migrated_NoDup)
    as (rs & st' & H1 & H2 & H3 & _).
  exists rs, st'. repeat (split; [assumption|]). assumption.
Defined.

Example rollback_one_step :
  let '(out, st') := rollback 1 Journal.migrated in
  (match out with
   | Returned rs => (λ r, (res_version r, direction r, success r)) <$> rs
   | Raised _ => []
   end) = [("003", "down", true)] ∧
  store_applied (store (self st')) = ["001"; "002"] ∧
  status <$> migrations (self st') !! "003" = Some ROLLED_BACK.
Proof. vm_compute. done. Qed.

Example rollback_two_steps :
  let '(out, st') := rollback 2 Journal.migrated in
  (match out with
   | Returned rs => (λ r, (res_version r, direction r, success r)) <$> rs
   | Raised _ => []
   end) = [("003", "down", true); ("002", "down", true)] ∧
  store_applied (store (self st')) = ["001"].
Proof. vm_compute. done. Qed.

(** C3 as stated fails: 009 is applied and not in the catalog, 001 is
    applied and in the catalog.  [rollback(1)] passes over 009 and stops:
    the one step is used up, nothing is attempted and 001 stays applied.
    Two steps are needed for one attempt. *)
Lemma rollback_skip_uses_step_counterexample :
  (store_applied (store (self Journal.orphaned)) = ["001"; "009"] ∧
   version <$> migrations (self Journal.orphaned) !! "001" = Some "001" ∧
   migrations (self Journal.orphaned) !! "009" = None) ∧
  (match fst (rollback 1 Journal.orphaned) with
   | Returned rs => Some (res_version <$> rs)
   | Raised _ => None
   end = Some [] ∧
   store_applied (store (self (snd (rollback 1 Journal.orphaned)))) = ["001"; "009"]) ∧
  match fst (rollback 2 Journal.orphaned) with
  | Returned rs => Some (res_version <$> rs)
  | Raised _ => None
  end = Some ["001"].
Proof. vm_compute. done. Qed.

Lemma rollback_to_001_successes :
  succeeded (match fst (rollback_to "001" Journal.migrated) with
             | Returned rs => rs
             | Raised _ => []
             end) = ["003"; "002"] ∧
  store_applied (store (self Journal.migrated)) = ["001"; "002"; "003"].
Proof. vm_compute. done. Qed.

(** C5 on the catalog {001, 002, 003}, all applied, with target 001: the
    backward executions of 003 and 002 succeed, and afterwards 003 and
    002 are not applied any more while 001 still is. *)
Lemma rollback_to_walks_above_target_witness :
  ∃ rs st',
    rollback_to "001" Journal.migrated = (Returned rs, st') ∧
    succeeded rs = ["003"; "002"] ∧
    is_applied "003" (store (self st')) = false ∧
    is_applied "002" (store (self st')) = false ∧
    is_applied "001" (store (self st')) = true.
Proof.
  destruct (rollback_to_walks_above_target "001" Journal.migrated
              migrated_wf migrated_NoDup migrated_known)
    as (rs & st' & rest & H1 & _ & _ & _ & _ & _ & _ & Hiff & _ & _ & _).
  destruct rollback_to_001_successes as [Hsucc Happlied].
  rewrite H1 in Hsucc. cbn [fst] in Hsucc.
  exists rs, st'. split; [assumption|]. split; [assumption|].
  rewrite Hsucc, Happlied in Hiff. clear H1 Hsucc Happlied.
  split; [|split].
  - apply is_applied_false. rewrite Hiff. intros [_ Hn]. apply Hn.
    apply elem_of_cons. left. reflexivity.
  - apply is_applied_false. rewrite Hiff. intros [_ Hn]. apply Hn.
    apply elem_of_cons. right. apply elem_of_cons. left. reflexivity.
  - apply is_applied_true. rewrite Hiff. split.
    + apply elem_of_cons. left. reflexivity.
    + rewrite !elem_of_cons, elem_of_nil. intros [Heq|[Heq|[]]]; discriminate Heq.
Defined.

Example rollback_to_001 :
  let '(out, st') := rollback_to "001" Journal.migrated in
  (match out with
   | Returned rs => (λ r, (res_version r, direction r, success r)) <$> rs
   | Raised _ => []
   end) = [("003", "down", true); ("002", "down", true)] ∧
  store_applied (store (self st')) = ["001"] ∧
  world st' = world Journal.migrated ++ ["DROP TABLE posts";
                                         "ALTER TABLE users DROP COLUMN age"].
Proof. vm_compute. done. Qed.

(** C10 on the catalog {001, 002, 003}, all applied. *)
Lemma rollback_to_leaves_status_witness :
  (∃ rs st',
     rollback_to "001" Journal.migrated = (Returned rs, st') ∧
     migrations (self st') = migrations (self Journal.migrated)) ∧
  (∃ rs st',
     rollback 1 Journal.migrated = (Returned rs, st') ∧
     ∀ r, r ∈ rs →
          ∃ m', migrations (self st') !! res_version r = Some m' ∧
                status m' = if success r then ROLLED_BACK else FAILED).
Proof.
  destruct (rollback_to_leaves_status "001" 1 Journal.migrated) as [Hto Hrb].
  split.
  - destruct Hto as (rs & st' & H1 & H2 & _). exists rs, st'. split; assumption.
  - apply Hrb; [exact migrated_wf | exact migrated_NoDup].
Defined.

Example rollback_to_status_unchanged :
  let st_ok := Journal.exec (rollback_to "001") Journal.migrated in
  let st_bad := Journal.exec (rollback_to "002") Journal.migrated_bad_down in
  (status <$> migrations (self Journal.migrated) !! "003" = Some APPLIED ∧
   status <$> migrations (self st_ok) !! "003" = Some APPLIED ∧
   store_applied (store (self st_ok)) = ["001"]) ∧
  (status <$> migrations (self st_bad) !! "003" = Some APPLIED ∧
   store_applied (store (self st_bad)) = ["001"; "002"; "003"]) ∧
  status <$> migrations (self (Journal.exec (rollback 1) Journal.migrated_bad_down)) !! "003"
  = Some FAILED.
Proof. vm_compute. done. Qed.

(** C2 fails on the code: 003 is walked first and its backward body
    raises; [rollback_to] goes on, rolls back 002 and 001, and leaves 003,
    the latest version, as the only applied one.  [rollback] with enough
    steps stops at the failure. *)
Theorem rollback_to_continues_after_failure :
  (let '(out, st') := rollback_to "000" Journal.migrated_bad_down in
   (match out with
    | Returned rs => (λ r, (res_version r, success r)) <$> rs
    | Raised _ => []
    end) = [("003", false); ("002", true); ("001", true)] ∧
   store_applied (store (self st')) = ["003"]) ∧
  (let '(out, st') := rollback 3 Journal.migrated_bad_down in
   (match out with
    | Returned rs => (λ r, (res_version r, success r)) <$> rs
    | Raised _ => []
    end) = [("003", false)] ∧
   store_applied (store (self st')) = ["001"; "002"; "003"]).
Proof. vm_compute. done. Qed.

(** * Further properties of the code *)

(** ** The store: round trip and history invariant *)

Section StoreMore.

Context {World : Type}.
Implicit Types (s : MigrationStore World) (v : string).

Lemma list_remove_snoc_fresh v (l : list string) :
  v ∉ l → list_remove v (l ++ [v]) = l.
Proof.
  induction l as [|y l IH]; simpl; intros Hv.
  - by rewrite decide_True.
  - apply not_elem_of_cons in Hv as [Hvy Hv].
    rewrite decide_False by done. f_equal. by apply IH.
Qed.

(** X1.  On a store that does not list [v], [mark_rolled_back v] undoes
    [mark_applied v]: the store is again exactly what it was. *)
Theorem mark_rolled_back_undoes_mark_applied v s :
  is_applied v s = false → mark_rolled_back v (mark_applied v s) = s.
Proof.
  intros Hv%is_applied_false. unfold mark_applied. rewrite decide_False by done.
  unfold mark_rolled_back. cbn [store_applied store_migrations].
  rewrite decide_True by (apply elem_of_app; right; by left).
  rewrite list_remove_snoc_fresh by done. by destruct s.
Qed.

(** X2.  A store reached from a fresh one through [mark_applied] and
    [mark_rolled_back] never lists a version twice, so that after
    [mark_rolled_back v] the version is not applied any more.  On every
    store both calls leave the answer of [is_applied] for any other
    version as it was. *)
Theorem store_history_invariant (ops : list LedgerOp) v :
  NoDup (store_applied (ledger_run (World:=World) ops)) ∧
  is_applied v (mark_rolled_back v (ledger_run (World:=World) ops)) = false ∧
  (∀ s v', v' ≠ v →
     is_applied v' (mark_applied v s) = is_applied v' s ∧
     is_applied v' (mark_rolled_back v s) = is_applied v' s).
Proof.
  split_and!.
  - apply ledger_run_NoDup.
  - apply is_applied_false. rewrite mark_rolled_back_applied.
    apply list_remove_NoDup_gone, ledger_run_NoDup.
  - intros s v' Hne. unfold is_applied. split; apply bool_decide_ext.
    + rewrite mark_applied_applied. naive_solver.
    + rewrite mark_rolled_back_applied. split.
      * apply list_remove_subseteq.
      * by apply list_remove_other.
Qed.

End StoreMore.

(** X1 on the store that lists 001, for 002. *)
Lemma mark_rolled_back_undoes_mark_applied_witness :
  mark_rolled_back "002"
    (mark_applied "002" (ledger_run (World:=Journal.World) [MarkApplied "001"]))
  = ledger_run [MarkApplied "001"].
Proof.
  apply (mark_rolled_back_undoes_mark_applied (World:=Journal.World)). reflexivity.
Defined.

(** A store that lists a version twice, which the methods never
    produce, shows what the invariant is for: one [mark_rolled_back]
    leaves the version applied. *)
Example duplicate_entry_survives_rollback :
  is_applied "001"
    (mark_rolled_back "001"
       {| store_migrations := (∅ : gmap string (Migration Journal.World));
          store_applied := ["001"; "001"] |}) = true.
Proof. reflexivity. Qed.

(** ** The Builder *)

Section BuilderMore.

Context {World : Type}.

(** One call on a builder. *)
Inductive BuilderCall : Type :=
  | CallUp (sql : string)
  | CallDown (sql : string)
  | CallUpFn (fn : Proc World)
  | CallDownFn (fn : Proc World).

Definition builder_call (b : MigrationBuilder World) (c : BuilderCall)
    : MigrationBuilder World :=
  match c with
  | CallUp sql => up sql b
  | CallDown sql => down sql b
  | CallUpFn fn => builder_up_fn fn b
  | CallDownFn fn => builder_down_fn fn b
  end.

(** [create(version, name).c1(...).c2(...) ... .build()] *)
Definition built (v n : string) (calls : list BuilderCall) : Migration World :=
  build (fold_left builder_call calls (create v n)).

(** The payload the last [up] call of a chain gave, if any. *)
Definition last_up (calls : list BuilderCall) : option string :=
  last (omap (λ c, match c with CallUp sql => Some sql | _ => None end) calls).

Definition last_down (calls : list BuilderCall) : option string :=
  last (omap (λ c, match c with CallDown sql => Some sql | _ => None end) calls).

Lemma created_checksum v n :
  checksum (migration (create (World:=World) v n)) = "d41d8cd9".
Proof. vm_compute. reflexivity. Qed.

Lemma built_snoc v n calls c :
  built v n (calls ++ [c])
  = migration (builder_call {| migration := built v n calls |} c).
Proof.
  unfold built, build. rewrite fold_left_app. simpl.
  by destruct (fold_left builder_call calls (create v n)).
Qed.

Lemma omap_snoc {A B} (f : A → option B) (l : list A) (x : A) :
  omap f (l ++ [x]) = omap f l ++ match f x with Some y => [y] | None => [] end.
Proof. rewrite omap_app. simpl. by destruct (f x). Qed.

(** X3.  Whatever calls are chained on a builder, the Migration it builds
    has the version and name it was created with, is pending and has no
    application time; its payloads are those of the last [up] and of the
    last [down] call (empty without one); and its checksum is the one
    computed at creation, that of the empty content, whatever payloads
    were set afterwards. *)
Theorem built_migration_fields v n (calls : list BuilderCall) :
  version (built v n calls) = v ∧
  name (built v n calls) = n ∧
  status (built v n calls) = PENDING ∧
  applied_at (built v n calls) = None ∧
  up_sql (built v n calls) = default "" (last_up calls) ∧
  down_sql (built v n calls) = default "" (last_down calls) ∧
  checksum (built v n calls) = "d41d8cd9".
Proof.
  induction calls as [|c calls IH] using rev_ind.
  - split_and!; [reflexivity..|apply created_checksum].
  - destruct IH as (Hv & Hn & Hs & Ha & Hu & Hd & Hc).
    rewrite built_snoc. unfold last_up, last_down. rewrite !omap_snoc.
    destruct c; simpl; rewrite ?last_snoc, ?app_nil_r; by split_and!.
Qed.

End BuilderMore.

(** A chain with two [up] calls, next to the direct construction with
    the same payloads. *)
Example built_twice_up :
  let m := built (World:=Journal.World) "004" "tags"
             [CallUp "CREATE TABLE t"; CallDown "DROP TABLE tags";
              CallUp "CREATE TABLE tags"] in
  up_sql m = "CREATE TABLE tags" ∧ down_sql m = "DROP TABLE tags" ∧
  checksum m = "d41d8cd9" ∧
  checksum (new_Migration (World:=Journal.World) "004" "tags" "CREATE TABLE tags"
              "DROP TABLE tags" None None "" None PENDING) = "f78c3993".
Proof. vm_compute. done. Qed.

(** ** The runner *)

Section RunnerMore.

Context {World : Type} {clk : Clock World}.
Implicit Types (st : State World) (m : Migration World) (rn : MigrationRunner World).

(** The error text a call leaves in a result. *)
Definition error_of {A} (o : Outcome A) : option string :=
  match o with
  | Returned _ => None
  | Raised e => Some e
  end.

(** X4.  [run_up] and [run_down] never raise and change nothing but the
    world.  The result carries the version and the name of the Migration
    and the direction, and it reports success exactly when it carries no
    error text. *)
Theorem runner_reports_every_outcome rn m st :
  (∃ r w, run_up rn m st = (Returned r, set_world w st) ∧
          res_version r = version m ∧ res_name r = name m ∧
          direction r = "up" ∧ (success r = true ↔ error r = None)) ∧
  (∃ r w, run_down rn m st = (Returned r, set_world w st) ∧
          res_version r = version m ∧ res_name r = name m ∧
          direction r = "down" ∧ (success r = true ↔ error r = None)).
Proof.
  split.
  - unfold run_up, bind, try_except, read, call, ret.
    destruct (up_fn m) as [fn|].
    + destruct (fn (world st)) as [[[]|e] w]; simpl;
        eexists _, w; by split_and!.
    + destruct (Py.truthy (up_sql m)).
      * destruct (executor rn (up_sql m) (world st)) as [[[]|e] w]; simpl;
          eexists _, w; by split_and!.
      * simpl. eexists _, (world st). rewrite set_world_id. by split_and!.
  - unfold run_down, bind, try_except, read, call, ret.
    destruct (down_fn m) as [fn|].
    + destruct (fn (world st)) as [[[]|e] w]; simpl;
        eexists _, w; by split_and!.
    + destruct (Py.truthy (down_sql m)).
      * destruct (executor rn (down_sql m) (world st)) as [[[]|e] w]; simpl;
          eexists _, w; by split_and!.
      * simpl. eexists _, (world st). rewrite set_world_id. by split_and!.
Qed.

(** X5.  A procedure takes precedence over the payload: when the
    Migration has a forward procedure, [run_up] gives the same result and
    world whatever the forward payload and the backend handler are; the
    world is the one the procedure leaves and the error text is the
    message it raised.  The same holds backward. *)
Theorem procedure_takes_precedence rn m st :
  (∀ fn, up_fn m = Some fn →
     (∀ rn' sql, run_up rn' (set_up_sql sql m) st = run_up rn m st) ∧
     ∃ r, run_up rn m st = (Returned r, set_world (snd (fn (world st))) st) ∧
          error r = error_of (fst (fn (world st)))) ∧
  (∀ fn, down_fn m = Some fn →
     (∀ rn' sql, run_down rn' (set_down_sql sql m) st = run_down rn m st) ∧
     ∃ r, run_down rn m st = (Returned r, set_world (snd (fn (world st))) st) ∧
          error r = error_of (fst (fn (world st)))).
Proof.
  split; intros fn Hfn.
  - split.
    + intros rn' sql. unfold run_up. cbn [up_fn set_up_sql version name].
      by rewrite Hfn.
    + unfold run_up, bind, try_except, read, call, ret. rewrite Hfn.
      destruct (fn (world st)) as [[[]|e] w]; simpl; by eexists.
  - split.
    + intros rn' sql. unfold run_down. cbn [down_fn set_down_sql version name].
      by rewrite Hfn.
    + unfold run_down, bind, try_except, read, call, ret. rewrite Hfn.
      destruct (fn (world st)) as [[[]|e] w]; simpl; by eexists.
Qed.

(** X6.  A direction without a body is reported as a success: with no
    forward procedure and an empty forward payload [run_up] calls nothing,
    leaves the state as it is and returns a successful result, whatever
    the backend handler is; the same holds backward. *)
Theorem empty_body_is_success rn m st :
  (up_fn m = None → up_sql m = "" →
   ∃ r, run_up rn m st = (Returned r, st) ∧ success r = true ∧ error r = None) ∧
  (down_fn m = None → down_sql m = "" →
   ∃ r, run_down rn m st = (Returned r, st) ∧ success r = true ∧ error r = None).
Proof.
  split; intros Hfn Hsql.
  - unfold run_up, bind, try_except, read, call, ret. rewrite Hfn, Hsql. simpl.
    by eexists.
  - unfold run_down, bind, try_except, read, call, ret. rewrite Hfn, Hsql. simpl.
    by eexists.
Qed.

End RunnerMore.

(** ** The catalog: [register], [pending], [applied], [status] *)

Section CatalogMore.

Context {World : Type} {clk : Clock World}.
Implicit Types (st : State World) (m : Migration World) (mg : Migrator World).

(** The summary [Migrator.status] returns; the fields are the keys of
    the dictionary. *)
Record StatusSummary : Type := {
  applied_count : nat;
  pending_count : nat;
  status_applied : list string;
  status_pending : list string;
  latest : option string
}.

(** [Migrator.status] *)
Definition migrator_status (mg : Migrator World) : StatusSummary :=
  let applied := get_applied (store mg) in
  let pending := pending mg in
  {| applied_count := length applied;
     pending_count := length pending;
     status_applied := applied;
     status_pending := version <$> pending;
     latest := last applied |}.

(** X7.  [register] files the Migration under its version: a lookup of
    that version gives it back, the other catalog entries, the store, the
    runner, the hooks and the world are untouched, and a catalog keyed by
    version stays so.  Registering a second Migration with the same
    version replaces the first: the migrator is the one registering the
    second alone gives. *)
Theorem register_overwrites_by_version m st :
  (∃ st', register m st = (Returned tt, st') ∧
          world st' = world st ∧
          store (self st') = store (self st) ∧
          runner (self st') = runner (self st) ∧
          hooks (self st') = hooks (self st) ∧
          migrations (self st') !! version m = Some m ∧
          (∀ k, k ≠ version m →
                migrations (self st') !! k = migrations (self st) !! k) ∧
          (catalog_wf (self st) → catalog_wf (self st'))) ∧
  (∀ m0, version m0 = version m →
         snd (register m (snd (register m0 st))) = snd (register m st)).
Proof.
  split.
  - eexists. split; [reflexivity|].
    cbn [register modify_self snd self world set_self set_migrations
         migrations store runner hooks].
    split_and!; try done.
    + apply lookup_insert_eq.
    + intros k Hk. by apply lookup_insert_ne.
    + apply (register_wf m st).
  - intros m0 Hv.
    cbn [register modify_self snd self world set_self set_migrations
         migrations store runner hooks].
    rewrite Hv. by rewrite insert_insert_eq.
Qed.

Lemma omap_lookup_versions (ms : gmap string (Migration World)) (l : list string) :
  (∀ k m, ms !! k = Some m → version m = k) →
  (∀ k, k ∈ l → is_Some (ms !! k)) →
  version <$> omap (λ v, ms !! v) l = l.
Proof.
  intros Hwf. induction l as [|k l IH]; intros Hl; [done|].
  destruct (Hl k) as [m Hm]; [by left|].
  cbn [omap list_omap]. rewrite Hm. cbn [fmap list_fmap].
  f_equal; [by apply Hwf|]. apply IH. intros k' Hk'. apply Hl. by right.
Qed.

(** X8.  On a catalog keyed by version, [pending] returns the catalog's
    own Migration objects, each once, in ascending order of version, and
    a version is among them exactly when it is a key of the catalog that
    the store does not list.  With an empty store these are all the keys
    of the catalog. *)
Theorem pending_is_sorted_unapplied_catalog mg :
  catalog_wf mg →
  (∀ m, m ∈ pending mg → migrations mg !! version m = Some m) ∧
  StronglySorted String.le (version <$> pending mg) ∧
  NoDup (version <$> pending mg) ∧
  (∀ k, k ∈ version <$> pending mg ↔
        is_Some (migrations mg !! k) ∧ k ∉ store_applied (store mg)) ∧
  (store_applied (store mg) = [] →
   version <$> pending mg = sorted (map_to_list (migrations mg)).*1).
Proof.
  intros Hwf.
  assert (version <$> pending mg = pending_versions mg) as Hvs.
  { unfold pending. apply omap_lookup_versions; [done|].
    intros k Hk. by apply elem_of_pending_versions in Hk as [? _]. }
  rewrite Hvs. split_and!.
  - intros m Hm. unfold pending in Hm.
    apply list_elem_of_omap in Hm as (k & _ & Hk).
    by rewrite (Hwf _ _ Hk).
  - apply pending_versions_sorted.
  - apply pending_versions_NoDup.
  - apply elem_of_pending_versions.
  - intros Hs. unfold pending_versions, get_applied. rewrite Hs.
    apply list_difference_none. intros x _. apply not_elem_of_nil.
Qed.

(** X9.  On a catalog keyed by version, [applied] returns the Migrations
    of the versions the store lists, in the order of the store; a listed
    version that is not a key of the catalog is left out without an
    error. *)
Theorem applied_skips_unknown_versions mg :
  catalog_wf mg →
  version <$> applied mg = known mg (store_applied (store mg)) ∧
  (∀ m, m ∈ applied mg → migrations mg !! version m = Some m ∧
                         version m ∈ store_applied (store mg)).
Proof.
  intros Hwf. unfold applied, get_applied. split.
  - induction (store_applied (store mg)) as [|k l IH]; [done|].
    cbn [omap list_omap]. destruct (migrations mg !! k) as [m|] eqn:Hk.
    + rewrite known_cons_in by by eexists.
      cbn [fmap list_fmap]. f_equal; [by apply Hwf | exact IH].
    + by rewrite known_cons_out.
  - intros m Hm. apply list_elem_of_omap in Hm as (k & Hin & Hk).
    by rewrite (Hwf _ _ Hk).
Qed.

Lemma list_difference_length (l k : list string) :
  NoDup l → NoDup k → (∀ x, x ∈ k → x ∈ l) →
  (length (list_difference l k) + length k = length l)%nat.
Proof.
  intros Hl Hk Hsub. rewrite <-length_app. apply Permutation_length.
  apply NoDup_Permutation; [|done|].
  - apply NoDup_app. split_and!; [by apply NoDup_list_difference| |done].
    intros x Hx. by apply list_elem_of_difference in Hx as [_ ?].
  - intros x. rewrite elem_of_app, list_elem_of_difference.
    destruct (decide (x ∈ k)); naive_solver.
Qed.

(** X10.  When the store lists no version twice and only keys of a
    catalog keyed by version, the two counts of [status] add up to the
    size of the catalog; every key of the catalog is in exactly one of
    the two version lists; and [latest] is the version applied last,
    absent exactly when nothing is applied. *)
Theorem status_counts_add_up mg :
  catalog_wf mg →
  NoDup (store_applied (store mg)) →
  (∀ v, v ∈ store_applied (store mg) → is_Some (migrations mg !! v)) →
  (applied_count (migrator_status mg) + pending_count (migrator_status mg)
   = size (migrations mg))%nat ∧
  (∀ k, is_Some (migrations mg !! k) ↔
        k ∈ status_applied (migrator_status mg) ∨
        k ∈ status_pending (migrator_status mg)) ∧
  (∀ k, k ∈ status_applied (migrator_status mg) →
        k ∉ status_pending (migrator_status mg)) ∧
  (latest (migrator_status mg) = None ↔ applied_count (migrator_status mg) = 0%nat) ∧
  (∀ v, latest (migrator_status mg) = Some v →
        ∃ earlier_ones, store_applied (store mg) = earlier_ones ++ [v]).
Proof.
  intros Hwf Hnd Hcat.
  assert (version <$> pending mg = pending_versions mg) as Hvs.
  { unfold pending. apply omap_lookup_versions; [done|].
    intros k Hk. by apply elem_of_pending_versions in Hk as [? _]. }
  unfold migrator_status, get_applied.
  cbn [applied_count pending_count status_applied status_pending latest].
  rewrite Hvs. split_and!.
  - rewrite <-(length_fmap version), Hvs. unfold pending_versions, get_applied.
    rewrite Nat.add_comm, list_difference_length.
    + unfold sorted.
      rewrite (Permutation_length (merge_sort_Permutation _ _)).
      by rewrite length_fmap, length_map_to_list.
    + apply sorted_NoDup, NoDup_fst_map_to_list.
    + done.
    + intros x Hx. by apply elem_of_sorted, elem_of_keys, Hcat.
  - intros k. rewrite elem_of_pending_versions.
    destruct (decide (k ∈ store_applied (store mg))); naive_solver.
  - intros k Hk [_ Hnot]%elem_of_pending_versions. done.
  - destruct (store_applied (store mg)) as [|v l] using rev_ind; [done|].
    rewrite last_snoc, length_app. simpl. split; [done|lia].
  - intros v Hv. by apply last_Some.
Qed.

End CatalogMore.

(** ** The batches: [migrate], [rollback], [rollback_to] *)

Section BatchMore.

Context {World : Type} {clk : Clock World}.
Implicit Types (st : State World) (m : Migration World) (mg : Migrator World).
Implicit Types (rs acc : list MigrationResult) (walk pend : list string).

Lemma migrate_nothing_pending target st :
  pending_versions (self st) = [] →
  ∃ w, migrate target st = (Returned [], set_world w st).
Proof.
  intros Hp.
  destruct (emit_returns "before_migrate" None st) as [w1 H1].
  destruct (emit_returns "after_migrate" (Some []) (set_world w1 st)) as [w3 H3].
  exists w3. unfold migrate, bind. rewrite H1. unfold get_self.
  cbn [self set_world]. rewrite Hp. cbn [migrate_loop ret].
  change {| world := w1; self := self st |} with (set_world w1 st).
  by rewrite H3.
Qed.

Lemma rolled_back_rev_app (l vs : list string) :
  NoDup (l ++ vs) → rolled_back (rev vs) (l ++ vs) = l.
Proof.
  induction vs as [|v vs IH] using rev_ind; intros Hnd.
  - by rewrite app_nil_r.
  - rewrite rev_app_distr. cbn [rev app rolled_back fold_left].
    rewrite app_assoc in Hnd |- *.
    apply NoDup_app in Hnd as (Hnd & Hdis & _).
    rewrite list_remove_snoc_fresh.
    + by apply IH.
    + intros Hin. apply (Hdis v Hin). by apply list_elem_of_singleton.
Qed.

Lemma succeeded_pending rs rest (l : list string) :
  l = (res_version <$> rs) ++ rest → ∀ v, v ∈ succeeded rs → v ∈ l.
Proof.
  intros -> v Hv. apply elem_of_app. left. by apply succeeded_subseteq.
Qed.

Lemma succeeded_NoDup rs :
  NoDup (res_version <$> rs) → NoDup (succeeded rs).
Proof.
  unfold succeeded. induction rs as [|r rs IH]; [done|].
  rewrite fmap_cons, NoDup_cons. intros [Hr Hnd].
  rewrite filter_cons. destruct (decide (success r = true)); [|by apply IH].
  rewrite fmap_cons. apply NoDup_cons. split; [|by apply IH].
  intros Hin. apply Hr. by apply (succeeded_subseteq rs).
Qed.

Lemma applied_after_migrate_NoDup mg rs rest :
  pending_versions mg = (res_version <$> rs) ++ rest →
  NoDup (store_applied (store mg)) →
  NoDup (store_applied (store mg) ++ succeeded rs).
Proof.
  intros Hpend Hnd. apply NoDup_app. split_and!; [done| |].
  - intros v Hv Hs.
    by apply (succeeded_pending rs rest _ Hpend), elem_of_pending_versions
      in Hs as [_ ?].
  - apply succeeded_NoDup. apply (NoDup_app (res_version <$> rs) rest).
    rewrite <-Hpend. apply pending_versions_NoDup.
Qed.

(** X11.  Whatever the target, [migrate] drops from the pending
    versions exactly the versions it reports as successful, and a catalog
    keyed by version stays so.  After a run without target in which every
    result is a success nothing is pending, and a second [migrate]
    executes nothing: it returns the empty list and touches the migrator
    not at all (the hooks of the two events still run). *)
Theorem migrate_moves_successes_out_of_pending target st :
  catalog_wf (self st) →
  ∃ rs st',
    migrate target st = (Returned rs, st') ∧
    catalog_wf (self st') ∧
    pending_versions (self st')
    = list_difference (pending_versions (self st)) (succeeded rs) ∧
    (target = None → Forall (λ r, success r = true) rs →
     pending_versions (self st') = [] ∧
     ∃ w, migrate None st' = (Returned [], set_world w st')).
Proof.
  intros Hwf.
  destruct (migrate_runs target st Hwf)
    as (w1 & rs & st2 & w3 & rest & _ & _ & _ & Hmig & Heff).
  destruct Heff as (Hpend & _ & _ & _ & Hrest & Happ & _ & _ & _ & Hwf' & _ & _ & Hkeys).
  assert (pending_versions (self (set_world w3 st2))
          = list_difference (pending_versions (self st)) (succeeded rs)) as Hp.
  { cbn [self set_world]. unfold pending_versions, get_applied.
    rewrite Happ, list_difference_app_r.
    by rewrite (sorted_keys_same_dom _ _ Hkeys). }
  exists rs, (set_world w3 st2). split_and!; [done|done|done|].
  intros -> Hall.
  assert (pending_versions (self (set_world w3 st2)) = []) as Hnil.
  { rewrite Hp. apply list_difference_all. intros x Hx.
    rewrite (succeeded_all _ Hall).
    destruct (Hrest Hall) as [->|(k & rest' & t & _ & [=] & _)].
    by rewrite Hpend, app_nil_r in Hx. }
  split; [done|]. by apply migrate_nothing_pending.
Qed.

(** X12.  Round trip.  After [migrate], a [rollback] of as many steps as
    there were successes walks those versions in reverse order; when
    every backward run succeeds, the results list exactly them, newest
    first, each is left with status [ROLLED_BACK], and both the stored
    list of applied versions and the pending versions are what they were
    before [migrate]. *)
Theorem migrate_then_rollback_restores_store target st :
  catalog_wf (self st) →
  NoDup (store_applied (store (self st))) →
  ∃ rs st1 rs' st2,
    migrate target st = (Returned rs, st1) ∧
    rollback (Z.of_nat (length (succeeded rs))) st1 = (Returned rs', st2) ∧
    (res_version <$> rs') `prefix_of` rev (succeeded rs) ∧
    (Forall (λ r, success r = true) rs' →
     res_version <$> rs' = rev (succeeded rs) ∧
     store_applied (store (self st2)) = store_applied (store (self st)) ∧
     pending_versions (self st2) = pending_versions (self st) ∧
     ∀ v, v ∈ succeeded rs →
          ∃ m', migrations (self st2) !! v = Some m' ∧ status m' = ROLLED_BACK).
Proof.
  intros Hwf Hnd.
  destruct (migrate_runs target st Hwf)
    as (w1 & rs & st2 & w3 & rest & _ & _ & _ & Hmig & Heff).
  destruct Heff as (Hpend & _ & _ & _ & _ & Happ & _ & _ & _ & Hwf1 & _ & _ & Hkeys).
  set (st1 := set_world w3 st2) in *.
  assert (∀ v, v ∈ succeeded rs → v ∈ pending_versions (self st)) as Hsub
    by apply (succeeded_pending rs rest _ Hpend).
  assert (NoDup (store_applied (store (self st)) ++ succeeded rs)) as Hnd1
    by by apply (applied_after_migrate_NoDup _ _ rest).
  assert (store_applied (store (self st1))
          = store_applied (store (self st)) ++ succeeded rs) as Happ1 by done.
  destruct (rollback_runs (Z.of_nat (length (succeeded rs))) st1)
    as (w4 & rs' & st3 & w5 & _ & _ & _ & Hrb & Heff').
  { done. }
  { by rewrite Happ1. }
  unfold rollback_effect in Heff'.
  rewrite Nat2Z.id, Happ1, rev_app_distr in Heff'.
  assert (take (length (succeeded rs))
            (rev (succeeded rs) ++ rev (store_applied (store (self st))))
          = rev (succeeded rs)) as Htake.
  { rewrite <-(length_rev (succeeded rs)) at 1. apply take_app_length. }
  rewrite Htake in Heff'.
  assert (known (self st1) (rev (succeeded rs)) = rev (succeeded rs)) as Hknown.
  { apply known_all. intros v Hv. rewrite elem_of_rev in Hv. apply Hkeys.
    by apply Hsub, elem_of_pending_versions in Hv as [? _]. }
  rewrite Hknown in Heff'.
  destruct Heff' as (Hpre & Hfull & _ & _ & Hst & _ & _ & _ & _ & Hdom & _ & Hstat).
  exists rs, st1, rs', (set_world w5 st3). split_and!; [done..|].
  intros Hall. specialize (Hfull Hall).
  assert (store_applied (store (self st3)) = store_applied (store (self st))) as Hback.
  { rewrite Hst, (succeeded_all _ Hall), Hfull.
    by apply rolled_back_rev_app. }
  cbn [self set_world]. split_and!; [done..| |].
  - unfold pending_versions, get_applied. rewrite Hback.
    f_equal. apply sorted_keys_same_dom. intros k.
    rewrite <-Hkeys, <-!elem_of_dom. by rewrite Hdom.
  - intros v Hv.
    assert (v ∈ res_version <$> rs') as (r & -> & Hr)%list_elem_of_fmap
      by (rewrite Hfull; by apply elem_of_rev).
    destruct (Hstat r Hr) as (m' & Hm' & Hs). exists m'. split; [done|].
    rewrite Hs. by rewrite (proj1 (Forall_forall _ _) Hall r Hr).
Qed.

(** Two Migrations with the same content: they differ at most in
    [status] and [applied_at]. *)
Definition same_content m m' : Prop :=
  version m' = version m ∧ name m' = name m ∧
  up_sql m' = up_sql m ∧ down_sql m' = down_sql m ∧
  up_fn m' = up_fn m ∧ down_fn m' = down_fn m ∧
  checksum m' = checksum m.

(** The migrator [mg'] has the runner, the hooks and the catalog keys of
    [mg], and under every key a Migration with the same content; with
    [keep_applied_at], also with the same [applied_at]. *)
Definition content_kept (keep_applied_at : bool) mg mg' : Prop :=
  runner mg' = runner mg ∧ hooks mg' = hooks mg ∧
  store_migrations (store mg') = store_migrations (store mg) ∧
  ∀ k, match migrations mg !! k, migrations mg' !! k with
       | Some m, Some m' =>
           same_content m m' ∧
           (keep_applied_at = true → applied_at m' = applied_at m)
       | None, None => True
       | _, _ => False
       end.

Lemma content_kept_refl b mg : content_kept b mg mg.
Proof.
  split_and!; [done..|]. intros k. by destruct (migrations mg !! k).
Qed.

Lemma content_kept_trans b mg1 mg2 mg3 :
  content_kept b mg1 mg2 → content_kept b mg2 mg3 → content_kept b mg1 mg3.
Proof.
  intros (Hr1 & Hh1 & Hs1 & Hk1) (Hr2 & Hh2 & Hs2 & Hk2).
  split_and!; [congruence..|]. intros k. specialize (Hk1 k). specialize (Hk2 k).
  destruct (migrations mg1 !! k) as [m1|], (migrations mg2 !! k) as [m2|],
    (migrations mg3 !! k) as [m3|]; try done.
  destruct Hk1 as [(?&?&?&?&?&?&?) Ha1], Hk2 as [(?&?&?&?&?&?&?) Ha2].
  split; [unfold same_content; split_and!; congruence|].
  intros Hb. rewrite (Ha2 Hb). by apply Ha1.
Qed.

Lemma content_kept_after_up_ok k m w mg :
  content_kept false mg (after_up_ok k m w mg).
Proof.
  split_and!.
  - done.
  - done.
  - unfold after_up_ok. cbn [store set_migrations set_store].
    apply mark_applied_store_migrations.
  - intros j. rewrite after_up_ok_lookup.
    destruct (decide (k = j)) as [->|]; destruct (migrations mg !! j); done.
Qed.

Lemma content_kept_after_failed b k mg : content_kept b mg (after_failed k mg).
Proof.
  split_and!; [done..|]. intros j. rewrite after_failed_lookup.
  destruct (decide (k = j)) as [->|]; destruct (migrations mg !! j); done.
Qed.

Lemma content_kept_after_down_ok b k mg : content_kept b mg (after_down_ok k mg).
Proof.
  split_and!.
  - done.
  - done.
  - unfold after_down_ok. cbn [store set_migrations set_store].
    apply mark_rolled_back_store_migrations.
  - intros j. rewrite after_down_ok_lookup.
    destruct (decide (k = j)) as [->|]; destruct (migrations mg !! j); done.
Qed.

Lemma migrate_loop_missing target k pend acc st :
  migrations (self st) !! k = None →
  migrate_loop target (k :: pend) acc st = (Raised "KeyError", st).
Proof.
  intros Hk. cbn [migrate_loop].
  unfold bind at 1. unfold deref. unfold bind at 1. unfold get_self at 1.
  by rewrite Hk.
Qed.

Lemma migrate_loop_content target pend : ∀ acc st,
  content_kept false (self st) (self (snd (migrate_loop target pend acc st))).
Proof.
  induction pend as [|k pend IH]; intros acc st.
  - apply content_kept_refl.
  - destruct (migrations (self st) !! k) as [m|] eqn:Hk.
    + destruct (past_target target m) eqn:Hpast.
      * rewrite (migrate_loop_past _ _ _ _ _ _ Hk Hpast). apply content_kept_refl.
      * destruct (migrate_loop_step target k pend acc st m Hk Hpast)
          as (r & w & _ & _ & ->).
        destruct (success r).
        -- eapply content_kept_trans; [|apply IH].
           apply content_kept_after_up_ok.
        -- apply content_kept_after_failed.
    + rewrite (migrate_loop_missing _ _ _ _ _ Hk). apply content_kept_refl.
Qed.

Lemma rollback_loop_content steps walk : ∀ i acc st,
  content_kept true (self st) (self (snd (rollback_loop steps i walk acc st))).
Proof.
  induction walk as [|v walk IH]; intros i acc st.
  - apply content_kept_refl.
  - destruct (i >=? steps) eqn:Hi.
    { rewrite (rollback_loop_limit _ _ _ _ _ _ Hi). apply content_kept_refl. }
    destruct (migrations (self st) !! v) as [m|] eqn:Hv.
    + destruct (rollback_loop_step steps i v walk acc st m Hi Hv)
        as (r & w & _ & _ & ->).
      destruct (success r).
      * eapply content_kept_trans; [|apply IH].
        apply content_kept_after_down_ok.
      * apply content_kept_after_failed.
    + rewrite (rollback_loop_skip _ _ _ _ _ _ Hi Hv). apply IH.
Qed.

(** The state a batch leaves is the state its loop leaves, up to the
    world. *)
Lemma migrate_self target st :
  ∃ w1, self (snd (migrate target st))
        = self (snd (migrate_loop target (pending_versions (self st)) []
                       (set_world w1 st))).
Proof.
  destruct (emit_returns "before_migrate" None st) as [w1 H1]. exists w1.
  unfold migrate, bind. rewrite H1. unfold get_self. cbn [self set_world].
  change {| world := w1; self := self st |} with (set_world w1 st).
  destruct (migrate_loop _ _ _ _) as [[rs|e] st2]; [|done].
  destruct (emit_returns "after_migrate" (Some rs) st2) as [w3 H3].
  by rewrite H3.
Qed.

Lemma rollback_self steps st :
  ∃ w1, self (snd (rollback steps st))
        = self (snd (rollback_loop steps 0 (rev (get_applied (store (self st)))) []
                       (set_world w1 st))).
Proof.
  destruct (emit_returns "before_rollback" None st) as [w1 H1]. exists w1.
  unfold rollback, bind. rewrite H1. unfold get_self. cbn [self set_world].
  change {| world := w1; self := self st |} with (set_world w1 st).
  destruct (rollback_loop _ _ _ _ _) as [[rs|e] st2]; [|done].
  destruct (emit_returns "after_rollback" (Some rs) st2) as [w3 H3].
  by rewrite H3.
Qed.

(** X13.  The batches never touch the content of a Migration: whatever
    the catalog and the store, after [migrate] and after [rollback] the
    migrator has the same runner, hooks and catalog keys, and every
    Migration has its version, name, payloads, procedures and checksum;
    only [status] and [applied_at] can differ.  [rollback] leaves
    [applied_at] too: a Migration rolled back keeps the time it was
    applied.  [rollback_to] leaves the whole catalog as it is. *)
Theorem batches_keep_migration_content st :
  (∀ target, content_kept false (self st) (self (snd (migrate target st)))) ∧
  (∀ steps, content_kept true (self st) (self (snd (rollback steps st)))) ∧
  (∀ target, migrations (self (snd (rollback_to target st))) = migrations (self st)).
Proof.
  split_and!.
  - intros target. destruct (migrate_self target st) as [w1 ->].
    apply (migrate_loop_content target _ [] (set_world w1 st)).
  - intros steps. destruct (rollback_self steps st) as [w1 ->].
    apply (rollback_loop_content steps _ 0 [] (set_world w1 st)).
  - intros target.
    destruct (rollback_to_runs target st) as (rs & st' & -> & _ & Hm & _). done.
Qed.

Lemma rollback_loop_bound steps walk : ∀ i acc st,
  ∃ rs st',
    rollback_loop steps i walk acc st = (Returned (acc ++ rs), st') ∧
    (length rs ≤ Z.to_nat (steps - i))%nat ∧
    (length rs ≤ length walk)%nat ∧
    (rs = [] → st' = st).
Proof.
  induction walk as [|v walk IH]; intros i acc st.
  - exists [], st. rewrite app_nil_r. split_and!; [done|simpl; lia|done|done].
  - destruct (i >=? steps) eqn:Hi.
    { exists [], st. rewrite app_nil_r, (rollback_loop_limit _ _ _ _ _ _ Hi).
      split_and!; [done|simpl; lia|simpl; lia|done]. }
    assert (i < steps) as Hlt by (rewrite Z.geb_leb in Hi; lia).
    destruct (migrations (self st) !! v) as [m|] eqn:Hv.
    + destruct (rollback_loop_step steps i v walk acc st m Hi Hv)
        as (r & w & _ & _ & ->).
      destruct (success r).
      * destruct (IH (i + 1) (acc ++ [r])
                    {| world := w; self := after_down_ok v (self st) |})
          as (rs & st' & -> & Hn & Hl & _).
        exists (r :: rs), st'. rewrite <-app_assoc.
        split_and!; [done|simpl; lia|simpl; lia|done].
      * exists [r], {| world := w; self := after_failed v (self st) |}.
        split_and!; [done|simpl; lia|simpl; lia|done].
    + rewrite (rollback_loop_skip _ _ _ _ _ _ Hi Hv).
      destruct (IH (i + 1) acc st) as (rs & st' & -> & Hn & Hl & Hsame).
      exists rs, st'. split_and!; [done|lia|simpl; lia|done].
Qed.

(** X14.  [rollback] always returns, with at most [steps] results and at
    most one result per applied version; with [steps] zero or negative
    it returns the empty list.  When it returns the empty list, the
    migrator is untouched. *)
Theorem rollback_attempts_at_most_steps steps st :
  ∃ rs st',
    rollback steps st = (Returned rs, st') ∧
    (length rs ≤ Z.to_nat steps)%nat ∧
    (length rs ≤ length (store_applied (store (self st))))%nat ∧
    (steps <= 0 → rs = []) ∧
    (rs = [] → self st' = self st).
Proof.
  destruct (emit_returns "before_rollback" None st) as [w1 H1].
  destruct (rollback_loop_bound steps (rev (get_applied (store (self st)))) 0 []
              (set_world w1 st)) as (rs & st2 & Hloop & Hn & Hl & Hsame).
  destruct (emit_returns "after_rollback" (Some rs) st2) as [w3 H3].
  exists rs, (set_world w3 st2).
  rewrite Z.sub_0_r in Hn. rewrite length_rev in Hl.
  split_and!; [|done|done| |].
  - unfold rollback, bind. rewrite H1. unfold get_self. cbn [self set_world].
    change {| world := w1; self := self st |} with (set_world w1 st).
    rewrite Hloop. cbn [app]. by rewrite H3.
  - intros Hs. apply length_zero_iff_nil. lia.
  - intros Hrs. by rewrite (Hsame Hrs).
Qed.

(** X15.  [rollback_to] looks at the version applied last first and
    stops there when it does not exceed the target: it returns the empty
    list and changes nothing, whatever the versions applied before it.
    The same holds on an empty store. *)
Theorem rollback_to_stops_at_latest target st :
  match last (store_applied (store (self st))) with
  | Some v => Py.str_le v target = true
  | None => True
  end →
  rollback_to target st = (Returned [], st).
Proof.
  intros Hlast. unfold rollback_to, bind, get_self, get_applied.
  destruct (store_applied (store (self st))) as [|v l _] using rev_ind; [done|].
  rewrite last_snoc in Hlast. rewrite rev_app_distr. cbn [rev app].
  by rewrite rollback_to_loop_cons, Hlast.
Qed.

Lemma failed_not_succeeded rs r :
  NoDup (res_version <$> rs) → r ∈ rs → success r = false →
  res_version r ∉ succeeded rs.
Proof.
  induction rs as [|r0 rs IH]; [by intros _ ?%elem_of_nil|].
  rewrite fmap_cons, NoDup_cons. intros [Hr0 Hnd] Hin Hs.
  rewrite succeeded_cons. apply elem_of_cons in Hin as [->|Hin].
  - rewrite Hs. intros Hv. by apply Hr0, succeeded_subseteq.
  - destruct (success r0); [|by apply IH].
    intros [Heq|Hv]%elem_of_cons; [|by apply (IH Hnd Hin Hs)].
    apply Hr0. rewrite <-Heq. apply list_elem_of_fmap. by exists r.
Qed.

Lemma succeeded_elem_of rs r :
  r ∈ rs → success r = true → res_version r ∈ succeeded rs.
Proof.
  intros Hin Hs. unfold succeeded. apply list_elem_of_fmap. exists r.
  split; [done|]. by apply list_elem_of_filter.
Qed.

(** X16.  What [rollback] reports is what the store says afterwards: a
    version reported as rolled back is not applied any more and is
    pending again, with status [ROLLED_BACK]; a version whose backward
    run failed is still applied, with status [FAILED]. *)
Theorem rollback_results_match_store steps st :
  catalog_wf (self st) →
  NoDup (store_applied (store (self st))) →
  ∃ rs st',
    rollback steps st = (Returned rs, st') ∧
    ∀ r, r ∈ rs →
      is_applied (res_version r) (store (self st)) = true ∧
      ∃ m', migrations (self st') !! res_version r = Some m' ∧
        if success r
        then res_version r ∈ pending_versions (self st') ∧ status m' = ROLLED_BACK
        else is_applied (res_version r) (store (self st')) = true ∧ status m' = FAILED.
Proof.
  intros Hwf Hnd.
  destruct (rollback_runs steps st Hwf Hnd)
    as (w1 & rs & st2 & w3 & _ & _ & _ & Hrb & Heff).
  destruct Heff as (Hpre & _ & _ & _ & Hst & _ & _ & _ & _ & Hdom & _ & Hstat).
  exists rs, (set_world w3 st2). split; [done|]. cbn [self set_world].
  assert (∀ v, v ∈ res_version <$> rs → v ∈ store_applied (store (self st)))
    as Hin.
  { intros v Hv. destruct Hpre as [tl Htl].
    apply elem_of_rev, (elem_of_take_subseteq _ (Z.to_nat steps)), known_subseteq with (self st).
    rewrite Htl. apply elem_of_app. by left. }
  assert (NoDup (res_version <$> rs)) as Hnd'.
  { destruct Hpre as [tl Htl].
    assert (NoDup (known (self st) (take (Z.to_nat steps)
                     (rev (store_applied (store (self st))))))) as Hk.
    { apply NoDup_filter. apply NoDup_rev in Hnd.
      rewrite <-(take_drop (Z.to_nat steps) (rev _)) in Hnd.
      by apply NoDup_app in Hnd as [? _]. }
    rewrite Htl in Hk. by apply NoDup_app in Hk as [? _]. }
  intros r Hr.
  assert (res_version r ∈ res_version <$> rs) as Hv
    by (apply list_elem_of_fmap; by exists r).
  split; [by apply is_applied_true, Hin|].
  destruct (Hstat r Hr) as (m' & Hm' & Hs). exists m'. split; [done|].
  destruct (success r) eqn:Hsucc.
  - split; [|done]. apply elem_of_pending_versions. split; [by rewrite Hm'|].
    rewrite Hst, elem_of_rolled_back_NoDup by done.
    intros [_ Hnot]. by apply Hnot, succeeded_elem_of.
  - split; [|done]. apply is_applied_true.
    rewrite Hst, elem_of_rolled_back_NoDup by done.
    split; [by apply Hin|by apply failed_not_succeeded].
Qed.

(** The migrator is consistent: the catalog is keyed by version, and the
    store lists no version twice and only keys of the catalog. *)
Definition consistent mg : Prop :=
  catalog_wf mg ∧
  NoDup (store_applied (store mg)) ∧
  ∀ v, v ∈ store_applied (store mg) → is_Some (migrations mg !! v).

(** X17.  Consistency is an invariant of the interface: a migrator made
    without a store is consistent, and [register], [add_hook], [migrate],
    [rollback] and [rollback_to] keep a consistent migrator consistent,
    whatever they return. *)
Theorem interface_keeps_migrator_consistent :
  (∀ r, consistent (new_Migrator (World:=World) None r)) ∧
  ∀ st, consistent (self st) →
    (∀ m, consistent (self (snd (register m st)))) ∧
    (∀ event h, consistent (self (snd (add_hook event h st)))) ∧
    (∀ target, consistent (self (snd (migrate target st)))) ∧
    (∀ steps, consistent (self (snd (rollback steps st)))) ∧
    (∀ target, consistent (self (snd (rollback_to target st)))).
Proof.
  split.
  { intros r. split_and!; [apply new_Migrator_wf|apply NoDup_nil_2|].
    by intros v ?%elem_of_nil. }
  intros st (Hwf & Hnd & Hin). split_and!.
  - intros m. split_and!; [by apply register_wf|done|].
    intros v Hv. cbn [register modify_self snd self set_self set_migrations migrations].
    apply lookup_insert_is_Some. destruct (decide (version m = v)); [by left|].
    right. split; [done|]. by apply Hin.
  - intros event h. split; [by apply add_hook_wf|].
    cbn [add_hook modify_self snd self set_self].
    by destruct (hooks (self st) !! event).
  - intros target.
    destruct (migrate_runs target st Hwf)
      as (w1 & rs & st2 & w3 & rest & _ & _ & _ & -> & Heff).
    destruct Heff as (Hpend & _ & _ & _ & _ & Happ & _ & _ & _ & Hwf' & _ & _ & Hkeys).
    cbn [snd self set_world]. split_and!; [done| |].
    + rewrite Happ. by apply (applied_after_migrate_NoDup _ _ rest).
    + intros v. rewrite Happ, elem_of_app, Hkeys. intros [Hv|Hv]; [by apply Hin|].
      by apply (succeeded_pending rs rest _ Hpend), elem_of_pending_versions
        in Hv as [? _].
  - intros steps.
    destruct (rollback_runs steps st Hwf Hnd)
      as (w1 & rs & st2 & w3 & _ & _ & _ & -> & Heff).
    destruct Heff as (_ & _ & _ & _ & Hst & _ & _ & _ & Hwf' & Hdom & _ & _).
    cbn [snd self set_world]. split_and!; [done| |].
    + rewrite Hst. by apply rolled_back_NoDup.
    + intros v. rewrite Hst, elem_of_rolled_back_NoDup by done.
      intros [Hv _]. rewrite <-elem_of_dom, Hdom, elem_of_dom. by apply Hin.
  - intros target.
    destruct (rollback_to_runs target st) as (rs & st' & -> & _ & Hm & _ & _ & _ & Hst).
    destruct (Hst Hwf) as [_ Happ]. cbn [snd].
    split_and!.
    + intros k m. rewrite Hm. apply Hwf.
    + rewrite Happ. by apply rolled_back_NoDup.
    + intros v. rewrite Happ, elem_of_rolled_back_NoDup, Hm by done.
      intros [Hv _]. by apply Hin.
Qed.

Lemma run_up_default rn m st :
  executor rn = _default_executor → up_fn m = None →
  ∃ r, run_up rn m st = (Returned r, st) ∧ success r = true ∧ error r = None.
Proof.
  intros He Hfn. unfold run_up, bind, read, try_except. rewrite Hfn, He.
  destruct (Py.truthy (up_sql m)).
  - unfold call, _default_executor. rewrite set_world_id.
    eexists. split; [reflexivity|]. done.
  - eexists. split; [reflexivity|]. done.
Qed.

Lemma migrate_loop_step_ok target k pend acc st m r :
  migrations (self st) !! k = Some m →
  past_target target m = false →
  run_up (runner (self st)) m st = (Returned r, st) →
  success r = true →
  migrate_loop target (k :: pend) acc st
  = migrate_loop target pend (acc ++ [r])
      {| world := world st; self := after_up_ok k m (world st) (self st) |}.
Proof.
  intros Hk Hpast Hrun Hs. cbn [migrate_loop].
  unfold bind at 1. unfold deref. unfold bind at 1. unfold get_self at 1.
  rewrite Hk. unfold ret at 1. rewrite Hpast.
  unfold bind at 1. unfold get_self at 1. unfold bind at 1. rewrite Hrun.
  by rewrite Hs.
Qed.

Lemma migrate_loop_dry target pend : ∀ acc st,
  executor (runner (self st)) = _default_executor →
  (∀ k m, migrations (self st) !! k = Some m → up_fn m = None) →
  (∀ k, k ∈ pend → is_Some (migrations (self st) !! k)) →
  ∃ rs mg',
    migrate_loop target pend acc st
    = (Returned (acc ++ rs), {| world := world st; self := mg' |}) ∧
    Forall (λ r, success r = true ∧ error r = None) rs.
Proof.
  induction pend as [|k pend IH]; intros acc st He Hfn Hin.
  - exists [], (self st). rewrite app_nil_r. split; [by destruct st|done].
  - destruct (Hin k) as [m Hk]; [by left|].
    destruct (past_target target m) eqn:Hpast.
    { exists [], (self st). rewrite app_nil_r, (migrate_loop_past _ _ _ _ _ _ Hk Hpast).
      split; [by destruct st|done]. }
    destruct (run_up_default (runner (self st)) m st He (Hfn k m Hk))
      as (r & Hrun & Hs & Herr).
    rewrite (migrate_loop_step_ok _ _ _ _ _ _ _ Hk Hpast Hrun Hs).
    destruct (IH (acc ++ [r])
                {| world := world st;
                   self := after_up_ok k m (world st) (self st) |})
      as (rs & mg' & -> & Hall).
    + done.
    + intros j mj. cbn [self]. rewrite after_up_ok_lookup.
      destruct (decide (k = j)) as [->|]; [|by apply Hfn].
      rewrite Hk. intros [= <-]. by apply (Hfn j m).
    + intros j Hj. cbn [self]. rewrite after_up_ok_lookup.
      destruct (decide (k = j)) as [->|]; [by rewrite Hk|].
      apply Hin. by right.
    + exists (r :: rs), mg'. rewrite <-app_assoc. split; [done|].
      by apply Forall_cons.
Qed.

Lemma emit_nothing event data st :
  default [] (hooks (self st) !! event) = [] →
  _emit event data st = (Returned tt, st).
Proof. intros Hh. unfold _emit, bind, get_self. by rewrite Hh. Qed.

(** X18.  Dry run.  With the runner made without an executor, the
    backend does nothing: on a catalog keyed by version whose Migrations
    have no forward procedure, [migrate] reports a success without error
    for exactly the pending versions that do not exceed the target, in
    ascending order, and marks each as applied; without a target, or
    with the empty string as target, these are all the pending versions.
    With no hook registered the world is what it was. *)
Theorem default_executor_dry_run target st :
  catalog_wf (self st) →
  runner (self st) = new_MigrationRunner None →
  (∀ k m, migrations (self st) !! k = Some m → up_fn m = None) →
  ∃ rs st',
    migrate target st = (Returned rs, st') ∧
    Forall (λ r, success r = true ∧ error r = None) rs ∧
    res_version <$> rs
    = match target with
      | Some t =>
          if Py.truthy t
          then filter (λ v, Py.str_gt v t = false) (pending_versions (self st))
          else pending_versions (self st)
      | None => pending_versions (self st)
      end ∧
    store_applied (store (self st'))
    = store_applied (store (self st)) ++ (res_version <$> rs) ∧
    ((∀ event, default [] (hooks (self st) !! event) = []) → world st' = world st).
Proof.
  intros Hwf Hrn Hfn.
  destruct (migrate_runs target st Hwf)
    as (w1 & rs & st2 & w3 & rest & He1 & Hloop & He3 & Hmig & Heff).
  destruct (migrate_loop_dry target (pending_versions (self st)) [] (set_world w1 st))
    as (rs' & mg' & Hloop' & Hall).
  { cbn [self set_world]. by rewrite Hrn. }
  { done. }
  { intros k Hk. by apply elem_of_pending_versions in Hk as [? _]. }
  rewrite Hloop in Hloop'. cbn [app world set_world] in Hloop'.
  injection Hloop' as <- Hst2.
  assert (Forall (λ r, success r = true) rs) as Hsucc
    by (eapply Forall_impl; [exact Hall|]; by intros r [? _]).
  destruct Heff as (Hpend & _ & _ & Htgt & Hrest & Happ & _ & _ & Hhooks & _).
  exists rs, (set_world w3 st2). split_and!; [done|done| | |].
  - destruct (Hrest Hsucc) as [->|(k & rest' & t & -> & -> & Ht & Hgt)].
    + rewrite app_nil_r in Hpend. rewrite Hpend.
      destruct target as [t|]; [|done]. destruct (Py.truthy t) eqn:Ht; [|done].
      rewrite filter_all; [done|]. apply Forall_fmap. by apply (Htgt t).
    + rewrite Ht, Hpend, filter_app.
      rewrite filter_all by (apply Forall_fmap; by apply (Htgt t)).
      rewrite filter_none; [by rewrite app_nil_r|].
      assert (Forall (λ v, Py.str_gt v t = true) (k :: rest')) as Hpast.
      { apply sorted_past_target; [|done].
        pose proof (pending_versions_sorted (self st)) as Hs.
        rewrite Hpend in Hs. by apply StronglySorted_app_1_r in Hs. }
      eapply Forall_impl; [exact Hpast|]. simpl. congruence.
  - cbn [self set_world]. by rewrite Happ, (succeeded_all _ Hsucc).
  - intros Hno. cbn [world set_world].
    rewrite (emit_nothing "before_migrate" None st (Hno _)) in He1.
    rewrite (emit_nothing "after_migrate" (Some rs) st2) in He3
      by (rewrite Hhooks; apply Hno).
    injection He1 as He1. injection He3 as He3.
    apply (f_equal world) in He1, He3. cbn [world set_world] in He1, He3.
    rewrite <-He3, Hst2. cbn [world]. by rewrite He1.
Qed.

End BatchMore.

(** ** The hooks: [add_hook] and [_emit] *)

Section HooksMore.

Context {World : Type} {clk : Clock World}.
Implicit Types (st : State World) (h : Handler World) (hs : list (Handler World)).

Lemma emit_handlers_app hs1 hs2 data st :
  emit_handlers (hs1 ++ hs2) data st
  = bind (emit_handlers hs1 data) (λ _, emit_handlers hs2 data) st.
Proof.
  revert st. induction hs1 as [|h hs1 IH]; intros st; [done|].
  cbn [app emit_handlers]. unfold bind.
  destruct (try_except _ _ st) as [[[]|e] st1]; [|done].
  rewrite IH. by unfold bind.
Qed.

(** X19.  The events are fixed when the migrator is made: a new
    migrator knows the four events, each without handler, and [add_hook]
    never adds or removes an event; it leaves the store, the runner, the
    catalog and the world alone.  On an event the migrator does not know
    it does nothing at all, without raising. *)
Theorem add_hook_ignores_unknown_events event h st :
  (∀ s r e, hooks (new_Migrator (World:=World) s r) !! e
            = if bool_decide (e ∈ ["before_migrate"; "after_migrate";
                                   "before_rollback"; "after_rollback"])
              then Some [] else None) ∧
  (∃ st', add_hook event h st = (Returned tt, st') ∧
          (∀ e, is_Some (hooks (self st') !! e) ↔ is_Some (hooks (self st) !! e)) ∧
          store (self st') = store (self st) ∧
          runner (self st') = runner (self st) ∧
          migrations (self st') = migrations (self st) ∧
          world st' = world st) ∧
  (hooks (self st) !! event = None → add_hook event h st = (Returned tt, st)).
Proof.
  split_and!.
  - intros s r e. cbn [new_Migrator hooks].
    destruct (decide (e = "before_migrate")) as [->|]; [done|].
    rewrite lookup_insert_ne by done.
    destruct (decide (e = "after_migrate")) as [->|]; [done|].
    rewrite lookup_insert_ne by done.
    destruct (decide (e = "before_rollback")) as [->|]; [done|].
    rewrite lookup_insert_ne by done.
    destruct (decide (e = "after_rollback")) as [->|]; [done|].
    rewrite lookup_insert_ne, lookup_empty by done.
    rewrite bool_decide_eq_false_2; [done|].
    rewrite !elem_of_cons, elem_of_nil. naive_solver.
  - eexists. split; [reflexivity|].
    cbn [add_hook modify_self snd self world set_self].
    destruct (hooks (self st) !! event) as [hs|] eqn:He; [|done].
    split_and!; [|done..]. intros e. cbn [hooks set_hooks].
    destruct (decide (event = e)) as [<-|].
    + rewrite lookup_insert_eq, He. by split.
    + by rewrite lookup_insert_ne.
  - intros He. unfold add_hook, modify_self. rewrite He. by destruct st.
Qed.

(** X20.  Handlers run in the order they were registered.  On a known
    event [add_hook] puts the handler last in the list of that event and
    leaves the other events as they are; emitting the event afterwards
    runs the handlers registered before, then the new one.  In general,
    emitting to two lists of handlers in a row is emitting to the first
    and then to the second. *)
Theorem hooks_run_in_registration_order event h hs st :
  hooks (self st) !! event = Some hs →
  ∃ st',
    add_hook event h st = (Returned tt, st') ∧
    hooks (self st') !! event = Some (hs ++ [h]) ∧
    (∀ e, e ≠ event → hooks (self st') !! e = hooks (self st) !! e) ∧
    (∀ data,
       _emit event data st'
       = bind (emit_handlers hs data) (λ _, emit_handlers [h] data) st') ∧
    (∀ hs1 hs2 data st0,
       emit_handlers (hs1 ++ hs2) data st0
       = bind (emit_handlers hs1 data) (λ _, emit_handlers hs2 data) st0).
Proof.
  intros He. eexists. split; [reflexivity|].
  cbn [add_hook modify_self snd self set_self]. rewrite He.
  cbn [hooks set_hooks]. split_and!.
  - apply lookup_insert_eq.
  - intros e Hne. by apply lookup_insert_ne.
  - intros data. unfold _emit, bind at 1, get_self.
    cbn [self set_self hooks set_hooks]. rewrite lookup_insert_eq. cbn [default].
    apply emit_handlers_app.
  - apply emit_handlers_app.
Qed.

End HooksMore.

(** ** [generate]: the slug and the names *)

Section NamesMore.

Context {World : Type} {clk : Clock World}.

Lemma lower_char_class c : Py.in_class c = true → Py.lower_char c = c.
Proof. by destruct c as [[] [] [] [] [] [] [] []]. Qed.

Lemma lower_char_idem c : Py.lower_char (Py.lower_char c) = Py.lower_char c.
Proof. by destruct c as [[] [] [] [] [] [] [] []]. Qed.

Lemma lower_idem s : Py.lower (Py.lower s) = Py.lower s.
Proof.
  induction s as [|c s IH]; [done|]. cbn [Py.lower].
  by rewrite lower_char_idem, IH.
Qed.

Lemma slug_shape_lower b s : slug_shape b s = true → Py.lower s = s.
Proof.
  revert b. induction s as [|c s IH]; intros b; [done|].
  cbn [slug_shape Py.lower]. destruct (Py.in_class c) eqn:Hc.
  - intros Hs. by rewrite (lower_char_class _ Hc), (IH _ Hs).
  - rewrite !andb_true_iff. intros [[->%Ascii.eqb_eq _] Hs].
    by rewrite (IH _ Hs).
Qed.

Lemma slug_shape_re_sub s : ∀ b b',
  slug_shape b s = true → (b' = true → b = false) → Py.re_sub_from b' s = s.
Proof.
  induction s as [|c s IH]; intros b b'; [done|].
  cbn [slug_shape Py.re_sub_from]. destruct (Py.in_class c) eqn:Hc.
  - intros Hs _. by rewrite (IH true false Hs).
  - rewrite !andb_true_iff. intros [[->%Ascii.eqb_eq ->] Hs] Hb.
    destruct b'; [by specialize (Hb eq_refl)|].
    by rewrite (IH false true Hs).
Qed.

Lemma slug_shape_lstrip s : slug_shape false s = true → Py.lstrip s = s.
Proof.
  destruct s as [|c s]; [done|]. cbn [slug_shape].
  destruct (Py.in_class c) eqn:Hc.
  - intros _. apply in_class_not_sep in Hc.
    by destruct c as [[] [] [] [] [] [] [] []].
  - by rewrite andb_false_r.
Qed.

Lemma slug_shape_rstrip s : ∀ b,
  slug_shape b s = true → s ≠ EmptyString → Py.rstrip s = s.
Proof.
  induction s as [|c s IH]; intros b; [done|].
  cbn [slug_shape]. destruct (Py.in_class c) eqn:Hc.
  - intros Hs _. rewrite rstrip_cons by by apply in_class_not_sep.
    destruct s as [|c' s]; [done|]. by rewrite (IH true Hs).
  - rewrite !andb_true_iff. intros [[->%Ascii.eqb_eq _] Hs] _.
    rewrite rstrip_sep. destruct s as [|c' s]; [done|].
    by rewrite (IH false Hs).
Qed.

Lemma slug_fixes_well_formed s : well_formed_slug s = true → slug s = s.
Proof.
  destruct s as [|c s]; [done|]. cbn [well_formed_slug]. intros Hs.
  unfold slug, Py.strip, Py.re_sub.
  rewrite (slug_shape_lower _ _ Hs), (slug_shape_re_sub _ false false Hs) by done.
  rewrite (slug_shape_lstrip _ Hs). by apply (slug_shape_rstrip _ false).
Qed.

(** X21.  The slug is a normal form: the strings [slug] leaves as they
    are, are exactly the well-formed slugs, so that taking the slug twice
    is taking it once; and the slug does not see the case of the
    letters. *)
Theorem slug_is_a_normal_form name :
  slug (slug name) = slug name ∧
  slug (Py.lower name) = slug name ∧
  (slug name = name ↔ well_formed_slug name = true).
Proof.
  split_and!.
  - apply slug_fixes_well_formed, slug_well_formed.
  - unfold slug. by rewrite lower_idem.
  - split; [|apply slug_fixes_well_formed].
    intros Hs. rewrite <-Hs. apply slug_well_formed.
Qed.

(** Two times agree to the second. *)
Definition same_second (d1 d2 : datetime) : Prop :=
  year d1 = year d2 ∧ month d1 = month d2 ∧ day d1 = day d2 ∧
  hour d1 = hour d2 ∧ minute d1 = minute d2 ∧ second d1 = second d2.

Lemma ascii_compare_refl c : Ascii.compare c c = Eq.
Proof. unfold Ascii.compare. apply N.compare_refl. Qed.

Lemma string_compare_refl s : String.compare s s = Eq.
Proof.
  induction s as [|c s IH]; [done|]. cbn [String.compare].
  by rewrite ascii_compare_refl.
Qed.

Lemma append_inj_length a a' b b' :
  String.length a = String.length a' → a +:+ b = a' +:+ b' → a = a' ∧ b = b'.
Proof.
  revert a'. induction a as [|c a IH]; intros [|c' a']; try done.
  rewrite !append_cons. cbn [String.length]. intros [= Hl] [= -> Hab].
  destruct (IH a' Hl Hab) as [-> ->]. done.
Qed.

Lemma strftime_inj d1 d2 :
  valid_datetime d1 → valid_datetime d2 →
  strftime d1 = strftime d2 → same_second d1 d2.
Proof.
  intros Hv1 Hv2 Heq.
  pose proof (digits_compare 14 (stamp_number d1) (stamp_number d2)) as Hc.
  rewrite <-!strftime_number, Heq, string_compare_refl in Hc by done.
  symmetry in Hc. apply Z.compare_eq in Hc.
  unfold valid_datetime in Hv1, Hv2. unfold same_second.
  assert (0 <= stamp_number d1 < 10 ^ Z.of_nat 14) as H1
    by (unfold stamp_number; change (10 ^ Z.of_nat 14) with 100000000000000; lia).
  assert (0 <= stamp_number d2 < 10 ^ Z.of_nat 14) as H2
    by (unfold stamp_number; change (10 ^ Z.of_nat 14) with 100000000000000; lia).
  rewrite !Z.mod_small in Hc by done.
  unfold stamp_number in Hc. lia.
Qed.

(** X22.  The names [generate] gives at valid times collide exactly when
    the times agree to the second and the names have the same slug: the
    timestamp tells two times apart down to the second, and no further. *)
Theorem generate_names_collide_iff name1 name2 st1 st2 :
  valid_datetime (datetime_now (world st1)) →
  valid_datetime (datetime_now (world st2)) →
  (fst (generate name1 st1) = fst (generate name2 st2) ↔
   same_second (datetime_now (world st1)) (datetime_now (world st2)) ∧
   slug name1 = slug name2).
Proof.
  intros Hv1 Hv2. unfold generate, bind, read, ret. cbn [fst]. split.
  - intros Heq.
    apply (f_equal (λ o, match o with Returned s => s | Raised _ => EmptyString end))
      in Heq.
    apply append_inj_length in Heq as [Hts Hslug];
      [|by rewrite !strftime_length].
    split; [by apply strftime_inj|]. by injection Hslug.
  - intros [Hsame ->]. do 2 f_equal. unfold strftime.
    destruct Hsame as (-> & -> & -> & -> & -> & ->). done.
Qed.

End NamesMore.

(** ** The checksum of [__post_init__] *)

Section ChecksumMore.

Context {World : Type} {clk : Clock World}.
Implicit Types (m : Migration World).

(** A digit of lowercase hexadecimal. *)
Definition is_hex_char (c : ascii) : bool :=
  Py.is_digit c || (97 <=? Py.ord c) && (Py.ord c <=? 102).

Lemma hex_digit_is_hex z : 0 <= z < 16 → is_hex_char (MD5.hex_digit z) = true.
Proof.
  intros Hz.
  assert (z = 0 ∨ z = 1 ∨ z = 2 ∨ z = 3 ∨ z = 4 ∨ z = 5 ∨ z = 6 ∨ z = 7 ∨
          z = 8 ∨ z = 9 ∨ z = 10 ∨ z = 11 ∨ z = 12 ∨ z = 13 ∨ z = 14 ∨ z = 15)
    as Hcases by lia.
  repeat (destruct Hcases as [->|Hcases]; [reflexivity|]). by subst.
Qed.

Lemma hex_is_hex bs :
  Forall (λ b, 0 <= b < 256) bs →
  Forall (λ c, is_hex_char c = true) (list_ascii_of_string (MD5.hex bs)).
Proof.
  induction 1 as [|b bs Hb _ IH]; [constructor|].
  cbn [MD5.hex list_ascii_of_string]. repeat constructor; [| |done].
  - apply hex_digit_is_hex. rewrite Z.shiftr_div_pow2 by lia.
    change (2 ^ 4) with 16. split; [apply Z.div_pos; lia|].
    apply Z.div_lt_upper_bound; lia.
  - apply hex_digit_is_hex. change 15 with (Z.ones 4).
    rewrite Z.land_ones by lia. apply Z.mod_pos_bound. lia.
Qed.

Lemma le_bytes_range n x : Forall (λ b, 0 <= b < 256) (MD5.le_bytes n x).
Proof.
  revert x. induction n as [|n IH]; intros x; [constructor|].
  cbn [MD5.le_bytes]. constructor; [|apply IH].
  change 255 with (Z.ones 8). rewrite Z.land_ones by lia.
  apply Z.mod_pos_bound. lia.
Qed.

Lemma digest_range msg : Forall (λ b, 0 <= b < 256) (MD5.digest msg).
Proof.
  unfold MD5.digest. destruct (fold_left _ _ _) as [[[a b] c] d].
  rewrite !Forall_app. split_and!; apply le_bytes_range.
Qed.

Lemma take_chars n s (P : ascii → Prop) :
  Forall P (list_ascii_of_string s) → Forall P (list_ascii_of_string (Py.take n s)).
Proof.
  revert s. induction n as [|n IH]; intros [|c s]; try constructor.
  - by inversion H.
  - apply IH. by inversion H.
Qed.

(** X23.  [__post_init__] fills in the checksum only when it is empty: a
    checksum that is given is kept as it is, whatever the payloads.  The
    one it fills in is eight digits of lowercase hexadecimal; so the
    checksum is never empty afterwards and a second [__post_init__]
    changes nothing. *)
Theorem post_init_fills_empty_checksum_only m :
  (Py.truthy (checksum m) = true → post_init m = m) ∧
  (checksum m = "" →
   String.length (checksum (post_init m)) = 8%nat ∧
   Forall (λ c, is_hex_char c = true)
     (list_ascii_of_string (checksum (post_init m)))) ∧
  Py.truthy (checksum (post_init m)) = true ∧
  post_init (post_init m) = post_init m.
Proof.
  assert (checksum m = "" →
          String.length (checksum (post_init m)) = 8%nat ∧
          Forall (λ c, is_hex_char c = true)
            (list_ascii_of_string (checksum (post_init m)))) as Hfill.
  { intros Hc. unfold post_init. rewrite Hc. cbn [Py.truthy negb checksum set_checksum].
    split.
    - by rewrite take_length, hexdigest_length.
    - apply take_chars, hex_is_hex, digest_range. }
  assert (Py.truthy (checksum (post_init m)) = true) as Htruthy.
  { destruct (checksum m) as [|c s] eqn:Hc.
    - destruct (Hfill eq_refl) as [Hlen _].
      by destruct (checksum (post_init m)).
    - unfold post_init. rewrite Hc. cbn [Py.truthy negb]. by rewrite Hc. }
  split_and!; [|done|done|].
  - intros Hc. unfold post_init. by rewrite Hc.
  - unfold post_init at 1. by rewrite Htruthy.
Qed.

End ChecksumMore.

(** ** Further concrete runs on the journal backend *)

Module Scenarios.

(** A procedure that leaves a note in the journal. *)
Definition noting : Proc Journal.World := fun w => (Returned tt, w ++ ["note"]).

(** A Migration with a forward procedure and a forward payload the
    backend would refuse. *)
Definition m4 : Migration Journal.World :=
  build (builder_up_fn noting (up "!never" (create "004" "with_procedure"))).

Definition journal_runner : MigrationRunner Journal.World :=
  new_MigrationRunner (Some Journal.backend).

(** The catalog of [example_usage] on a migrator made without store and
    without runner. *)
Definition dry : State Journal.World :=
  fold_left (fun st m => Journal.exec (register m) st)
    [Journal.m3; Journal.m1; Journal.m2]
    {| world := []; self := new_Migrator None None |}.

End Scenarios.

Lemma orphaned_wf : catalog_wf (self Journal.orphaned).
Proof. apply (register_wf Journal.m1), new_Migrator_wf. Qed.

Lemma usage_applied : store_applied (store (self Journal.usage)) = [].
Proof. vm_compute. reflexivity. Qed.

Lemma usage_NoDup : NoDup (store_applied (store (self Journal.usage))).
Proof. rewrite usage_applied. constructor. Qed.

Lemma usage_consistent : consistent (self Journal.usage).
Proof.
  split_and!; [apply registered_wf|apply usage_NoDup|].
  intros v. rewrite usage_applied. by intros ?%elem_of_nil.
Qed.

Lemma migrated_latest :
  match last (store_applied (store (self Journal.migrated))) with
  | Some v => Py.str_le v "003" = true
  | None => True
  end.
Proof. vm_compute. reflexivity. Qed.

Lemma dry_wf : catalog_wf (self Scenarios.dry).
Proof.
  apply (register_wf Journal.m2), (register_wf Journal.m1),
    (register_wf Journal.m3), new_Migrator_wf.
Qed.

Lemma dry_runner : runner (self Scenarios.dry) = new_MigrationRunner None.
Proof. reflexivity. Qed.

Lemma dry_payload_only k m :
  migrations (self Scenarios.dry) !! k = Some m → up_fn m = None.
Proof.
  change (migrations (self Scenarios.dry))
    with (<["002" := Journal.m2]> (<["001" := Journal.m1]>
            (<["003" := Journal.m3]> (∅ : gmap string (Migration Journal.World))))).
  rewrite !lookup_insert_Some, lookup_empty.
  intros [[_ <-]|[_ [[_ <-]|[_ [[_ <-]|[_ [=]]]]]]]; reflexivity.
Qed.

(** X5 on a Migration whose forward payload the backend would refuse:
    the procedure runs instead and leaves its note. *)
Lemma procedure_takes_precedence_witness :
  ∃ r, run_up Scenarios.journal_runner Scenarios.m4 Journal.fresh
       = (Returned r,
          set_world (snd (Scenarios.noting (world Journal.fresh))) Journal.fresh) ∧
       error r = error_of (fst (Scenarios.noting (world Journal.fresh))).
Proof.
  destruct (procedure_takes_precedence Scenarios.journal_runner Scenarios.m4
              Journal.fresh) as [Hup _].
  destruct (Hup Scenarios.noting eq_refl) as [_ Hr]. exact Hr.
Defined.

Example procedure_leaves_note :
  let '(out, st') := run_up Scenarios.journal_runner Scenarios.m4 Journal.fresh in
  (match out with Returned r => (success r, error r) | Raised _ => (false, None) end)
  = (true, None) ∧ world st' = ["note"].
Proof. vm_compute. done. Qed.

(** X6 on a Migration made without payloads. *)
Lemma empty_body_is_success_witness :
  ∃ r, run_up Scenarios.journal_runner
         (default_Migration (World:=Journal.World) "005" "empty") Journal.fresh
       = (Returned r, Journal.fresh) ∧ success r = true ∧ error r = None.
Proof.
  destruct (empty_body_is_success Scenarios.journal_runner
              (default_Migration (World:=Journal.World) "005" "empty")
              Journal.fresh) as [Hup _].
  exact (Hup eq_refl eq_refl).
Defined.

(** X8 on the catalog {003, 001, 002}, registered in this order. *)
Lemma pending_is_sorted_unapplied_catalog_witness :
  StronglySorted String.le (version <$> pending (self Journal.usage)) ∧
  NoDup (version <$> pending (self Journal.usage)).
Proof.
  destruct (pending_is_sorted_unapplied_catalog (self Journal.usage)
              (registered_wf _)) as (_ & Hsorted & Hnd & _).
  split; assumption.
Defined.

Example pending_usage :
  version <$> pending (self Journal.usage) = ["001"; "002"; "003"].
Proof. vm_compute. reflexivity. Qed.

(** X9 on a store that lists 001 and the unknown 009. *)
Lemma applied_skips_unknown_versions_witness :
  version <$> applied (self Journal.orphaned)
  = known (self Journal.orphaned) (store_applied (store (self Journal.orphaned))).
Proof.
  destruct (applied_skips_unknown_versions (self Journal.orphaned) orphaned_wf)
    as [Hv _].
  exact Hv.
Defined.

Example applied_orphaned :
  version <$> applied (self Journal.orphaned) = ["001"] ∧
  store_applied (store (self Journal.orphaned)) = ["001"; "009"].
Proof. vm_compute. done. Qed.

(** X10 on the catalog {001, 002, 003} after [migrate()]. *)
Lemma status_counts_add_up_witness :
  (applied_count (migrator_status (self Journal.migrated))
   + pending_count (migrator_status (self Journal.migrated))
   = size (migrations (self Journal.migrated)))%nat.
Proof.
  destruct (status_counts_add_up (self Journal.migrated)
              migrated_wf migrated_NoDup migrated_known) as [Hsum _].
  exact Hsum.
Defined.

Example status_after_target_002 :
  let s := migrator_status (self (snd (migrate (Some "002") Journal.usage))) in
  (applied_count s, pending_count s, status_applied s, status_pending s, latest s)
  = (2%nat, 1%nat, ["001"; "002"], ["003"], Some "002").
Proof. vm_compute. reflexivity. Qed.

(** X11 on the catalog {001, 002, 003}. *)
Lemma migrate_moves_successes_out_of_pending_witness :
  ∃ rs st',
    migrate None Journal.usage = (Returned rs, st') ∧
    catalog_wf (self st') ∧
    pending_versions (self st')
    = list_difference (pending_versions (self Journal.usage)) (succeeded rs).
Proof.
  destruct (migrate_moves_successes_out_of_pending None Journal.usage
              (registered_wf _)) as (rs & st' & H1 & H2 & H3 & _).
  exists rs, st'. split; [assumption|]. split; assumption.
Defined.

(** X12 on the catalog {001, 002, 003}. *)
Lemma migrate_then_rollback_restores_store_witness :
  ∃ rs st1 rs' st2,
    migrate None Journal.usage = (Returned rs, st1) ∧
    rollback (Z.of_nat (length (succeeded rs))) st1 = (Returned rs', st2) ∧
    (res_version <$> rs') `prefix_of` rev (succeeded rs).
Proof.
  destruct (migrate_then_rollback_restores_store None Journal.usage
              (registered_wf _) usage_NoDup)
    as (rs & st1 & rs' & st2 & H1 & H2 & H3 & _).
  exists rs, st1, rs', st2. split; [assumption|]. split; assumption.
Defined.

Example round_trip_usage :
  let st1 := snd (migrate None Journal.usage) in
  let '(out, st2) := rollback 3 st1 in
  (match out with
   | Returned rs => (λ r, (res_version r, success r)) <$> rs
   | Raised _ => []
   end) = [("003", true); ("002", true); ("001", true)] ∧
  store_applied (store (self st1)) = ["001"; "002"; "003"] ∧
  store_applied (store (self st2)) = [] ∧
  pending_versions (self st2) = ["001"; "002"; "003"].
Proof. vm_compute. done. Qed.

(** X15 on the catalog {001, 002, 003}, all applied, with target 003. *)
Lemma rollback_to_stops_at_latest_witness :
  rollback_to "003" Journal.migrated = (Returned [], Journal.migrated).
Proof.
  exact (rollback_to_stops_at_latest "003" Journal.migrated migrated_latest).
Defined.

(** X16 on the catalog {001, 002, 003}, all applied, with two steps. *)
Lemma rollback_results_match_store_witness :
  ∃ rs st',
    rollback 2 Journal.migrated = (Returned rs, st') ∧
    ∀ r, r ∈ rs → is_applied (res_version r) (store (self Journal.migrated)) = true.
Proof.
  destruct (rollback_results_match_store 2 Journal.migrated
              migrated_wf migrated_NoDup) as (rs & st' & H1 & H2).
  exists rs, st'. split; [assumption|].
  intros r Hr. destruct (H2 r Hr) as [Ha _]. exact Ha.
Defined.

Example failed_rollback_stays_applied :
  let '(out, st') := rollback 2 Journal.migrated_bad_down in
  (match out with
   | Returned rs => (λ r, (res_version r, success r)) <$> rs
   | Raised _ => []
   end) = [("003", false)] ∧
  store_applied (store (self st')) = ["001"; "002"; "003"] ∧
  status <$> migrations (self st') !! "003" = Some FAILED.
Proof. vm_compute. done. Qed.

(** X17 on the catalog {001, 002, 003}: the migrator is consistent
    after [migrate()]. *)
Lemma interface_keeps_migrator_consistent_witness :
  consistent (self (snd (migrate None Journal.usage))).
Proof.
  destruct (interface_keeps_migrator_consistent (World:=Journal.World))
    as [_ Hkeep].
  destruct (Hkeep Journal.usage usage_consistent) as (_ & _ & Hmig & _).
  exact (Hmig None).
Defined.

(** X18 on the catalog {001, 002, 003} with the default runner and the
    target 002: the versions reported are 001 and 002. *)
Lemma dry_pending_to_002 :
  filter (λ v, Py.str_gt v "002" = false) (pending_versions (self Scenarios.dry))
  = ["001"; "002"].
Proof. vm_compute. reflexivity. Qed.

Lemma default_executor_dry_run_witness :
  ∃ rs st',
    migrate (Some "002") Scenarios.dry = (Returned rs, st') ∧
    Forall (λ r, success r = true ∧ error r = None) rs ∧
    res_version <$> rs = ["001"; "002"] ∧
    store_applied (store (self st'))
    = store_applied (store (self Scenarios.dry)) ++ (res_version <$> rs).
Proof.
  destruct (default_executor_dry_run (Some "002") Scenarios.dry
              dry_wf dry_runner dry_payload_only)
    as (rs & st' & H1 & H2 & H3 & H4 & _).
  exists rs, st'. split; [assumption|]. split; [assumption|].
  split; [|assumption].
  rewrite <-dry_pending_to_002. exact H3.
Defined.

Example dry_run_usage :
  let '(out, st') := migrate None Scenarios.dry in
  (match out with
   | Returned rs => (λ r, (res_version r, success r)) <$> rs
   | Raised _ => []
   end) = [("001", true); ("002", true); ("003", true)] ∧
  store_applied (store (self st')) = ["001"; "002"; "003"] ∧
  world st' = [].
Proof. vm_compute. done. Qed.

Example dry_run_to_002 :
  let '(out, st') := migrate (Some "002") Scenarios.dry in
  (match out with
   | Returned rs => (λ r, (res_version r, success r, error r)) <$> rs
   | Raised _ => []
   end) = [("001", true, None); ("002", true, None)] ∧
  store_applied (store (self st')) = ["001"; "002"] ∧
  pending_versions (self st') = ["003"] ∧
  world st' = [].
Proof. vm_compute. done. Qed.

(** A callback that leaves a note in the journal. *)
Definition noting_hook : Handler Journal.World :=
  fun data w => (Returned tt, w ++ ["noted"]).

(** A new migrator on which [noting_hook] is registered for
    [after_migrate]. *)
Definition hooked : State Journal.World :=
  Journal.exec (add_hook "after_migrate" noting_hook) Journal.fresh.

Lemma hooked_after_migrate_hooks :
  hooks (self hooked) !! "after_migrate" = Some [noting_hook].
Proof. vm_compute. reflexivity. Qed.

(** X20 on a migrator with one handler registered before: the new
    handler is put after it, and emitting runs the earlier one, then the
    new one. *)
Lemma hooks_run_in_registration_order_witness :
  ∃ st',
    add_hook "after_migrate" Journal.raising_hook hooked = (Returned tt, st') ∧
    hooks (self st') !! "after_migrate"
    = Some ([noting_hook] ++ [Journal.raising_hook]) ∧
    _emit "after_migrate" None st'
    = bind (emit_handlers [noting_hook] None)
        (λ _, emit_handlers [Journal.raising_hook] None) st'.
Proof.
  destruct (hooks_run_in_registration_order "after_migrate" Journal.raising_hook
              [noting_hook] hooked hooked_after_migrate_hooks)
    as (st' & H1 & H2 & _ & H4 & _).
  exists st'. split; [assumption|]. split; [assumption|]. exact (H4 None).
Defined.

Example emit_in_registration_order :
  let st' := snd (add_hook "after_migrate" Journal.raising_hook hooked) in
  _emit "after_migrate" None st' = (Returned tt, set_world ["noted"; "hook"] st').
Proof. vm_compute. reflexivity. Qed.

(** X22 on two spellings of one name, at the same time. *)
Lemma generate_names_collide_iff_witness :
  fst (generate "Add Age Column" Journal.fresh)
  = fst (generate "add-age-column" Journal.fresh) ↔
  same_second (datetime_now (world Journal.fresh))
              (datetime_now (world Journal.fresh)) ∧
  slug "Add Age Column" = slug "add-age-column".
Proof.
  assert (valid_datetime (datetime_now (world Journal.fresh))) as Hv.
  { destruct journal_times as [Hfresh _]. rewrite Hfresh.
    unfold valid_datetime. simpl. lia. }
  exact (generate_names_collide_iff "Add Age Column" "add-age-column"
           Journal.fresh Journal.fresh Hv Hv).
Defined.

Example generate_collision :
  fst (generate "Add Age Column" Journal.fresh)
  = fst (generate "add-age-column" Journal.fresh).
Proof. vm_compute. reflexivity. Qed.
